(** * TurboKit [HashMap]: a shallow embedding of [hash_map.h] and its properties

    The container keeps two parallel arrays of [bucket_count] slots each:
    [main_table] (one home slot per bucket, tagged with [chain_length]) and
    [collision_table] (overflow slots, tagged with the owning bucket
    [main_index]).  [size_t] values are integers in [0, 2^64) with explicit
    wrap-around; the sentinel [invalid_marker] is [(size_t)-1]. *)

From Stdlib Require Import ZArith Lia Bool.
From stdpp Require Import base decidable option numbers list.
Local Open Scope Z_scope.

Module turbokit.

(** ** Machine integers *)

Definition size_modulus : Z := 2 ^ 64.
Definition wrap (z : Z) : Z := z mod size_modulus.
(** [std::numeric_limits<size_t>::max()] *)
Definition size_max : Z := size_modulus - 1.
(** [static constexpr int8_t invalid_marker = -1], compared after the cast to
    [size_t]. *)
Definition invalid_marker : Z := wrap (-1).
Definition isInvalid (v : Z) : bool := v =? invalid_marker.

(** ** Results of operations that may not return normally *)

Inductive outcome (A : Type) : Type :=
| Ok (a : A)          (* normal return *)
| Abort               (* std::abort / std::terminate *)
| RangeError          (* throw std::range_error *)
| OutOfFuel.          (* the recursion or loop bound of the model was hit *)
Arguments Ok {A} a.
Arguments Abort {A}.
Arguments RangeError {A}.
Arguments OutOfFuel {A}.

Definition bind {A B} (m : outcome A) (f : A -> outcome B) : outcome B :=
  match m with
  | Ok a => f a
  | Abort => Abort
  | RangeError => RangeError
  | OutOfFuel => OutOfFuel
  end.

Notation "'do' x <- m ; k" := (bind m (fun x => k))
  (at level 10, x name, m at level 100, k at level 200).

(** A [noexcept] function turns an escaping exception into termination. *)
Definition noexcept {A} (m : outcome A) : outcome A :=
  match m with
  | RangeError => Abort
  | _ => m
  end.

(** The value a [void] function or a function returning [size_t] hands back. *)
Inductive retval : Type :=
| RVoid
| RSize (n : Z).

(** ** Data model *)

Inductive pointer : Type :=
| nullptr
| main_value_ptr (i : Z)        (* &main_table[i].value *)
| collision_value_ptr (i : Z).  (* &collision_table[i].value *)

Global Instance pointer_eq_dec : EqDecision pointer.
Proof. solve_decision. Defined.

Record iterator : Type := mk_iterator {
  bucket_index : Z;
  collision_index : Z;
  value_ptr : pointer
}.

(** [iterator::operator==] compares [value_ptr] only. *)
Definition iterator_eq (a b : iterator) : bool :=
  bool_decide (value_ptr a = value_ptr b).

(** ** Where the members of a slot lie

    [MainEntry] and [CollisionEntry] both begin [KeyType key; ValueType
    value;]: the key is at offset 0 and the value at the same offset
    [offsetof_value] in both.  [operator*] looks for the key
    [sizeof(KeyType)] bytes before the value.  That is the key member when
    no padding separates the two members; otherwise it is a run of bytes
    made of the end of the key and of padding, and [displaced_key] stands
    for the [KeyType] these bytes denote. *)
Class SlotLayout (KeyType ValueType : Type) : Type := {
  sizeof_KeyType : Z;
  offsetof_value : Z;
  displaced_key : pointer -> KeyType -> KeyType
}.

Section hash_map.
Context {KeyType ValueType : Type}.
Context `{!EqDecision KeyType, !Inhabited KeyType, !Inhabited ValueType}.
Context `{!SlotLayout KeyType ValueType}.
(** [HashFunction()(key)], a pure function of the key. *)
Variable HashFunction : KeyType -> Z.
(** [sizeof(MainEntry)], which depends on the instantiation. *)
Variable sizeof_MainEntry : Z.

Record MainEntry : Type := mk_main {
  main_key : KeyType;
  main_value : ValueType;
  chain_length : Z
}.

Record CollisionEntry : Type := mk_coll {
  coll_key : KeyType;
  coll_value : ValueType;
  main_index : Z
}.

Global Instance MainEntry_inhabited : Inhabited MainEntry :=
  populate (mk_main inhabitant inhabitant invalid_marker).
Global Instance CollisionEntry_inhabited : Inhabited CollisionEntry :=
  populate (mk_coll inhabitant inhabitant invalid_marker).

(** [None] is the null pointer of a table that was never allocated. *)
Record HashMap : Type := mk_map {
  bucket_count : Z;
  element_count : Z;
  main_table : option (list MainEntry);
  collision_table : option (list CollisionEntry)
}.

(** [HashMap() = default] *)
Definition empty_map : HashMap := mk_map 0 0 None None.

Definition mains (t : HashMap) : list MainEntry := default [] (main_table t).
Definition colls (t : HashMap) : list CollisionEntry :=
  default [] (collision_table t).

(** [main_table[i]] and [collision_table[i]]; reading outside the
    allocation is undefined in the source and yields an invalid slot here. *)
Definition main_at (t : HashMap) (i : Z) : MainEntry :=
  mains t !!! Z.to_nat i.
Definition coll_at (t : HashMap) (i : Z) : CollisionEntry :=
  colls t !!! Z.to_nat i.

Definition set_main (t : HashMap) (i : Z) (e : MainEntry) : HashMap :=
  mk_map (bucket_count t) (element_count t)
         (insert (Z.to_nat i) e <$> main_table t) (collision_table t).
Definition set_coll (t : HashMap) (i : Z) (e : CollisionEntry) : HashMap :=
  mk_map (bucket_count t) (element_count t)
         (main_table t) (insert (Z.to_nat i) e <$> collision_table t).
Definition set_count (t : HashMap) (n : Z) : HashMap :=
  mk_map (bucket_count t) n (main_table t) (collision_table t).

Definition set_chain_length (e : MainEntry) (n : Z) : MainEntry :=
  mk_main (main_key e) (main_value e) n.
Definition set_main_index (e : CollisionEntry) (n : Z) : CollisionEntry :=
  mk_coll (coll_key e) (coll_value e) n.

Definition size (t : HashMap) : Z := element_count t.
Definition get_bucket_count (t : HashMap) : Z := bucket_count t.
Definition empty (t : HashMap) : bool := element_count t =? 0.

(** [bucket_count - 1] *)
Definition mask_of (t : HashMap) : Z := wrap (bucket_count t - 1).

(** ** Cursors *)

Definition end_ (t : HashMap) : iterator := mk_iterator 0 0 nullptr.

(** The key and value members of the slot that [value_ptr] points
    into. *)
Definition deref (t : HashMap) (it : iterator)
  : option (KeyType * ValueType) :=
  match value_ptr it with
  | nullptr => None
  | main_value_ptr i => Some (main_key (main_at t i), main_value (main_at t i))
  | collision_value_ptr i =>
      Some (coll_key (coll_at t i), coll_value (coll_at t i))
  end.

(** The [KeyType] that [operator*] reads [sizeof(KeyType)] bytes before
    the value pointer [p] of a slot whose key member is [key]. *)
Definition key_before_value (p : pointer) (key : KeyType) : KeyType :=
  if offsetof_value =? sizeof_KeyType then key else displaced_key p key.

(** [operator*]: the pair of the key read [sizeof(KeyType)] bytes before
    [value_ptr] and of [*value_ptr]. *)
Definition operator_star (t : HashMap) (it : iterator)
  : option (KeyType * ValueType) :=
  match value_ptr it with
  | nullptr => None
  | main_value_ptr i =>
      Some (key_before_value (main_value_ptr i) (main_key (main_at t i)),
            main_value (main_at t i))
  | collision_value_ptr i =>
      Some (key_before_value (collision_value_ptr i)
                             (coll_key (coll_at t i)),
            coll_value (coll_at t i))
  end.

(** The second loop of [operator++]: over the collision table. *)
Fixpoint next_collision (fuel : nat) (t : HashMap) (it : iterator)
  : outcome iterator :=
  match fuel with
  | O => OutOfFuel
  | S fuel' =>
      if collision_index it =? wrap (bucket_count t - 1) then
        Ok (mk_iterator (bucket_index it) (collision_index it) nullptr)
      else
        let ci := wrap (collision_index it + 1) in
        let it' := mk_iterator (bucket_index it) ci (collision_value_ptr ci) in
        if isInvalid (main_index (coll_at t ci))
        then next_collision fuel' t it'
        else Ok it'
  end.

(** The first loop of [operator++]: over the main table, crossing over to
    the collision table after the last bucket. *)
Fixpoint next_main (fuel : nat) (t : HashMap) (it : iterator)
  : outcome iterator :=
  match fuel with
  | O => OutOfFuel
  | S fuel' =>
      if bucket_index it =? wrap (bucket_count t - 1) then
        let it' := mk_iterator invalid_marker 0 (collision_value_ptr 0) in
        if negb (isInvalid (main_index (coll_at t 0))) then Ok it'
        else next_collision (S (Z.to_nat (bucket_count t))) t it'
      else
        let bi := wrap (bucket_index it + 1) in
        let it' := mk_iterator bi (collision_index it) (main_value_ptr bi) in
        if isInvalid (chain_length (main_at t bi))
        then next_main fuel' t it'
        else Ok it'
  end.

(** [iterator::operator++()].  Each loop visits a slot at most once, so
    [bucket_count + 1] rounds are all an in-range cursor can use. *)
Definition increment (t : HashMap) (it : iterator) : outcome iterator :=
  if isInvalid (collision_index it)
  then next_main (S (Z.to_nat (bucket_count t))) t it
  else next_collision (S (Z.to_nat (bucket_count t))) t it.

(** [for (size_t i = 0; i != bucket_limit; ++i) if (p i) return i] *)
Fixpoint first_index (n : nat) (i : Z) (p : Z -> bool) : option Z :=
  match n with
  | O => None
  | S n' => if p i then Some i else first_index n' (i + 1) p
  end.

Definition begin (t : HashMap) : iterator :=
  match main_table t with
  | None => end_ t
  | Some _ =>
      let bucket_limit := Z.to_nat (bucket_count t) in
      match first_index bucket_limit 0
              (fun i => negb (isInvalid (chain_length (main_at t i)))) with
      | Some i => mk_iterator i invalid_marker (main_value_ptr i)
      | None =>
          match first_index bucket_limit 0
                  (fun i => negb (isInvalid (main_index (coll_at t i)))) with
          | Some i => mk_iterator i i (collision_value_ptr i)
          | None => end_ t
          end
      end
  end.

(** ** Lookup *)

(** The [equal] lambda of [find_in_collision_chain]. *)
Definition chain_equal (t : HashMap) (cur bucket_idx : Z) (key : KeyType)
  : bool :=
  (main_index (coll_at t cur) =? bucket_idx)
  && bool_decide (coll_key (coll_at t cur) = key).

(** The scan state: the offset of [current_ptr] in the collision table,
    the running [collision_idx] and the remaining [chain_len]. *)
Definition scan_state : Type := (Z * Z * Z)%type.

(** One [if (equal(...)) return ...; ++current_ptr; ++collision_idx;
    --chain_len;] group. *)
Definition scan_step (t : HashMap) (bucket_idx : Z) (key : KeyType)
           (s : scan_state) : iterator + scan_state :=
  let '(cur, cidx, clen) := s in
  if chain_equal t cur bucket_idx key then
    inl (mk_iterator bucket_idx (Z.land cidx (mask_of t))
                     (collision_value_ptr cur))
  else inr (cur + 1, wrap (cidx + 1), wrap (clen - 1)).

(** [n] groups in a row, as the fall-through cases of the switch run them. *)
Fixpoint scan_steps (n : nat) (t : HashMap) (bucket_idx : Z) (key : KeyType)
         (s : scan_state) : iterator + scan_state :=
  match n with
  | O => inr s
  | S n' =>
      match scan_step t bucket_idx key s with
      | inl it => inl it
      | inr s' => scan_steps n' t bucket_idx key s'
      end
  end.

(** The entry point of [switch (chain_len)]: cases 3, 2 and 1 run that many
    groups, every other value enters at [default: case 4:]. *)
Definition switch_groups (chain_len : Z) : nat :=
  if chain_len =? 3 then 3%nat
  else if chain_len =? 2 then 2%nat
  else if chain_len =? 1 then 1%nat
  else 4%nat.

(** The [do ... while (current_ptr != end_ptr)] loop. *)
Fixpoint chain_loop (fuel : nat) (t : HashMap) (bucket_idx : Z)
         (key : KeyType) (end_idx : Z) (s : scan_state) : outcome iterator :=
  match fuel with
  | O => OutOfFuel
  | S fuel' =>
      let end_iterator := mk_iterator bucket_idx end_idx nullptr in
      let '(cur, _, clen) := s in
      let unrolled : iterator + scan_state :=
        if end_idx >? cur then
          match scan_steps (switch_groups clen) t bucket_idx key s with
          | inl it => inl it
          | inr (cur', cidx', clen') =>
              if cur' =? end_idx then inl end_iterator
              else inr (cur', cidx', clen')
          end
        else inr s in
      match unrolled with
      | inl it => Ok it
      | inr s1 =>
          match scan_step t bucket_idx key s1 with
          | inl it => Ok it
          | inr (cur2, cidx2, clen2) =>
              let cur3 := if cur2 =? bucket_count t then 0 else cur2 in
              if cur3 =? end_idx then Ok end_iterator
              else chain_loop fuel' t bucket_idx key end_idx
                              (cur3, cidx2, clen2)
          end
      end
  end.

Definition find_in_collision_chain (t : HashMap) (bucket_idx : Z)
           (key : KeyType) : outcome iterator :=
  let chain_len := chain_length (main_at t bucket_idx) in
  let end_collision_idx := Z.land (wrap (bucket_idx + chain_len)) (mask_of t) in
  chain_loop (S (Z.to_nat (bucket_count t))) t bucket_idx key
             end_collision_idx (bucket_idx, bucket_idx, chain_len).

Definition find (t : HashMap) (key : KeyType) : outcome iterator :=
  match main_table t with
  | None => Ok (end_ t)
  | Some _ =>
      let bucket_idx := Z.land (HashFunction key) (mask_of t) in
      let main_entry := main_at t bucket_idx in
      if isInvalid (chain_length main_entry) then
        Ok (mk_iterator bucket_idx invalid_marker nullptr)
      else if bool_decide (main_key main_entry = key) then
        Ok (mk_iterator bucket_idx invalid_marker (main_value_ptr bucket_idx))
      else if chain_length main_entry =? 0 then
        Ok (mk_iterator bucket_idx bucket_idx nullptr)
      else find_in_collision_chain t bucket_idx key
  end.

(** ** Removal *)

(** [while (chain_len && collision_table[(bucket_idx + chain_len - 1) &
    mask].main_index != bucket_idx) --chain_len;] The loop runs at most
    [chain_len] rounds, which is what [n] counts. *)
Fixpoint walk_back (n : nat) (t : HashMap) (bucket_idx chain_len : Z) : Z :=
  match n with
  | O => chain_len
  | S n' =>
      if chain_len =? 0 then chain_len
      else if main_index
                (coll_at t (Z.land (wrap (bucket_idx + chain_len - 1))
                                   (mask_of t))) =? bucket_idx
      then chain_len
      else walk_back n' t bucket_idx (wrap (chain_len - 1))
  end.

(** [iterator remove(iterator iter) noexcept] *)
Definition remove (t : HashMap) (iter : iterator)
  : outcome (HashMap * iterator) :=
  let mask := mask_of t in
  let bucket_idx := bucket_index iter in
  let collision_idx := collision_index iter in
  let t := set_count t (wrap (element_count t - 1)) in
  if isInvalid collision_idx then
    let main_entry := main_at t bucket_idx in
    let chain_len := chain_length main_entry in
    if negb (chain_len =? 0) then
      let chain_len := wrap (chain_len - 1) in
      let index := Z.land (wrap (bucket_idx + chain_len)) mask in
      let collision_entry := coll_at t index in
      let t := set_coll t index
                 (set_main_index collision_entry invalid_marker) in
      let t := set_main t bucket_idx
                 (mk_main (coll_key collision_entry)
                          (coll_value collision_entry)
                          (chain_length main_entry)) in
      let chain_len := walk_back (Z.to_nat chain_len) t bucket_idx chain_len in
      let t := set_main t bucket_idx
                 (set_chain_length (main_at t bucket_idx) chain_len) in
      Ok (t, iter)
    else
      do iter' <- increment t iter;
      let t := set_main t bucket_idx
                 (set_chain_length main_entry invalid_marker) in
      Ok (t, iter')
  else
    let collision_entry := coll_at t collision_idx in
    let bucket_idx :=
      if isInvalid bucket_idx then main_index collision_entry
      else bucket_idx in
    let main_entry := main_at t bucket_idx in
    let chain_len := wrap (chain_length main_entry - 1) in
    let last_index := Z.land (wrap (bucket_idx + chain_len)) mask in
    let last_entry := coll_at t last_index in
    do iter' <- (if last_index =? collision_idx then increment t iter
                 else Ok iter);
    let t :=
      if last_index =? collision_idx then t
      else set_coll t collision_idx
             (mk_coll (coll_key last_entry) (coll_value last_entry)
                      (main_index collision_entry)) in
    let t := set_coll t last_index
               (set_main_index (coll_at t last_index) invalid_marker) in
    let chain_len := walk_back (Z.to_nat chain_len) t bucket_idx chain_len in
    let t := set_main t bucket_idx (set_chain_length main_entry chain_len) in
    Ok (t, iter').

(** [template <typename KeyT> void remove(KeyT &&key)] *)
Definition remove_key (t : HashMap) (key : KeyType)
  : outcome (HashMap * retval) :=
  do iter <- find t key;
  if negb (iterator_eq iter (end_ t)) then
    do r <- remove t iter;
    Ok (fst r, RVoid)
  else Ok (t, RVoid).

(** [clear()]: [while (iter != end_iter) iter = remove(iter);] *)
Fixpoint clear_loop (fuel : nat) (t : HashMap) (iter : iterator)
  : outcome HashMap :=
  match fuel with
  | O => OutOfFuel
  | S fuel' =>
      if iterator_eq iter (end_ t) then Ok t
      else do r <- remove t iter; clear_loop fuel' (fst r) (snd r)
  end.

Definition clear (t : HashMap) : outcome HashMap :=
  clear_loop (S (2 * Z.to_nat (bucket_count t))) t (begin t).

(** ** Growth *)

Definition live_main (e : MainEntry) : option (KeyType * ValueType) :=
  if isInvalid (chain_length e) then None
  else Some (main_key e, main_value e).
Definition live_coll (e : CollisionEntry) : option (KeyType * ValueType) :=
  if isInvalid (main_index e) then None
  else Some (coll_key e, coll_value e).

(** The live pairs in slot order: main table first, then collision table.
    This is the order in which [resize_table] re-inserts them and in which
    a cursor walks them. *)
Definition entries (t : HashMap) : list (KeyType * ValueType) :=
  omap live_main (mains t) ++ omap live_coll (colls t).

(** Both arrays right after allocation and the marking loop of
    [resize_table]; the keys and values are uninitialised storage. *)
Definition fresh_table (n : Z) : HashMap :=
  mk_map n 0
    (Some (replicate (Z.to_nat n) (mk_main inhabitant inhabitant invalid_marker)))
    (Some (replicate (Z.to_nat n) (mk_coll inhabitant inhabitant invalid_marker))).

Section with_insert.
(** [try_insert] as seen from [resize_table]: the returned pair is
    dropped. *)
Variable ins : HashMap -> KeyType -> ValueType -> outcome HashMap.

Fixpoint reinsert (l : list (KeyType * ValueType)) (t : HashMap)
  : outcome HashMap :=
  match l with
  | [] => Ok t
  | (k, v) :: l' => do t' <- ins t k v; reinsert l' t'
  end.

(** [void resize_table(size_t new_bucket_count) noexcept].  Allocation is
    assumed to succeed. *)
Definition resize_table_with (new_bucket_count : Z) (t : HashMap)
  : outcome HashMap :=
  if negb (Z.land new_bucket_count (wrap (new_bucket_count - 1)) =? 0)
  then Abort
  else
    match main_table t with
    | None => Ok (fresh_table new_bucket_count)
    | Some _ => noexcept (reinsert (entries t) (fresh_table new_bucket_count))
    end.

(** [while (bucket_limit < n) bucket_limit *= 2;] After 64 doublings the
    limit has wrapped to 0 for good, so 65 rounds decide the loop. *)
Fixpoint grow_limit (fuel : nat) (bucket_limit n : Z) : option Z :=
  match fuel with
  | O => None
  | S fuel' =>
      if bucket_limit <? n then grow_limit fuel' (wrap (bucket_limit * 2)) n
      else Some bucket_limit
  end.

(** [void reserve(size_t n)] *)
Definition reserve_with (n : Z) (t : HashMap) : outcome HashMap :=
  if n >=? size_max / 2 then RangeError
  else
    let bucket_limit := if bucket_count t =? 0 then 1 else bucket_count t in
    match grow_limit 65 bucket_limit n with
    | None => OutOfFuel
    | Some bucket_limit => resize_table_with bucket_limit t
    end.
End with_insert.

(** ** Insertion *)

(** [while (!isInvalid(collision_table[index].main_index)) { index =
    (index + 1) & mask; ++chain_len; }] Once [n] slots in a row were
    occupied the probe has seen the whole table and never stops. *)
Fixpoint probe (n : nat) (t : HashMap) (index chain_len : Z)
  : option (Z * Z) :=
  match n with
  | O => None
  | S n' =>
      if isInvalid (main_index (coll_at t index)) then Some (index, chain_len)
      else probe n' t (Z.land (wrap (index + 1)) (mask_of t))
                 (wrap (chain_len + 1))
  end.

(** Where [try_insert] goes once the key is known to be absent and the
    table has room: the three arms of its final [if]/[else if]/[else]. *)
Inductive placement : Type :=
| PlaceMain
| Expand
| PlaceCollision (index chain_len : Z)
| ProbeDiverges.

Definition small_limit : Z := 1024 * 1024 / sizeof_MainEntry.
Definition large_limit : Z := 1024 * 1024 * 4 / sizeof_MainEntry.

Definition choose_placement (t : HashMap) (iter : iterator) : placement :=
  if isInvalid (collision_index iter) then PlaceMain
  else if (bucket_count t <? small_limit)
          && (bucket_count t <? wrap (element_count t * 4)) then Expand
  else
    let chain_len := wrap (chain_length (main_at t (bucket_index iter)) + 1) in
    match probe (Z.to_nat (bucket_count t)) t (collision_index iter)
                chain_len with
    | None => ProbeDiverges
    | Some (index, chain_len) =>
        if ((chain_len >=? 4) && (bucket_count t <? large_limit))
           || (chain_len >=? bucket_count t / 2)
        then Expand
        else PlaceCollision index chain_len
    end.

Definition insert_result : Type := (HashMap * (iterator * bool))%type.

(** The tail of [try_insert] from [auto *main_table = this->main_table] on;
    [resize] stands for the jump [expand: ... goto resize]. *)
Definition place
           (resize : Z -> HashMap -> KeyType -> ValueType -> outcome insert_result)
           (t : HashMap) (iter : iterator) (key : KeyType) (args : ValueType)
  : outcome insert_result :=
  match choose_placement t iter with
  | PlaceMain =>
      let t := set_count t (wrap (element_count t + 1)) in
      let t := set_main t (bucket_index iter) (mk_main key args 0) in
      Ok (t, (mk_iterator (bucket_index iter) invalid_marker
                          (main_value_ptr (bucket_index iter)), true))
  | Expand => resize (wrap (bucket_count t + 1)) t key args
  | PlaceCollision index chain_len =>
      let main_entry := main_at t (bucket_index iter) in
      let t := set_count t (wrap (element_count t + 1)) in
      let t := set_main t (bucket_index iter)
                 (set_chain_length main_entry chain_len) in
      let t := set_coll t index (mk_coll key args (bucket_index iter)) in
      Ok (t, (mk_iterator (bucket_index iter) index
                          (collision_value_ptr index), true))
  | ProbeDiverges => OutOfFuel
  end.

Definition drop_result (m : outcome insert_result) : outcome HashMap :=
  do r <- m; Ok (fst r).

(** [try_insert], with [fuel] bounding the depth of the recursion through
    [reserve] and [resize_table] and the number of [goto resize] rounds. *)
Fixpoint try_insert (fuel : nat) (t : HashMap) (key : KeyType)
         (args : ValueType) {struct fuel} : outcome insert_result :=
  match fuel with
  | O => OutOfFuel
  | S fuel' =>
      let reserve :=
        reserve_with (fun t k v => drop_result (try_insert fuel' t k v)) in
      do t <- (match main_table t with
               | None => reserve 16 t
               | Some _ => Ok t
               end);
      do iter <- find t key;
      if negb (bool_decide (value_ptr iter = nullptr)) then Ok (t, (iter, false))
      else
        let new_bucket_count := wrap (element_count t + 1) in
        if bucket_count t <? new_bucket_count
        then resize_and_place fuel' new_bucket_count t key args
        else place (resize_and_place fuel') t iter key args
  end
(** The label [resize:] and what follows it. *)
with resize_and_place (fuel : nat) (new_bucket_count : Z) (t : HashMap)
       (key : KeyType) (args : ValueType) {struct fuel}
  : outcome insert_result :=
  match fuel with
  | O => OutOfFuel
  | S fuel' =>
      let reserve :=
        reserve_with (fun t k v => drop_result (try_insert fuel' t k v)) in
      do t <- reserve new_bucket_count t;
      do iter <- find t key;
      place (resize_and_place fuel') t iter key args
  end.

Definition reserve (fuel : nat) (n : Z) (t : HashMap) : outcome HashMap :=
  reserve_with (fun t k v => drop_result (try_insert fuel t k v)) n t.
Definition resize_table (fuel : nat) (n : Z) (t : HashMap)
  : outcome HashMap :=
  resize_table_with (fun t k v => drop_result (try_insert fuel t k v)) n t.

(** [emplace] and [insert(const std::pair&)] forward to [try_insert]. *)
Definition emplace := try_insert.
Definition insert (fuel : nat) (t : HashMap) (x : KeyType * ValueType)
  : outcome insert_result :=
  emplace fuel t (fst x) (snd x).

(** ** Sequences of operations *)

Inductive operation : Type :=
| Insert (key : KeyType) (value : ValueType)
| Erase (key : KeyType).

Definition apply_op (fuel : nat) (t : HashMap) (op : operation)
  : outcome HashMap :=
  match op with
  | Insert key value => drop_result (insert fuel t (key, value))
  | Erase key => do r <- remove_key t key; Ok (fst r)
  end.

Fixpoint run (fuel : nat) (ops : list operation) (t : HashMap)
  : outcome HashMap :=
  match ops with
  | [] => Ok t
  | op :: ops' => do t' <- apply_op fuel t op; run fuel ops' t'
  end.

Definition insert_all (kvs : list (KeyType * ValueType)) : list operation :=
  (fun kv => Insert kv.1 kv.2) <$> kvs.
Definition erase_all (keys : list KeyType) : list operation :=
  Erase <$> keys.

(** ** Copying *)

(** [for (auto &entry : other) insert(entry);] *)
Fixpoint copy_loop (rounds fuel : nat) (this other : HashMap)
         (iter : iterator) : outcome HashMap :=
  match rounds with
  | O => OutOfFuel
  | S rounds' =>
      if iterator_eq iter (end_ other) then Ok this
      else
        match operator_star other iter with
        | None => Ok this
        | Some entry =>
            do r <- insert fuel this entry;
            do iter' <- increment other iter;
            copy_loop rounds' fuel (fst r) other iter'
        end
  end.

(** [HashMap &operator=(const HashMap &other)] *)
Definition assign (fuel : nat) (this other : HashMap) : outcome HashMap :=
  do this <- clear this;
  copy_loop (S (2 * Z.to_nat (bucket_count other))) fuel this other
            (begin other).

(** [HashMap(const HashMap &other) { *this = other; }] *)
Definition copy_construct (fuel : nat) (other : HashMap) : outcome HashMap :=
  assign fuel empty_map other.

(** [HashMap moved(std::move(original))]: the class declares a destructor,
    a copy constructor and a copy assignment, so no move constructor exists
    and the rvalue binds to [const HashMap &].  The pair is the new object
    and the source object afterwards. *)
Definition move_construct (fuel : nat) (original : HashMap)
  : outcome (HashMap * HashMap) :=
  do moved <- copy_construct fuel original;
  Ok (moved, original).

(** ** Further members *)

(** [ValueType &operator[](KeyT &&index)]:
    [try_insert(index).first->second].  With an empty argument pack the
    new value is [ValueType()], here [value_init]; the reference returned
    is the cursor's [value_ptr]. *)
Definition subscript (value_init : ValueType) (fuel : nat) (t : HashMap)
           (index : KeyType) : outcome (HashMap * pointer) :=
  do r <- try_insert fuel t index value_init;
  Ok (fst r, value_ptr (fst (snd r))).

(** Reading through a [ValueType *]. *)
Definition load (t : HashMap) (p : pointer) : option ValueType :=
  match p with
  | nullptr => None
  | main_value_ptr i => Some (main_value (main_at t i))
  | collision_value_ptr i => Some (coll_value (coll_at t i))
  end.

End hash_map.

(** ** Representation invariant *)

Section hash_map_invariant.
Context {KeyType ValueType : Type}.
Context `{!EqDecision KeyType, !Inhabited KeyType, !Inhabited ValueType}.
Context `{!SlotLayout KeyType ValueType}.
Variable HashFunction : KeyType -> Z.
Variable sizeof_MainEntry : Z.

Local Abbreviation HashMap := (@HashMap KeyType ValueType).

(** [hash(key) & (capacity - 1)] *)
Definition bucket_of (t : HashMap) (key : KeyType) : Z :=
  Z.land (HashFunction key) (mask_of t).

(** The collision slot [i] probe steps after bucket [b]. *)
Definition slot (t : HashMap) (b i : Z) : Z := (b + i) mod bucket_count t.

Definition main_live (t : HashMap) (b : Z) : Prop :=
  chain_length (main_at t b) <> invalid_marker.
Definition coll_live (t : HashMap) (j : Z) : Prop :=
  main_index (coll_at t j) <> invalid_marker.

Definition pow2_capacity (t : HashMap) : Prop :=
  exists k, 0 <= k <= 63 /\ bucket_count t = 2 ^ k.

Record table_inv (t : HashMap) : Prop := {
  inv_capacity : pow2_capacity t;
  inv_main_alloc : is_Some (main_table t);
  inv_coll_alloc : is_Some (collision_table t);
  inv_main_length : length (mains t) = Z.to_nat (bucket_count t);
  inv_coll_length : length (colls t) = Z.to_nat (bucket_count t);
  inv_span : forall b, 0 <= b < bucket_count t -> main_live t b ->
    0 <= chain_length (main_at t b) < bucket_count t;
  inv_owner : forall j, 0 <= j < bucket_count t -> coll_live t j ->
    let b := main_index (coll_at t j) in
    0 <= b < bucket_count t /\ main_live t b /\
    exists i, 0 <= i < chain_length (main_at t b) /\ j = slot t b i;
  inv_tail : forall b, 0 <= b < bucket_count t -> main_live t b ->
    0 < chain_length (main_at t b) ->
    main_index (coll_at t (slot t b (chain_length (main_at t b) - 1))) = b;
  inv_main_hash : forall b, 0 <= b < bucket_count t -> main_live t b ->
    bucket_of t (main_key (main_at t b)) = b;
  inv_coll_hash : forall j, 0 <= j < bucket_count t -> coll_live t j ->
    bucket_of t (coll_key (coll_at t j)) = main_index (coll_at t j);
  inv_keys : NoDup (entries t).*1;
  inv_count : element_count t = Z.of_nat (length (entries t));
  inv_room : element_count t <= bucket_count t
}.

(** The states a table can be in: never allocated, or allocated and
    consistent. *)
Definition table_ok (t : HashMap) : Prop :=
  t = empty_map \/ table_inv t.

(** The lookup of [find_in_collision_chain] told as a plain scan of the
    span: offset [off] matches when its slot is owned by [b] and holds
    [key]. *)
Definition chain_test (t : HashMap) (b : Z) (key : KeyType) (off : Z) : bool :=
  chain_equal t (slot t b off) b key.

Definition chain_found (t : HashMap) (b off : Z) : iterator :=
  mk_iterator b (slot t b off) (collision_value_ptr (slot t b off)).

Definition chain_scan (t : HashMap) (b : Z) (key : KeyType) (from len : Z)
  : iterator :=
  match first_index (Z.to_nat len) from (chain_test t b key) with
  | Some off => chain_found t b off
  | None => mk_iterator b (slot t b (from + len)) nullptr
  end.

(** What [find] hands back on a consistent table. *)
Inductive find_post (t : HashMap) (key : KeyType) (it : iterator) : Prop :=
| found_main :
    main_live t (bucket_of t key) ->
    main_key (main_at t (bucket_of t key)) = key ->
    it = mk_iterator (bucket_of t key) invalid_marker
                     (main_value_ptr (bucket_of t key)) ->
    find_post t key it
| found_coll (j : Z) :
    0 <= j < bucket_count t ->
    main_live t (bucket_of t key) ->
    main_key (main_at t (bucket_of t key)) <> key ->
    main_index (coll_at t j) = bucket_of t key ->
    coll_key (coll_at t j) = key ->
    it = mk_iterator (bucket_of t key) j (collision_value_ptr j) ->
    find_post t key it
| absent_empty :
    ~ main_live t (bucket_of t key) ->
    key ∉ (entries t).*1 ->
    it = mk_iterator (bucket_of t key) invalid_marker nullptr ->
    find_post t key it
| absent_chain :
    main_live t (bucket_of t key) ->
    key ∉ (entries t).*1 ->
    it = mk_iterator (bucket_of t key)
           (slot t (bucket_of t key)
                 (chain_length (main_at t (bucket_of t key)))) nullptr ->
    find_post t key it.

(** What [try_insert] hands back when it returns. *)
Definition insert_post (t : HashMap) (key : KeyType) (args : ValueType)
           (r : insert_result) : Prop :=
  table_inv (fst r)
  /\ bucket_count t <= bucket_count (fst r)
  /\ (exists v, deref (fst r) (fst (snd r)) = Some (key, v)
                /\ (key, v) ∈ entries (fst r))
  /\ if snd (snd r)
     then (key ∉ (entries t).*1) /\ entries (fst r) ≡ₚ (key, args) :: entries t
     else fst r = t /\ key ∈ (entries t).*1.

(** Every slot inside a span is occupied; true of tables that saw
    insertions only. *)
Definition dense (t : HashMap) : Prop :=
  forall b i, 0 <= b < bucket_count t -> main_live t b ->
    0 <= i < chain_length (main_at t b) -> coll_live t (slot t b i).

(** The contract [resize_table] needs from the insertion it replays, and
    the contracts of [try_insert] and of its [resize:] entry at a given
    recursion budget. *)
Definition ins_ok (ins : HashMap -> KeyType -> ValueType -> outcome HashMap)
  : Prop :=
  forall t key args t',
    table_inv t -> key ∉ (entries t).*1 -> ins t key args = Ok t' ->
    table_inv t' /\ entries t' ≡ₚ (key, args) :: entries t
    /\ bucket_count t <= bucket_count t' /\ (dense t -> dense t').

Definition try_insert_ok (fuel : nat) : Prop :=
  forall t key args r,
    table_ok t ->
    try_insert HashFunction sizeof_MainEntry fuel t key args = Ok r ->
    insert_post t key args r /\ (dense t -> dense (fst r)).

Definition resize_and_place_ok (fuel : nat) : Prop :=
  forall nbc t key args r,
    table_inv t -> key ∉ (entries t).*1 -> element_count t < nbc ->
    resize_and_place HashFunction sizeof_MainEntry fuel nbc t key args = Ok r ->
    insert_post t key args r /\ snd (snd r) = true /\ dense (fst r).

(** ** The properties the specification states *)

(** Slot [j] of the collision table carries the owner tag [b]. *)
Definition owned_by (t : HashMap) (b j : Z) : Prop :=
  main_index (coll_at t j) = b.

Global Instance owned_by_dec t b j : Decision (owned_by t b j).
Proof. unfold owned_by. apply Z.eq_dec. Defined.

(** The slots [span] probe steps from [b] visit, in order. *)
Definition probe_visits (t : HashMap) (b : Z) : list Z :=
  slot t b <$> seqZ 0 (chain_length (main_at t b)).

(** ... of which the scan keeps those owned by [b]. *)
Definition span_scan (t : HashMap) (b : Z) : list Z :=
  filter (owned_by t b) (probe_visits t b).

(** All overflow slots owned by [b]. *)
Definition owned_slots (t : HashMap) (b : Z) : list Z :=
  filter (owned_by t b) (seqZ 0 (bucket_count t)).

Definition capacity_ok (t : HashMap) : Prop :=
  bucket_count t = 0 \/ exists k, 0 <= k /\ bucket_count t = 2 ^ k.

Definition span_exact (t : HashMap) : Prop :=
  forall b, 0 <= b < bucket_count t -> main_live t b ->
    forall j, j ∈ span_scan t b <-> j ∈ owned_slots t b.

Definition true_tail (t : HashMap) : Prop :=
  forall b, 0 <= b < bucket_count t -> main_live t b ->
    0 < chain_length (main_at t b) ->
    owned_by t b (slot t b (chain_length (main_at t b) - 1)).

(** The overflow slots a new pair of bucket [b] has to pass: starting at
    [b + span], wrapping, every occupied overflow slot is one step,
    whichever bucket owns it, up to the first empty one. *)
Definition skipped_slots (t : HashMap) (b : Z) : option Z :=
  first_index (Z.to_nat (bucket_count t)) 0
    (fun d => isInvalid (main_index
                (coll_at t (slot t b (chain_length (main_at t b) + d))))).

(** The span of [b] once the new pair sits in that empty slot: the old
    span, plus 1, plus the slots skipped. *)
Definition new_span (t : HashMap) (b : Z) : option Z :=
  (fun skipped => chain_length (main_at t b) + 1 + skipped)
    <$> skipped_slots t b.

(** A span of [span] slots is too long for the capacity. *)
Definition span_too_long (t : HashMap) (span : Z) : Prop :=
  (4 <= span /\ bucket_count t < large_limit sizeof_MainEntry)
  \/ bucket_count t / 2 <= span.

(** When [try_insert] grows the table instead of taking an overflow slot
    for bucket [b]: there are as many pairs as buckets, or the table is
    small and holds more than a quarter as many pairs as buckets, or the
    new span would be too long. *)
Definition growth_rule (t : HashMap) (b : Z) : Prop :=
  bucket_count t < element_count t + 1
  \/ (bucket_count t < small_limit sizeof_MainEntry
      /\ bucket_count t < element_count t * 4)
  \/ exists span, new_span t b = Some span /\ span_too_long t span.

(** The growth rule as the specification words it: nothing about a table
    with as many pairs as buckets, and the clause on small tables only
    applies to a bucket's first collision. *)
Definition stated_growth_rule (t : HashMap) (b : Z) : Prop :=
  (chain_length (main_at t b) = 0
   /\ bucket_count t < small_limit sizeof_MainEntry
   /\ bucket_count t < element_count t * 4)
  \/ exists span, new_span t b = Some span /\ span_too_long t span.

(** The rounds of [for (iter = it; iter != end(); ++iter)]: the pairs that
    [*iter] reads, in order, down to the round at which the cursor
    compares equal to [end()]. *)
Inductive visits (t : HashMap)
  : iterator -> list (KeyType * ValueType) -> Prop :=
| visits_end it :
    value_ptr it = nullptr -> visits t it []
| visits_next it kv it' l :
    value_ptr it <> nullptr ->
    operator_star t it = Some kv ->
    increment t it = Ok it' ->
    visits t it' l ->
    visits t it (kv :: l).

(** What the growth rule of [try_insert] leaves of a span: nothing, or
    fewer than half the buckets, and fewer than 4 slots while the bucket
    count is below the large limit. *)
Definition span_limited (t : HashMap) : Prop :=
  forall b, 0 <= b < bucket_count t -> main_live t b ->
    chain_length (main_at t b) = 0
    \/ (chain_length (main_at t b) < bucket_count t / 2
        /\ (chain_length (main_at t b) < 4
            \/ large_limit sizeof_MainEntry <= bucket_count t)).

(** The cursors a loop from [begin()] holds before it reaches [end()]: on
    a live main slot, or, past the main table, on a live collision slot
    with [bucket_index] set to [invalid_marker]. *)
Definition traversal_cursor (t : HashMap) (it : iterator) : Prop :=
  (exists b, 0 <= b < bucket_count t /\ main_live t b
             /\ it = mk_iterator b invalid_marker (main_value_ptr b))
  \/ (exists j, 0 <= j < bucket_count t /\ coll_live t j
                /\ it = mk_iterator invalid_marker j (collision_value_ptr j)).

(** The cursor [clear] works with: on the first live slot of the main
    table. *)
Definition first_main_cursor (t : HashMap) (it : iterator) : Prop :=
  exists b, 0 <= b < bucket_count t
            /\ it = mk_iterator b invalid_marker (main_value_ptr b)
            /\ main_live t b
            /\ forall b', 0 <= b' < b -> ~ main_live t b'.

(** [find(key)] returns, with a cursor whose [->second] reads [Some v], or
    with a cursor that has nothing to read ([None]). *)
Definition finds (t : HashMap) (key : KeyType) (o : option ValueType)
  : Prop :=
  exists it, find HashFunction t key = Ok it /\ snd <$> deref t it = o.

End hash_map_invariant.

(** ** A finite map as the reference for the container

    [try_insert] keeps the value of a key that is present; [remove] drops
    the key. *)

Section reference_map.
Context {KeyType ValueType : Type} `{!EqDecision KeyType}.

Definition reference_map : Type := KeyType -> option ValueType.

Definition reference_empty : reference_map := fun _ => None.

Definition reference_apply (m : reference_map)
           (op : @operation KeyType ValueType) : reference_map :=
  match op with
  | Insert key value =>
      fun k => if decide (k = key)
               then match m key with
                    | Some v => Some v
                    | None => Some value
                    end
               else m k
  | Erase key => fun k => if decide (k = key) then None else m k
  end.

Definition reference_run (ops : list (@operation KeyType ValueType))
  : reference_map :=
  fold_left reference_apply ops reference_empty.
End reference_map.

(** ** Writing a map out (serialization.h)

    [serialize_map(Context &context, const MapType &map)]:
    [context(map.size()); for (auto &entry : map) context(entry.first,
    entry.second);].  The two calls of the context are parameters; the
    range-for is [begin], [operator!=], [operator*] and [operator++]. *)

Section serialization.
Context {KeyType ValueType : Type}.
Context `{!Inhabited KeyType, !Inhabited ValueType}.
Context `{!SlotLayout KeyType ValueType}.
Context {Context_ : Type}.
Variable write_size : Context_ -> Z -> Context_.
Variable write_pair : Context_ -> KeyType -> ValueType -> Context_.

Fixpoint serialize_loop (rounds : nat) (context : Context_)
         (map : @HashMap KeyType ValueType) (iter : iterator)
  : outcome Context_ :=
  match rounds with
  | O => OutOfFuel
  | S rounds' =>
      if iterator_eq iter (end_ map) then Ok context
      else
        match operator_star map iter with
        | None => Ok context
        | Some entry =>
            let context := write_pair context (fst entry) (snd entry) in
            do iter' <- increment map iter;
            serialize_loop rounds' context map iter'
        end
  end.

Definition serialize_map (context : Context_)
           (map : @HashMap KeyType ValueType) : outcome Context_ :=
  serialize_loop (S (2 * Z.to_nat (bucket_count map)))
                 (write_size context (size map)) map (begin map).
End serialization.

(** An outcome that ends the process. *)
Definition fatal {A} (o : outcome A) : Prop := o = Abort.

End turbokit.

Import turbokit.

(** ** A concrete instance: integer keys and values

    [std::hash] of an integer is the integer itself; [MainEntry] of two
    4-byte integers and a [size_t] takes 16 bytes. *)

Module IntMap.
(** Two 4-byte integers side by side: the key member is what [operator*]
    reads. *)
#[global] Instance int_layout : SlotLayout Z Z :=
  {| sizeof_KeyType := 4; offsetof_value := 4;
     displaced_key := fun _ key => key |}.

Definition hash (k : Z) : Z := wrap k.
(** The degenerate hash function that sends every key to bucket 0. *)
Definition zero_hash (k : Z) : Z := 0.
Definition sizeof_entry : Z := 16.

Definition table : Type := @HashMap Z Z.
Definition new : table := empty_map.

Definition run_ops (ops : list (@operation Z Z)) : outcome table :=
  run hash sizeof_entry 8 ops new.

Definition value_or_new (o : outcome table) : table :=
  match o with
  | Ok t => t
  | _ => new
  end.

(** Buckets 0 and 1 each own one overflow slot. *)
Definition two_chains_ops : list (@operation Z Z) :=
  [Insert 0 10; Insert 16 20; Insert 1 30; Insert 17 40].
Definition two_chains : table :=
  Eval vm_compute in value_or_new (run_ops two_chains_ops).

(** Five pairs in 16 buckets; bucket 0 has span 1. *)
Definition crowded_ops : list (@operation Z Z) :=
  [Insert 0 10; Insert 16 20; Insert 1 30; Insert 2 3; Insert 3 3].
Definition crowded : table :=
  Eval vm_compute in value_or_new (run_ops crowded_ops).

Definition two_pairs_ops : list (@operation Z Z) :=
  [Insert 1 100; Insert 2 200].
Definition two_pairs : table :=
  Eval vm_compute in value_or_new (run_ops two_pairs_ops).

Definition mixed_ops : list (@operation Z Z) :=
  [Insert 0 10; Insert 16 20; Insert 1 30; Insert 17 40; Erase 0;
   Insert 32 5; Insert 2 3; Insert 48 7; Erase 17].
Definition mixed : table :=
  Eval vm_compute in value_or_new (run_ops mixed_ops).

(** With values of 65524 bytes, a [size_t], a 4-byte key and the value
    make a [MainEntry] of 65536 bytes, and 16 buckets are no longer fewer
    than 1024 * 1024 / sizeof(MainEntry).  The tables below write such a
    value as an integer. *)
Definition sizeof_large_entry : Z := 65536.

(** 16 pairs in 16 buckets, each in its main slot. *)
Definition full_ops : list (@operation Z Z) :=
  (fun k => Insert k k) <$> seqZ 0 16.
Definition full : table :=
  Eval vm_compute in
    value_or_new (run hash sizeof_large_entry 8 full_ops new).

Definition growing_pairs : list (Z * Z) :=
  [(0, 10); (16, 20); (1, 30); (2, 3); (3, 3); (32, 5); (4, 4); (5, 5);
   (6, 6); (7, 7); (8, 8); (48, 5)].

(** [mixed] after [reserve(100)]. *)
Definition mixed_reserved : table :=
  Eval vm_compute in
    value_or_new (reserve hash sizeof_entry 8 100 mixed).

(** Operations that continue from [two_chains]. *)
Definition later_ops : list (@operation Z Z) :=
  [Erase 0; Insert 32 5; Insert 5 50].
Definition two_chains_later : table :=
  Eval vm_compute in
    value_or_new (run hash sizeof_entry 8 later_ops two_chains).

(** A context that records what it is handed. *)
Definition recorded_size (context : list Z) (n : Z) : list Z :=
  context ++ [n].
Definition recorded_pair (context : list Z) (k v : Z) : list Z :=
  context ++ [k; v].

Definition ten_pairs : list (Z * Z) :=
  (fun k => (k, k * k)) <$> seqZ 0 10.
Definition ten_keys_shuffled : list Z := [3; 9; 0; 5; 1; 8; 2; 7; 4; 6].
End IntMap.

(** * Proofs *)

(** ** Machine arithmetic *)

Lemma size_modulus_eq : size_modulus = 18446744073709551616.
Proof. reflexivity. Qed.

Lemma invalid_marker_eq : invalid_marker = 18446744073709551615.
Proof. reflexivity. Qed.

Lemma wrap_small z : 0 <= z < size_modulus -> wrap z = z.
Proof. intros Hz. unfold wrap. apply Z.mod_small. exact Hz. Qed.

Lemma wrap_range z : 0 <= wrap z < size_modulus.
Proof. unfold wrap. apply Z.mod_pos_bound. reflexivity. Qed.

Lemma isInvalid_true v : isInvalid v = true <-> v = invalid_marker.
Proof. unfold isInvalid. apply Z.eqb_eq. Qed.

Lemma isInvalid_false v : isInvalid v = false <-> v <> invalid_marker.
Proof. unfold isInvalid. apply Z.eqb_neq. Qed.

Lemma pow2_bounds k : 0 <= k <= 63 -> 1 <= 2 ^ k <= 2 ^ 63.
Proof.
  intros Hk. split.
  - pose proof (Z.pow_pos_nonneg 2 k). lia.
  - apply Z.pow_le_mono_r; lia.
Qed.

Lemma land_pow2_mask x k : 0 <= k -> Z.land x (2 ^ k - 1) = x mod 2 ^ k.
Proof.
  intros Hk. rewrite <- Z.land_ones by exact Hk.
  rewrite Z.ones_equiv. reflexivity.
Qed.

(** A power of two passes the test at the head of [resize_table]. *)
Lemma pow2_check k : 0 <= k <= 63 -> Z.land (2 ^ k) (wrap (2 ^ k - 1)) = 0.
Proof.
  intros Hk. pose proof (pow2_bounds k Hk) as Hb.
  rewrite wrap_small by (rewrite size_modulus_eq; change (2 ^ 63) with 9223372036854775808 in Hb; lia).
  rewrite land_pow2_mask by lia.
  apply Z.mod_same. lia.
Qed.

(** Offsets from a bucket, modulo the capacity. *)
Lemma mod_add_inj c b i j :
  0 < c -> 0 <= i < c -> 0 <= j < c -> (b + i) mod c = (b + j) mod c -> i = j.
Proof.
  intros Hc Hi Hj Heq.
  assert (Hd : (i - j) mod c = 0).
  { replace (i - j) with ((b + i) - (b + j)) by lia.
    rewrite Zminus_mod, Heq, Z.sub_diag. apply Z.mod_0_l. lia. }
  apply Z.mod_divide in Hd; [|lia].
  destruct Hd as [q Hq].
  assert (q = 0) by nia. lia.
Qed.

Lemma mod_add_succ c b i : 0 < c -> ((b + i) mod c + 1) mod c = (b + (i + 1)) mod c.
Proof.
  intros Hc. rewrite Z.add_mod_idemp_l by lia. f_equal. lia.
Qed.

Lemma mod_range c x : 0 < c -> 0 <= x mod c < c.
Proof. intros. apply Z.mod_pos_bound. lia. Qed.

Lemma mod_offset_exists c b j :
  0 < c -> 0 <= b < c -> 0 <= j < c -> exists i, 0 <= i < c /\ j = (b + i) mod c.
Proof.
  intros Hc Hb Hj. exists ((j - b) mod c). split.
  - apply mod_range; lia.
  - rewrite Z.add_mod_idemp_r by lia. replace (b + (j - b)) with j by lia.
    symmetry. apply Z.mod_small. lia.
Qed.

(** [first_index] finds the least index that satisfies the test. *)
Lemma first_index_Some n i p x :
  first_index n i p = Some x ->
  i <= x < i + Z.of_nat n /\ p x = true /\ forall y, i <= y < x -> p y = false.
Proof.
  revert i. induction n as [|n IH]; intros i H; simpl in H; [discriminate|].
  destruct (p i) eqn:Hp.
  - injection H as <-. repeat split; try lia. exact Hp.
  - apply IH in H. destruct H as (Hr & Hx & Hl). repeat split; try lia; [exact Hx|].
    intros y Hy. destruct (decide (y = i)) as [->|]; [exact Hp|]. apply Hl. lia.
Qed.

Lemma first_index_None n i p :
  first_index n i p = None <-> forall y, i <= y < i + Z.of_nat n -> p y = false.
Proof.
  revert i. induction n as [|n IH]; intros i; simpl.
  - split; [intros _ y Hy; lia | reflexivity].
  - destruct (p i) eqn:Hp.
    + split; [discriminate|]. intros H. rewrite H in Hp by lia. discriminate.
    + rewrite IH. split; intros H y Hy.
      * destruct (decide (y = i)) as [->|]; [exact Hp|]. apply H. lia.
      * apply H. lia.
Qed.

Lemma first_index_app n m i p :
  first_index (n + m) i p =
  match first_index n i p with
  | Some x => Some x
  | None => first_index m (i + Z.of_nat n) p
  end.
Proof.
  revert i. induction n as [|n IH]; intros i.
  - simpl. f_equal. lia.
  - cbn [Nat.add first_index]. destruct (p i); [reflexivity|].
    rewrite IH. destruct (first_index n (i + 1) p); [reflexivity|].
    f_equal. lia.
Qed.

Lemma first_index_step n i p :
  0 < n ->
  first_index (Z.to_nat n) i p =
  if p i then Some i else first_index (Z.to_nat (n - 1)) (i + 1) p.
Proof.
  intros Hn. replace (Z.to_nat n) with (S (Z.to_nat (n - 1))) by lia.
  reflexivity.
Qed.

(** ** Arrays and their live pairs *)

Lemma omap_insert_perm {A B} (f : A -> option B) (l : list A) (i : nat) (x y : A) :
  l !! i = Some x ->
  option_list (f x) ++ omap f (<[i:=y]> l) ≡ₚ option_list (f y) ++ omap f l.
Proof.
  intros Hi.
  assert (Hlt : (i < length l)%nat) by (eapply lookup_lt_Some; eassumption).
  rewrite insert_take_drop by exact Hlt.
  rewrite <- (take_drop_middle l i x Hi) at 3.
  rewrite !omap_app. simpl.
  destruct (f x) as [bx|], (f y) as [by'|]; simpl.
  - rewrite <- !Permutation_middle. apply perm_swap.
  - rewrite <- Permutation_middle. reflexivity.
  - rewrite <- Permutation_middle. reflexivity.
  - reflexivity.
Qed.

Lemma omap_replicate_None {A B} (f : A -> option B) (n : nat) (x : A) :
  f x = None -> omap f (replicate n x) = [].
Proof.
  intros Hx. induction n as [|n IH]; [reflexivity|].
  cbn. rewrite Hx. exact IH.
Qed.

Lemma NoDup_fst_unique {A B} (l : list (A * B)) (k : A) (v1 v2 : B) :
  NoDup l.*1 -> (k, v1) ∈ l -> (k, v2) ∈ l -> v1 = v2.
Proof.
  induction l as [|[k' v'] l IH]; intros Hnd H1 H2.
  - apply elem_of_nil in H1. destruct H1.
  - rewrite fmap_cons in Hnd. apply NoDup_cons in Hnd as [Hk Hnd].
    cbn [fst] in Hk.
    apply elem_of_cons in H1 as [E1|H1]; apply elem_of_cons in H2 as [E2|H2].
    + congruence.
    + injection E1 as -> ->. exfalso. apply Hk.
      apply list_elem_of_fmap. exists (k', v2). split; [reflexivity | exact H2].
    + injection E2 as -> ->. exfalso. apply Hk.
      apply list_elem_of_fmap. exists (k', v1). split; [reflexivity | exact H1].
    + exact (IH Hnd H1 H2).
Qed.

Section arrays.
Context {KeyType ValueType : Type}.
Context `{!EqDecision KeyType, !Inhabited KeyType, !Inhabited ValueType}.
Local Abbreviation HashMap := (@HashMap KeyType ValueType).
Implicit Types (t : HashMap) (e : @MainEntry KeyType ValueType)
  (c : @CollisionEntry KeyType ValueType).

Lemma mains_set_main t i e : mains (set_main t i e) = <[Z.to_nat i:=e]> (mains t).
Proof. unfold mains, set_main. simpl. destruct (main_table t); reflexivity. Qed.

Lemma colls_set_coll t i c : colls (set_coll t i c) = <[Z.to_nat i:=c]> (colls t).
Proof. unfold colls, set_coll. simpl. destruct (collision_table t); reflexivity. Qed.

Lemma mains_set_coll t i c : mains (set_coll t i c) = mains t.
Proof. reflexivity. Qed.
Lemma colls_set_main t i e : colls (set_main t i e) = colls t.
Proof. reflexivity. Qed.
Lemma mains_set_count t n : mains (set_count t n) = mains t.
Proof. reflexivity. Qed.
Lemma colls_set_count t n : colls (set_count t n) = colls t.
Proof. reflexivity. Qed.

Lemma main_at_set_main_eq t i e :
  0 <= i < Z.of_nat (length (mains t)) -> main_at (set_main t i e) i = e.
Proof.
  intros Hi. unfold main_at. rewrite mains_set_main.
  apply list_lookup_total_insert_eq. lia.
Qed.

Lemma main_at_set_main_ne t i j e :
  0 <= i -> 0 <= j -> i <> j -> main_at (set_main t i e) j = main_at t j.
Proof.
  intros Hi Hj Hne. unfold main_at. rewrite mains_set_main.
  apply list_lookup_total_insert_ne. lia.
Qed.

Lemma coll_at_set_coll_eq t i c :
  0 <= i < Z.of_nat (length (colls t)) -> coll_at (set_coll t i c) i = c.
Proof.
  intros Hi. unfold coll_at. rewrite colls_set_coll.
  apply list_lookup_total_insert_eq. lia.
Qed.

Lemma coll_at_set_coll_ne t i j c :
  0 <= i -> 0 <= j -> i <> j -> coll_at (set_coll t i c) j = coll_at t j.
Proof.
  intros Hi Hj Hne. unfold coll_at. rewrite colls_set_coll.
  apply list_lookup_total_insert_ne. lia.
Qed.

Lemma main_at_set_coll t i c j : main_at (set_coll t i c) j = main_at t j.
Proof. reflexivity. Qed.
Lemma coll_at_set_main t i e j : coll_at (set_main t i e) j = coll_at t j.
Proof. reflexivity. Qed.
Lemma main_at_set_count t n j : main_at (set_count t n) j = main_at t j.
Proof. reflexivity. Qed.
Lemma coll_at_set_count t n j : coll_at (set_count t n) j = coll_at t j.
Proof. reflexivity. Qed.

Lemma main_lookup t i :
  0 <= i < Z.of_nat (length (mains t)) ->
  mains t !! Z.to_nat i = Some (main_at t i).
Proof. intros Hi. apply list_lookup_lookup_total_lt. lia. Qed.

Lemma coll_lookup t i :
  0 <= i < Z.of_nat (length (colls t)) ->
  colls t !! Z.to_nat i = Some (coll_at t i).
Proof. intros Hi. apply list_lookup_lookup_total_lt. lia. Qed.

Lemma live_main_Some e kv :
  live_main e = Some kv <->
  chain_length e <> invalid_marker /\ kv = (main_key e, main_value e).
Proof.
  unfold live_main. destruct (isInvalid (chain_length e)) eqn:H.
  - apply isInvalid_true in H. split; [discriminate | tauto].
  - apply isInvalid_false in H. split.
    + intros [= <-]. tauto.
    + intros [_ ->]. reflexivity.
Qed.

Lemma live_coll_Some c kv :
  live_coll c = Some kv <->
  main_index c <> invalid_marker /\ kv = (coll_key c, coll_value c).
Proof.
  unfold live_coll. destruct (isInvalid (main_index c)) eqn:H.
  - apply isInvalid_true in H. split; [discriminate | tauto].
  - apply isInvalid_false in H. split.
    + intros [= <-]. tauto.
    + intros [_ ->]. reflexivity.
Qed.

Lemma live_main_None e : live_main e = None <-> chain_length e = invalid_marker.
Proof.
  unfold live_main. destruct (isInvalid (chain_length e)) eqn:H.
  - apply isInvalid_true in H. tauto.
  - apply isInvalid_false in H. split; [discriminate | tauto].
Qed.

Lemma live_coll_None c : live_coll c = None <-> main_index c = invalid_marker.
Proof.
  unfold live_coll. destruct (isInvalid (main_index c)) eqn:H.
  - apply isInvalid_true in H. tauto.
  - apply isInvalid_false in H. split; [discriminate | tauto].
Qed.

(** The live pairs are exactly what the live slots hold. *)
Lemma elem_of_entries t kv :
  kv ∈ entries t <->
  (exists b, 0 <= b < Z.of_nat (length (mains t)) /\ main_live t b /\
             kv = (main_key (main_at t b), main_value (main_at t b))) \/
  (exists j, 0 <= j < Z.of_nat (length (colls t)) /\ coll_live t j /\
             kv = (coll_key (coll_at t j), coll_value (coll_at t j))).
Proof.
  unfold entries. rewrite elem_of_app, !list_elem_of_omap.
  split.
  - intros [(e & He & Hl)|(c & Hc & Hl)].
    + left. apply list_elem_of_lookup in He as [i Hi].
      pose proof (lookup_lt_Some _ _ _ Hi) as Hlt.
      exists (Z.of_nat i). apply live_main_Some in Hl as [Hv ->].
      unfold main_live, main_at. rewrite Nat2Z.id.
      rewrite (list_lookup_total_correct _ _ _ Hi). split; [lia|]. split; [exact Hv | reflexivity].
    + right. apply list_elem_of_lookup in Hc as [i Hi].
      pose proof (lookup_lt_Some _ _ _ Hi) as Hlt.
      exists (Z.of_nat i). apply live_coll_Some in Hl as [Hv ->].
      unfold coll_live, coll_at. rewrite Nat2Z.id.
      rewrite (list_lookup_total_correct _ _ _ Hi). split; [lia|]. split; [exact Hv | reflexivity].
  - intros [(b & Hb & Hl & ->)|(j & Hj & Hl & ->)].
    + left. exists (main_at t b). split.
      * eapply list_elem_of_lookup_2. apply main_lookup. exact Hb.
      * apply live_main_Some. split; [exact Hl | reflexivity].
    + right. exists (coll_at t j). split.
      * eapply list_elem_of_lookup_2. apply coll_lookup. exact Hj.
      * apply live_coll_Some. split; [exact Hl | reflexivity].
Qed.

(** Effect of one slot update on the live pairs. *)
Lemma entries_set_main t i e :
  0 <= i < Z.of_nat (length (mains t)) ->
  option_list (live_main (main_at t i)) ++ entries (set_main t i e)
  ≡ₚ option_list (live_main e) ++ entries t.
Proof.
  intros Hi. unfold entries. rewrite mains_set_main, colls_set_main.
  rewrite !app_assoc. apply Permutation_app_tail.
  apply omap_insert_perm. apply main_lookup. exact Hi.
Qed.

Lemma entries_set_coll t i c :
  0 <= i < Z.of_nat (length (colls t)) ->
  option_list (live_coll (coll_at t i)) ++ entries (set_coll t i c)
  ≡ₚ option_list (live_coll c) ++ entries t.
Proof.
  intros Hi. unfold entries. rewrite mains_set_coll, colls_set_coll.
  pose proof (omap_insert_perm live_coll (colls t) (Z.to_nat i) (coll_at t i) c
                (coll_lookup t i Hi)) as Hp.
  rewrite !(Permutation_app_comm (option_list _)).
  rewrite <- !app_assoc. apply Permutation_app_head.
  rewrite !(Permutation_app_comm _ (option_list _)). exact Hp.
Qed.

Lemma entries_set_count t n : entries (set_count t n) = entries t.
Proof. reflexivity. Qed.

Lemma entries_fresh n : entries (@fresh_table KeyType ValueType _ _ n) = [].
Proof.
  unfold entries, fresh_table, mains, colls. simpl.
  rewrite !omap_replicate_None by reflexivity. reflexivity.
Qed.
End arrays.

(** ** Lookup *)

Section lookup.
Context {KeyType ValueType : Type}.
Context `{!EqDecision KeyType, !Inhabited KeyType, !Inhabited ValueType}.
Variable HashFunction : KeyType -> Z.
Local Abbreviation HashMap := (@HashMap KeyType ValueType).
Local Abbreviation table_inv := (table_inv HashFunction).
Local Abbreviation bucket_of := (bucket_of HashFunction).
Local Abbreviation find := (find HashFunction).
Implicit Types (t : HashMap) (key : KeyType).

Lemma cap_bounds t :
  pow2_capacity t -> 1 <= bucket_count t <= 9223372036854775808.
Proof.
  intros (k & Hk & ->).
  change 9223372036854775808 with (2 ^ 63). apply pow2_bounds. exact Hk.
Qed.

Lemma cap_mask t : pow2_capacity t -> mask_of t = bucket_count t - 1.
Proof.
  intros Hcap. pose proof (cap_bounds t Hcap).
  unfold mask_of. apply wrap_small. rewrite size_modulus_eq. lia.
Qed.

Lemma cap_land t x :
  pow2_capacity t -> Z.land x (mask_of t) = x mod bucket_count t.
Proof.
  intros Hcap. rewrite (cap_mask t Hcap).
  destruct Hcap as (k & Hk & ->).
  apply land_pow2_mask. lia.
Qed.

Lemma cap_slot_range t b i : pow2_capacity t -> 0 <= slot t b i < bucket_count t.
Proof.
  intros Hcap. apply mod_range. pose proof (cap_bounds t Hcap). lia.
Qed.

Lemma cap_slot_land t b i :
  pow2_capacity t -> 0 <= b < bucket_count t -> 0 <= i <= bucket_count t ->
  Z.land (wrap (b + i)) (mask_of t) = slot t b i.
Proof.
  intros Hcap Hb Hi. pose proof (cap_bounds t Hcap).
  rewrite wrap_small by (rewrite size_modulus_eq; lia).
  apply cap_land. exact Hcap.
Qed.

Lemma inv_cap_bounds t :
  table_inv t -> 1 <= bucket_count t <= 9223372036854775808.
Proof. intros Hinv. apply cap_bounds, Hinv. Qed.

Lemma inv_mask t : table_inv t -> mask_of t = bucket_count t - 1.
Proof. intros Hinv. apply cap_mask, Hinv. Qed.

Lemma inv_land t x : table_inv t -> Z.land x (mask_of t) = x mod bucket_count t.
Proof. intros Hinv. apply cap_land, Hinv. Qed.

Lemma inv_main_len t : table_inv t -> Z.of_nat (length (mains t)) = bucket_count t.
Proof.
  intros Hinv. pose proof (inv_cap_bounds t Hinv).
  rewrite (inv_main_length _ _ Hinv). lia.
Qed.

Lemma inv_coll_len t : table_inv t -> Z.of_nat (length (colls t)) = bucket_count t.
Proof.
  intros Hinv. pose proof (inv_cap_bounds t Hinv).
  rewrite (inv_coll_length _ _ Hinv). lia.
Qed.

Lemma bucket_of_range t key :
  table_inv t -> 0 <= bucket_of t key < bucket_count t.
Proof.
  intros Hinv. unfold turbokit.bucket_of. rewrite (inv_land t _ Hinv).
  apply mod_range. pose proof (inv_cap_bounds t Hinv). lia.
Qed.

Lemma slot_range t b i : table_inv t -> 0 <= slot t b i < bucket_count t.
Proof. intros Hinv. apply cap_slot_range, Hinv. Qed.

Lemma slot_cases t b i :
  0 <= b < bucket_count t -> 0 <= i < bucket_count t ->
  (b + i < bucket_count t /\ slot t b i = b + i) \/
  (bucket_count t <= b + i /\ slot t b i = b + i - bucket_count t).
Proof.
  intros Hb Hi. unfold slot.
  destruct (Z_lt_ge_dec (b + i) (bucket_count t)) as [Hlt|Hge].
  - left. split; [exact Hlt|]. apply Z.mod_small. lia.
  - right. split; [lia|].
    replace (b + i) with ((b + i - bucket_count t) + 1 * bucket_count t) at 1 by lia.
    rewrite Z.mod_add by lia. apply Z.mod_small. lia.
Qed.

Lemma slot_0 t b : 0 <= b < bucket_count t -> slot t b 0 = b.
Proof. intros Hb. unfold slot. rewrite Z.add_0_r. apply Z.mod_small. exact Hb. Qed.

Lemma slot_inj t b i j :
  0 <= i < bucket_count t -> 0 <= j < bucket_count t ->
  slot t b i = slot t b j -> i = j.
Proof. intros Hi Hj. apply mod_add_inj; lia. Qed.

Lemma slot_land_eq t b i :
  table_inv t -> 0 <= b < bucket_count t -> 0 <= i <= bucket_count t ->
  Z.land (wrap (b + i)) (mask_of t) = slot t b i.
Proof. intros Hinv. apply cap_slot_land, Hinv. Qed.

Lemma slot_succ t b i :
  pow2_capacity t ->
  Z.land (wrap (slot t b i + 1)) (mask_of t) = slot t b (i + 1).
Proof.
  intros Hcap. pose proof (cap_bounds t Hcap) as Hc.
  pose proof (cap_slot_range t b i Hcap) as Hr.
  rewrite wrap_small by (rewrite size_modulus_eq; lia).
  rewrite (cap_land t _ Hcap). unfold slot. apply mod_add_succ. lia.
Qed.

(** *** The unrolled scan equals the plain scan *)

Lemma scan_steps_spec t b key (g : nat) :
  table_inv t -> 0 <= b < bucket_count t ->
  forall cur off clen,
    0 <= off -> Z.of_nat g <= clen ->
    off + clen <= bucket_count t ->
    (forall i, 0 <= i < Z.of_nat g -> slot t b (off + i) = cur + i) ->
    scan_steps g t b key (cur, b + off, clen) =
    match first_index g off (chain_test t b key) with
    | Some o => inl (chain_found t b o)
    | None => inr (cur + Z.of_nat g, b + off + Z.of_nat g, clen - Z.of_nat g)
    end.
Proof.
  intros Hinv Hb. pose proof (inv_cap_bounds t Hinv) as Hc.
  induction g as [|g IH]; intros cur off clen Hoff Hg Hlen Hslot.
  - simpl. do 2 f_equal; [f_equal|]; lia.
  - cbn [scan_steps first_index]. unfold scan_step.
    assert (Hcur : slot t b off = cur).
    { pose proof (Hslot 0 ltac:(lia)) as H0. rewrite !Z.add_0_r in H0. exact H0. }
    assert (Htest : chain_test t b key off = chain_equal t cur b key).
    { unfold chain_test. rewrite Hcur. reflexivity. }
    rewrite Htest.
    destruct (chain_equal t cur b key) eqn:Heq.
    + unfold chain_found. rewrite (inv_land t _ Hinv).
      change ((b + off) mod bucket_count t) with (slot t b off).
      rewrite Hcur. reflexivity.
    + rewrite !wrap_small by (rewrite size_modulus_eq; lia).
      replace (b + off + 1) with (b + (off + 1)) by lia.
      rewrite IH; try lia.
      * destruct (first_index g (off + 1) (chain_test t b key)); [reflexivity|].
        do 2 f_equal; [f_equal|]; lia.
      * intros i Hi. replace (off + 1 + i) with (off + (i + 1)) by lia.
        rewrite Hslot by lia. lia.
Qed.

Lemma switch_groups_spec clen :
  1 <= clen -> Z.of_nat (switch_groups clen) = Z.min clen 4.
Proof.
  intros H. unfold switch_groups.
  destruct (clen =? 3) eqn:H3; [apply Z.eqb_eq in H3; subst; reflexivity|].
  destruct (clen =? 2) eqn:H2; [apply Z.eqb_eq in H2; subst; reflexivity|].
  destruct (clen =? 1) eqn:H1; [apply Z.eqb_eq in H1; subst; reflexivity|].
  apply Z.eqb_neq in H1, H2, H3. lia.
Qed.

Lemma chain_loop_spec t b key cl :
  table_inv t -> 0 <= b < bucket_count t -> 0 < cl < bucket_count t ->
  forall fuel off,
    0 <= off < cl -> (Z.to_nat (cl - off) <= fuel)%nat ->
    chain_loop fuel t b key (slot t b cl) (slot t b off, b + off, cl - off) =
    Ok (chain_scan t b key off (cl - off)).
Proof.
  intros Hinv Hb Hcl. pose proof (inv_cap_bounds t Hinv) as Hc.
  induction fuel as [fuel IH] using lt_wf_ind. intros off Hoff Hfuel.
  destruct fuel as [|fuel]; [lia|].
  cbn [chain_loop].
  assert (Hend : slot t b (off + (cl - off)) = slot t b cl) by (f_equal; lia).
  destruct (Z.gtb_spec (slot t b cl) (slot t b off)) as [Hgt|Hle].
  - (* the rest of the span lies before the end of the array *)
    assert (Hnowrap : forall i, 0 <= i <= cl - off ->
                                slot t b (off + i) = slot t b off + i).
    { intros i Hi.
      destruct (slot_cases t b off) as [[? ?]|[? ?]]; try lia;
      destruct (slot_cases t b cl) as [[? ?]|[? ?]]; try lia;
      destruct (slot_cases t b (off + i)) as [[? ?]|[? ?]]; lia. }
    pose proof (switch_groups_spec (cl - off) ltac:(lia)) as Hg.
    rewrite (scan_steps_spec t b key (switch_groups (cl - off)) Hinv Hb
               (slot t b off) off (cl - off)); try lia.
    2:{ intros i Hi. apply Hnowrap. lia. }
    unfold chain_scan.
    assert (Hsplit :
      first_index (Z.to_nat (cl - off)) off (chain_test t b key) =
      match first_index (switch_groups (cl - off)) off (chain_test t b key) with
      | Some x => Some x
      | None =>
          first_index
            (Z.to_nat (cl - off - Z.of_nat (switch_groups (cl - off))))
            (off + Z.of_nat (switch_groups (cl - off))) (chain_test t b key)
      end).
    { rewrite <- first_index_app. f_equal. lia. }
    rewrite Hsplit. clear Hsplit.
    destruct (first_index (switch_groups (cl - off)) off (chain_test t b key))
      as [o|] eqn:Hfi; [reflexivity|].
    rewrite Hend.
    destruct (Z.eqb_spec (slot t b off + Z.of_nat (switch_groups (cl - off)))
                         (slot t b cl)) as [He|Hne].
    + assert (Hz : cl - off - Z.of_nat (switch_groups (cl - off)) = 0).
      { pose proof (Hnowrap (cl - off) ltac:(lia)) as Hx.
        rewrite Hend in Hx. lia. }
      rewrite Hz. reflexivity.
    + assert (Hg4 : Z.of_nat (switch_groups (cl - off)) = 4 /\ 5 <= cl - off).
      { pose proof (Hnowrap (cl - off) ltac:(lia)) as Hx.
        rewrite Hend in Hx. lia. }
      destruct Hg4 as [Hg4 Hrem]. rewrite Hg4.
      unfold scan_step.
      assert (Htest : chain_equal t (slot t b off + 4) b key
                      = chain_test t b key (off + 4)).
      { unfold chain_test. rewrite Hnowrap by lia. reflexivity. }
      rewrite Htest.
      rewrite (first_index_step (cl - off - 4)) by lia.
      destruct (chain_test t b key (off + 4)) eqn:Ht.
      * unfold chain_found. rewrite (inv_land t _ Hinv).
        replace ((b + off + 4) mod bucket_count t) with (slot t b (off + 4))
          by (unfold slot; f_equal; lia).
        rewrite Hnowrap by lia. reflexivity.
      * rewrite !wrap_small by (rewrite size_modulus_eq; lia).
        pose proof (Hnowrap (cl - off) ltac:(lia)) as Hx. rewrite Hend in Hx.
        pose proof (slot_range t b cl Hinv) as Hr.
        destruct (Z.eqb_spec (slot t b off + 4 + 1) (bucket_count t)) as [?|_]; [lia|].
        destruct (Z.eqb_spec (slot t b off + 4 + 1) (slot t b cl)) as [He5|Hne5].
        -- replace (cl - off - 4 - 1) with 0 by lia. reflexivity.
        -- replace (slot t b off + 4 + 1) with (slot t b (off + 5))
             by (rewrite Hnowrap; lia).
           replace (b + off + 4 + 1) with (b + (off + 5)) by lia.
           replace (cl - off - 4 - 1) with (cl - (off + 5)) by lia.
           rewrite (IH fuel) by lia.
           unfold chain_scan.
           replace (off + 5 + (cl - (off + 5))) with cl by lia.
           replace (off + 4 + 1) with (off + 5) by lia. reflexivity.
  - (* the span runs over the end of the array: one slot, then wrap *)
    unfold scan_step.
    change (chain_equal t (slot t b off) b key) with (chain_test t b key off).
    unfold chain_scan. rewrite (first_index_step (cl - off)) by lia.
    destruct (chain_test t b key off) eqn:Ht.
    + unfold chain_found. rewrite (inv_land t _ Hinv). reflexivity.
    + rewrite !wrap_small by (rewrite size_modulus_eq; lia).
      assert (Hnext : (if slot t b off + 1 =? bucket_count t then 0
                       else slot t b off + 1) = slot t b (off + 1)).
      { destruct (Z.eqb_spec (slot t b off + 1) (bucket_count t));
        destruct (slot_cases t b off) as [[? ?]|[? ?]]; try lia;
        destruct (slot_cases t b (off + 1)) as [[? ?]|[? ?]]; lia. }
      rewrite Hnext, Hend.
      destruct (Z.eqb_spec (slot t b (off + 1)) (slot t b cl)) as [He|Hne].
      * apply slot_inj in He; [|lia|lia].
        replace (cl - off - 1) with 0 by lia. reflexivity.
      * assert (off + 1 < cl).
        { destruct (decide (off + 1 = cl)) as [E|]; [|lia].
          rewrite E in Hne. congruence. }
        replace (b + off + 1) with (b + (off + 1)) by lia.
        replace (cl - off - 1) with (cl - (off + 1)) by lia.
        rewrite (IH fuel) by lia.
        unfold chain_scan.
        replace (off + 1 + (cl - (off + 1))) with cl by lia. reflexivity.
Qed.

Lemma key_in_entries t key :
  table_inv t ->
  key ∈ (entries t).*1 ->
  (main_live t (bucket_of t key)
   /\ main_key (main_at t (bucket_of t key)) = key) \/
  (exists i, 0 <= i < chain_length (main_at t (bucket_of t key))
             /\ main_live t (bucket_of t key)
             /\ coll_live t (slot t (bucket_of t key) i)
             /\ chain_test t (bucket_of t key) key i = true).
Proof.
  intros Hinv Hin.
  apply list_elem_of_fmap in Hin as ([k v] & Hk & Hin). simpl in Hk. subst k.
  apply elem_of_entries in Hin as [(b & Hb & Hl & E)|(j & Hj & Hl & E)];
    injection E as E1 E2.
  - rewrite (inv_main_len t Hinv) in Hb.
    pose proof (inv_main_hash _ _ Hinv b Hb Hl) as Hh. rewrite <- E1 in Hh.
    left. rewrite Hh. split; [exact Hl | congruence].
  - rewrite (inv_coll_len t Hinv) in Hj.
    pose proof (inv_coll_hash _ _ Hinv j Hj Hl) as Hh. rewrite <- E1 in Hh.
    destruct (inv_owner _ _ Hinv j Hj Hl) as (Hb & Hlb & i & Hi & Hji).
    cbv zeta in *. rewrite <- Hh in *.
    right. exists i. split; [exact Hi|]. split; [exact Hlb|].
    rewrite <- Hji. split; [exact Hl|].
    unfold chain_test, chain_equal. rewrite <- Hji.
    rewrite <- Hh, Z.eqb_refl. simpl. apply bool_decide_eq_true. congruence.
Qed.

Lemma find_ok t key :
  table_inv t -> exists it, find t key = Ok it /\ find_post HashFunction t key it.
Proof.
  intros Hinv. pose proof (inv_cap_bounds t Hinv) as Hc.
  pose proof (bucket_of_range t key Hinv) as Hb.
  unfold turbokit.find. destruct (inv_main_alloc _ _ Hinv) as [ml ->].
  fold (bucket_of t key).
  destruct (isInvalid (chain_length (main_at t (bucket_of t key)))) eqn:Hv.
  { apply isInvalid_true in Hv. eexists. split; [reflexivity|].
    apply absent_empty; [unfold main_live; tauto| |reflexivity].
    intros Hin. apply (key_in_entries t key Hinv) in Hin.
    unfold main_live in Hin. destruct Hin as [[? _]|(i & _ & ? & _)]; tauto. }
  apply isInvalid_false in Hv.
  destruct (bool_decide (main_key (main_at t (bucket_of t key)) = key)) eqn:Hk.
  { apply bool_decide_eq_true in Hk. eexists. split; [reflexivity|].
    apply found_main; [exact Hv | exact Hk | reflexivity]. }
  apply bool_decide_eq_false in Hk.
  pose proof (inv_span _ _ Hinv _ Hb Hv) as Hspan.
  destruct (Z.eqb_spec (chain_length (main_at t (bucket_of t key))) 0) as [H0|H0].
  { eexists. split; [reflexivity|].
    apply absent_chain; [exact Hv | |].
    - intros Hin. apply (key_in_entries t key Hinv) in Hin.
      destruct Hin as [[_ ?]|(i & ? & _)]; [tauto | lia].
    - rewrite H0, slot_0 by exact Hb. reflexivity. }
  unfold find_in_collision_chain.
  rewrite slot_land_eq by (try exact Hinv; lia).
  assert (Hloop := fun H1 H2 H3 => chain_loop_spec t (bucket_of t key) key
                (chain_length (main_at t (bucket_of t key))) Hinv Hb
                H1 (S (Z.to_nat (bucket_count t))) 0 H2 H3).
  specialize (Hloop ltac:(lia) ltac:(lia) ltac:(lia)).
  rewrite slot_0, Z.add_0_r, Z.sub_0_r in Hloop by exact Hb.
  rewrite Hloop. eexists. split; [reflexivity|].
  unfold chain_scan.
  destruct (first_index _ 0 _) as [off|] eqn:Hfi.
  - apply first_index_Some in Hfi as (Hoff & Ht & _).
    unfold chain_test, chain_equal in Ht.
    apply andb_true_iff in Ht as [Ho Hkey].
    apply Z.eqb_eq in Ho. apply bool_decide_eq_true in Hkey.
    apply (found_coll _ t key _ (slot t (bucket_of t key) off));
      [apply slot_range; exact Hinv | exact Hv | exact Hk | exact Ho
      | exact Hkey | reflexivity].
  - rewrite first_index_None in Hfi.
    apply absent_chain; [exact Hv | | rewrite Z.add_0_l; reflexivity].
    intros Hin. apply (key_in_entries t key Hinv) in Hin.
    destruct Hin as [[_ ?]|(i & Hi & _ & _ & Ht)]; [tauto|].
    rewrite Hfi in Ht by lia. discriminate.
Qed.
End lookup.

(** ** Placing a new pair *)

Section placement.
Context {KeyType ValueType : Type}.
Context `{!EqDecision KeyType, !Inhabited KeyType, !Inhabited ValueType}.
Variable HashFunction : KeyType -> Z.
Variable sizeof_MainEntry : Z.
Local Abbreviation HashMap := (@HashMap KeyType ValueType).
Local Abbreviation choose_placement := (choose_placement sizeof_MainEntry).
Local Abbreviation place := (place sizeof_MainEntry).
Local Abbreviation table_inv := (table_inv HashFunction).
Local Abbreviation bucket_of := (bucket_of HashFunction).
Implicit Types (t : HashMap) (key : KeyType) (args : ValueType).

Lemma inv_count_nonneg t : table_inv t -> 0 <= element_count t.
Proof. intros Hinv. rewrite (inv_count _ _ Hinv). lia. Qed.

Lemma keys_perm_cons t t' key args :
  entries t' ≡ₚ (key, args) :: entries t ->
  key ∉ (entries t).*1 -> NoDup (entries t).*1 ->
  NoDup (entries t').*1
  /\ Z.of_nat (length (entries t')) = Z.of_nat (length (entries t)) + 1.
Proof.
  intros Hp Hk Hnd. split.
  - rewrite Hp. simpl. apply NoDup_cons. split; assumption.
  - rewrite Hp. simpl. lia.
Qed.

(** Writing the pair into the empty home slot. *)
Lemma place_main_inv t key args :
  table_inv t ->
  ~ main_live t (bucket_of t key) ->
  key ∉ (entries t).*1 ->
  element_count t + 1 <= bucket_count t ->
  let t' := set_main (set_count t (wrap (element_count t + 1)))
                     (bucket_of t key) (mk_main key args 0) in
  table_inv t' /\ entries t' ≡ₚ (key, args) :: entries t
  /\ (dense t -> dense t').
Proof.
  intros Hinv Hdead Hkey Hroom t'.
  pose proof (inv_cap_bounds _ t Hinv) as Hc.
  pose proof (bucket_of_range _ t key Hinv) as Hb.
  pose proof (inv_main_len _ t Hinv) as Hlen.
  pose proof (inv_count_nonneg t Hinv) as Hcnt.
  set (b := bucket_of t key) in *.
  assert (Hmb : main_at t' b = mk_main key args 0).
  { apply main_at_set_main_eq. rewrite mains_set_count. lia. }
  assert (Hmx : forall x, 0 <= x -> x <> b -> main_at t' x = main_at t x).
  { intros x Hx Hne. unfold t'. rewrite main_at_set_main_ne by lia. reflexivity. }
  assert (Hperm : entries t' ≡ₚ (key, args) :: entries t).
  { pose proof (entries_set_main (set_count t (wrap (element_count t + 1))) b
                  (mk_main key args 0)) as Hp.
    rewrite mains_set_count, main_at_set_count, entries_set_count in Hp.
    specialize (Hp ltac:(lia)).
    assert (Hn : live_main (main_at t b) = None).
    { apply live_main_None. unfold main_live in Hdead.
      destruct (decide (chain_length (main_at t b) = invalid_marker)); tauto. }
    rewrite Hn in Hp. exact Hp. }
  destruct (keys_perm_cons t t' key args Hperm Hkey (inv_keys _ _ Hinv)) as [Hnd Hl].
  split; [|split; [exact Hperm|]].
  - constructor.
    + exact (inv_capacity _ _ Hinv).
    + unfold t'. simpl. apply fmap_is_Some. exact (inv_main_alloc _ _ Hinv).
    + exact (inv_coll_alloc _ _ Hinv).
    + unfold t'. rewrite mains_set_main, length_insert. exact (inv_main_length _ _ Hinv).
    + exact (inv_coll_length _ _ Hinv).
    + intros x Hx Hl'. change (bucket_count t') with (bucket_count t) in *.
      unfold main_live in Hl'.
      destruct (decide (x = b)) as [->|Hne].
      * rewrite Hmb. simpl. lia.
      * rewrite Hmx in * by lia. apply (inv_span _ _ Hinv); assumption.
    + intros j Hj Hl'. change (bucket_count t') with (bucket_count t) in *.
      change (coll_at t' j) with (coll_at t j).
      destruct (inv_owner _ _ Hinv j Hj Hl') as (Ho & Hlo & i & Hi & Hji).
      cbv zeta in *.
      assert (Hne : main_index (coll_at t j) <> b) by (intros E; rewrite E in Hlo; tauto).
      unfold main_live. rewrite Hmx by lia.
      split; [exact Ho|]. split; [exact Hlo|]. exists i. split; assumption.
    + intros x Hx Hl' Hpos. change (bucket_count t') with (bucket_count t) in *.
      unfold main_live in Hl'.
      destruct (decide (x = b)) as [->|Hne].
      * rewrite Hmb in Hpos. simpl in Hpos. lia.
      * rewrite Hmx in * by lia.
        exact (inv_tail _ _ Hinv x Hx Hl' Hpos).
    + intros x Hx Hl'. change (bucket_count t') with (bucket_count t) in *.
      unfold main_live in Hl'.
      destruct (decide (x = b)) as [->|Hne].
      * rewrite Hmb. reflexivity.
      * rewrite Hmx in * by lia. exact (inv_main_hash _ _ Hinv x Hx Hl').
    + intros j Hj Hl'. exact (inv_coll_hash _ _ Hinv j Hj Hl').
    + exact Hnd.
    + rewrite Hl. unfold t'. simpl. rewrite wrap_small by (rewrite size_modulus_eq; lia).
      rewrite (inv_count _ _ Hinv). reflexivity.
    + unfold t'. simpl. rewrite wrap_small by (rewrite size_modulus_eq; lia). exact Hroom.
  - intros Hd x i Hx Hl' Hi. change (bucket_count t') with (bucket_count t) in *.
    unfold main_live in Hl'.
    destruct (decide (x = b)) as [->|Hne].
    + rewrite Hmb in Hi. simpl in Hi. lia.
    + rewrite Hmx in * by lia. exact (Hd x i Hx Hl' Hi).
Qed.

(** The probe for a free collision slot. *)
Lemma probe_spec t b :
  pow2_capacity t ->
  forall n off idx ns,
    0 <= off -> off + Z.of_nat n < size_modulus ->
    probe n t (slot t b off) (off + 1) = Some (idx, ns) ->
    off + 1 <= ns <= off + Z.of_nat n /\ idx = slot t b (ns - 1)
    /\ ~ coll_live t idx
    /\ forall i, off <= i < ns - 1 -> coll_live t (slot t b i).
Proof.
  intros Hcap. induction n as [|n IH]; intros off idx ns Hoff Hbound Hp;
    [discriminate|].
  cbn [probe] in Hp.
  destruct (isInvalid (main_index (coll_at t (slot t b off)))) eqn:Hv.
  - injection Hp as <- <-. apply isInvalid_true in Hv.
    replace (off + 1 - 1) with off by lia.
    split; [lia|]. split; [reflexivity|]. split.
    + unfold coll_live. tauto.
    + intros i Hi. lia.
  - apply isInvalid_false in Hv.
    rewrite (slot_succ t b off Hcap) in Hp.
    assert (Hn : (n <> 0)%nat) by (intros ->; discriminate).
    rewrite wrap_small in Hp by lia.
    apply IH in Hp; [|lia|lia].
    destruct Hp as (Hns & Hidx & Hdead & Hlive).
    split; [lia|]. split; [exact Hidx|]. split; [exact Hdead|].
    intros i Hi. destruct (decide (i = off)) as [->|Hne]; [exact Hv|].
    apply Hlive. lia.
Qed.

Lemma probe_None t b :
  pow2_capacity t ->
  forall n off,
    probe n t (slot t b off) (off + 1) = None ->
    forall i, off <= i < off + Z.of_nat n -> coll_live t (slot t b i).
Proof.
  intros Hcap. induction n as [|n IH]; intros off Hp i Hi; [lia|].
  cbn [probe] in Hp.
  destruct (isInvalid (main_index (coll_at t (slot t b off)))) eqn:Hv;
    [discriminate|].
  apply isInvalid_false in Hv.
  rewrite (slot_succ t b off Hcap) in Hp.
  destruct (decide (i = off)) as [->|Hne]; [exact Hv|].
  assert (Hp' : probe n t (slot t b (off + 1)) (off + 1 + 1) = None).
  { revert Hp. clear. generalize (slot t b (off + 1)).
    generalize (wrap (off + 1 + 1)). generalize (off + 1 + 1).
    intros c1 c2 s. revert c1 c2 s.
    induction n as [|n IH]; intros c1 c2 s; [reflexivity|].
    cbn [probe]. destruct (isInvalid _); [discriminate|]. apply IH. }
  apply (IH _ Hp'). lia.
Qed.

(** Writing the pair into a free collision slot found by the probe. *)
Lemma place_coll_inv t key args idx ns :
  table_inv t ->
  main_live t (bucket_of t key) ->
  key ∉ (entries t).*1 ->
  element_count t + 1 <= bucket_count t ->
  chain_length (main_at t (bucket_of t key)) + 1 <= ns < bucket_count t ->
  idx = slot t (bucket_of t key) (ns - 1) ->
  ~ coll_live t idx ->
  let b := bucket_of t key in
  let t' := set_coll
              (set_main (set_count t (wrap (element_count t + 1))) b
                        (set_chain_length (main_at t b) ns))
              idx (mk_coll key args b) in
  table_inv t' /\ entries t' ≡ₚ (key, args) :: entries t
  /\ ((forall i, chain_length (main_at t b) <= i < ns - 1 ->
                 coll_live t (slot t b i)) -> dense t -> dense t').
Proof.
  intros Hinv Hlive Hkey Hroom Hns Hidx Hdead b t'.
  pose proof (inv_cap_bounds _ t Hinv) as Hc.
  pose proof (bucket_of_range _ t key Hinv) as Hb.
  pose proof (inv_main_len _ t Hinv) as Hlen.
  pose proof (inv_coll_len _ t Hinv) as Hclen.
  pose proof (inv_count_nonneg t Hinv) as Hcnt.
  pose proof (inv_span _ _ Hinv _ Hb Hlive) as Hspan.
  fold b in Hlive, Hb, Hns, Hidx, Hspan.
  assert (Hir : 0 <= idx < bucket_count t) by (subst idx; apply cap_slot_range, Hinv).
  assert (Hinvb : forall x, 0 <= x < bucket_count t -> x <> invalid_marker).
  { intros x Hx. rewrite invalid_marker_eq. lia. }
  assert (Hmb : main_at t' b = set_chain_length (main_at t b) ns).
  { unfold t'. rewrite main_at_set_coll. apply main_at_set_main_eq.
    rewrite mains_set_count. lia. }
  assert (Hmx : forall x, 0 <= x -> x <> b -> main_at t' x = main_at t x).
  { intros x Hx Hne. unfold t'. rewrite main_at_set_coll.
    rewrite main_at_set_main_ne by lia. reflexivity. }
  assert (Hci : coll_at t' idx = mk_coll key args b).
  { unfold t'. apply coll_at_set_coll_eq. rewrite colls_set_main, colls_set_count. lia. }
  assert (Hcx : forall x, 0 <= x -> x <> idx -> coll_at t' x = coll_at t x).
  { intros x Hx Hne. unfold t'. rewrite coll_at_set_coll_ne by lia. reflexivity. }
  assert (Hmono : forall x, 0 <= x -> coll_live t x -> coll_live t' x).
  { intros x Hx Hl. unfold coll_live. destruct (decide (x = idx)) as [->|Hne].
    - rewrite Hci. simpl. apply Hinvb. exact Hb.
    - rewrite Hcx by lia. exact Hl. }
  assert (Hperm : entries t' ≡ₚ (key, args) :: entries t).
  { set (t1 := set_count t (wrap (element_count t + 1))).
    set (t2 := set_main t1 b (set_chain_length (main_at t b) ns)).
    pose proof (entries_set_coll t2 idx (mk_coll key args b)) as Hp2.
    unfold t2 at 1 in Hp2. rewrite colls_set_main in Hp2. unfold t1 at 1 in Hp2.
    rewrite colls_set_count in Hp2. specialize (Hp2 ltac:(lia)).
    assert (Hn : live_coll (coll_at t2 idx) = None).
    { apply live_coll_None. unfold coll_live in Hdead.
      change (coll_at t2 idx) with (coll_at t idx).
      destruct (decide (main_index (coll_at t idx) = invalid_marker)); tauto. }
    rewrite Hn in Hp2.
    assert (Hs : live_coll (mk_coll key args b) = Some (key, args)).
    { apply live_coll_Some. split; [apply Hinvb; exact Hb | reflexivity]. }
    rewrite Hs in Hp2. simpl in Hp2.
    pose proof (entries_set_main t1 b (set_chain_length (main_at t b) ns)) as Hp1.
    unfold t1 at 1 in Hp1. rewrite mains_set_count in Hp1.
    specialize (Hp1 ltac:(lia)).
    change (main_at t1 b) with (main_at t b) in Hp1.
    change (entries t1) with (entries t) in Hp1.
    assert (Hs1 : live_main (main_at t b)
                  = Some (main_key (main_at t b), main_value (main_at t b))).
    { apply live_main_Some. split; [exact Hlive | reflexivity]. }
    assert (Hs2 : live_main (set_chain_length (main_at t b) ns)
                  = Some (main_key (main_at t b), main_value (main_at t b))).
    { apply live_main_Some. split; [simpl; apply Hinvb; lia | reflexivity]. }
    rewrite Hs1, Hs2 in Hp1. simpl in Hp1.
    apply Permutation_cons_inv in Hp1.
    etrans; [exact Hp2|]. apply perm_skip. exact Hp1. }
  destruct (keys_perm_cons t t' key args Hperm Hkey (inv_keys _ _ Hinv)) as [Hnd Hl].
  split; [|split; [exact Hperm|]].
  - constructor.
    + exact (inv_capacity _ _ Hinv).
    + unfold t'. simpl. apply fmap_is_Some. exact (inv_main_alloc _ _ Hinv).
    + unfold t'. simpl. apply fmap_is_Some. exact (inv_coll_alloc _ _ Hinv).
    + unfold t'. rewrite mains_set_coll, mains_set_main, length_insert.
      exact (inv_main_length _ _ Hinv).
    + unfold t'. rewrite colls_set_coll, length_insert.
      exact (inv_coll_length _ _ Hinv).
    + intros x Hx Hl'. change (bucket_count t') with (bucket_count t) in *.
      unfold main_live in Hl'.
      destruct (decide (x = b)) as [->|Hne].
      * rewrite Hmb. simpl. lia.
      * rewrite Hmx in * by lia. apply (inv_span _ _ Hinv); assumption.
    + intros j Hj Hl'. change (bucket_count t') with (bucket_count t) in *.
      cbv zeta. unfold coll_live in Hl'.
      change (slot t') with (slot t).
      destruct (decide (j = idx)) as [->|Hne].
      * rewrite Hci. simpl. split; [exact Hb|]. unfold main_live. rewrite Hmb. simpl.
        split; [apply Hinvb; lia|]. exists (ns - 1). split; [lia | exact Hidx].
      * rewrite Hcx in * by lia.
        destruct (inv_owner _ _ Hinv j Hj Hl') as (Ho & Hlo & i & Hi & Hji).
        cbv zeta in *. split; [exact Ho|]. unfold main_live.
        destruct (decide (main_index (coll_at t j) = b)) as [E|Hnb].
        -- rewrite E in *. rewrite Hmb. simpl.
           split; [apply Hinvb; lia|]. exists i. split; [lia | exact Hji].
        -- rewrite Hmx by lia. split; [exact Hlo|]. exists i. split; assumption.
    + intros x Hx Hl' Hpos. change (bucket_count t') with (bucket_count t) in *.
      change (slot t') with (slot t). unfold main_live in Hl'.
      destruct (decide (x = b)) as [->|Hne].
      * rewrite Hmb. simpl. rewrite <- Hidx, Hci. reflexivity.
      * rewrite Hmx in * by lia.
        pose proof (inv_tail _ _ Hinv x Hx Hl' Hpos) as Ht.
        rewrite Hcx; [exact Ht | apply cap_slot_range, Hinv |].
        intros E. rewrite E in Ht. apply Hdead. unfold coll_live. rewrite Ht.
        apply Hinvb. exact Hx.
    + intros x Hx Hl'. change (bucket_count t') with (bucket_count t) in *.
      unfold main_live in Hl'.
      destruct (decide (x = b)) as [->|Hne].
      * rewrite Hmb. simpl. exact (inv_main_hash _ _ Hinv b Hb Hlive).
      * rewrite Hmx in * by lia. exact (inv_main_hash _ _ Hinv x Hx Hl').
    + intros j Hj Hl'. change (bucket_count t') with (bucket_count t) in *.
      unfold coll_live in Hl'.
      destruct (decide (j = idx)) as [->|Hne].
      * rewrite Hci. reflexivity.
      * rewrite Hcx in * by lia. exact (inv_coll_hash _ _ Hinv j Hj Hl').
    + exact Hnd.
    + rewrite Hl. unfold t'. simpl. rewrite wrap_small by (rewrite size_modulus_eq; lia).
      rewrite (inv_count _ _ Hinv). reflexivity.
    + unfold t'. simpl. rewrite wrap_small by (rewrite size_modulus_eq; lia). exact Hroom.
  - intros Hprobe Hd x i Hx Hl' Hi. change (bucket_count t') with (bucket_count t) in *.
    change (slot t') with (slot t). unfold main_live in Hl'.
    destruct (decide (x = b)) as [->|Hne].
    + rewrite Hmb in Hi. simpl in Hi.
      destruct (decide (i = ns - 1)) as [->|Hne'].
      * rewrite <- Hidx. unfold coll_live. rewrite Hci. simpl.
        apply Hinvb. exact Hb.
      * apply Hmono; [apply cap_slot_range, Hinv|].
        destruct (decide (i < chain_length (main_at t b))) as [Hlt|Hge].
        -- apply Hd; [exact Hb | exact Hlive | lia].
        -- apply Hprobe. lia.
    + apply Hmono; [apply cap_slot_range, Hinv|].
      rewrite Hmx in * by lia. exact (Hd x i Hx Hl' Hi).
Qed.

Lemma absent_cursor t key it :
  table_inv t -> find_post HashFunction t key it -> value_ptr it = nullptr ->
  (key ∉ (entries t).*1) /\ bucket_index it = bucket_of t key /\
  ((~ main_live t (bucket_of t key) /\ collision_index it = invalid_marker) \/
   (main_live t (bucket_of t key) /\
    collision_index it =
      slot t (bucket_of t key) (chain_length (main_at t (bucket_of t key))))).
Proof.
  intros Hinv Hpost Hnull.
  destruct Hpost as [? ? ->|j ? ? ? ? ? ->|Hd Hk ->|Hl Hk ->]; try discriminate.
  - split; [exact Hk|]. split; [reflexivity|]. left. split; [exact Hd | reflexivity].
  - split; [exact Hk|]. split; [reflexivity|]. right. split; [exact Hl | reflexivity].
Qed.

(** What [place] does when it does not jump to [expand]. *)
Lemma place_ok resize t it key args r :
  table_inv t -> find_post HashFunction t key it -> value_ptr it = nullptr ->
  element_count t + 1 <= bucket_count t ->
  (choose_placement t it) <> Expand ->
  place resize t it key args = Ok r ->
  table_inv (fst r) /\ entries (fst r) ≡ₚ (key, args) :: entries t
  /\ bucket_count (fst r) = bucket_count t
  /\ (dense t -> dense (fst r))
  /\ snd (snd r) = true
  /\ deref (fst r) (fst (snd r)) = Some (key, args).
Proof.
  intros Hinv Hpost Hnull Hroom Hne Hplace.
  pose proof (inv_cap_bounds _ t Hinv) as Hc.
  pose proof (bucket_of_range _ t key Hinv) as Hb.
  pose proof (inv_main_len _ t Hinv) as Hlen.
  pose proof (inv_coll_len _ t Hinv) as Hclen.
  destruct (absent_cursor t key it Hinv Hpost Hnull) as (Hkey & Hbi & Hcase).
  unfold turbokit.place in Hplace. unfold turbokit.choose_placement in Hne, Hplace.
  rewrite Hbi in *.
  destruct Hcase as [[Hdead Hci]|[Hlive Hci]]; rewrite Hci in *.
  - change (isInvalid invalid_marker) with true in *. cbv iota in *.
    injection Hplace as <-. cbn [fst snd].
    destruct (place_main_inv t key args Hinv Hdead Hkey Hroom) as (Hi' & Hp' & Hd').
    split; [exact Hi'|]. split; [exact Hp'|]. split; [reflexivity|].
    split; [exact Hd'|]. split; [reflexivity|].
    unfold deref. cbn [value_ptr].
    rewrite main_at_set_main_eq by (rewrite mains_set_count; lia). reflexivity.
  - pose proof (inv_span _ _ Hinv _ Hb Hlive) as Hspan.
    pose proof (slot_range _ t (bucket_of t key)
                  (chain_length (main_at t (bucket_of t key))) Hinv) as Hsr.
    assert (Hv : isInvalid (slot t (bucket_of t key)
                   (chain_length (main_at t (bucket_of t key)))) = false).
    { apply isInvalid_false. rewrite invalid_marker_eq. lia. }
    rewrite Hv in *.
    destruct ((bucket_count t <? small_limit sizeof_MainEntry)
              && (bucket_count t <? wrap (element_count t * 4)));
      [congruence|].
    rewrite wrap_small in * by (rewrite size_modulus_eq; lia).
    destruct (probe _ t _ _) as [[idx ns]|] eqn:Hprobe; [|discriminate].
    apply (probe_spec t (bucket_of t key) (inv_capacity _ _ Hinv)) in Hprobe;
      [|lia|rewrite size_modulus_eq; lia].
    destruct Hprobe as (Hns & Hidx & Hdead & Hprobe).
    destruct (((ns >=? 4) && (bucket_count t <? large_limit sizeof_MainEntry))
              || (ns >=? bucket_count t / 2)) eqn:Hgrow; [congruence|].
    apply orb_false_iff in Hgrow as [_ Hhalf].
    assert (Hns' : ns < bucket_count t).
    { destruct (Z.geb_spec ns (bucket_count t / 2)); [discriminate|].
      pose proof (Z.div_le_upper_bound (bucket_count t) 2 (bucket_count t)).
      lia. }
    injection Hplace as <-. cbn [fst snd].
    destruct (place_coll_inv t key args idx ns Hinv Hlive Hkey Hroom
                ltac:(lia) Hidx Hdead) as (Hi' & Hp' & Hd').
    split; [exact Hi'|]. split; [exact Hp'|]. split; [reflexivity|].
    split; [exact (Hd' Hprobe)|]. split; [reflexivity|].
    unfold deref. cbn [value_ptr].
    assert (Hir : 0 <= idx < bucket_count t) by (subst idx; apply cap_slot_range, Hinv).
    rewrite coll_at_set_coll_eq
      by (rewrite colls_set_main, colls_set_count; lia).
    reflexivity.
Qed.
End placement.

(** ** Removal *)

Section removal.
Context {KeyType ValueType : Type}.
Context `{!EqDecision KeyType, !Inhabited KeyType, !Inhabited ValueType}.
Variable HashFunction : KeyType -> Z.
Local Abbreviation HashMap := (@HashMap KeyType ValueType).
Local Abbreviation table_inv := (table_inv HashFunction).
Local Abbreviation bucket_of := (bucket_of HashFunction).
Implicit Types (t : HashMap) (key : KeyType) (it : iterator).

(** *** Cursor increment always returns on an in-range cursor *)

Lemma next_collision_ok t :
  pow2_capacity t ->
  forall fuel it,
    0 <= collision_index it < bucket_count t ->
    (Z.to_nat (bucket_count t - collision_index it) <= fuel)%nat ->
    exists it', next_collision fuel t it = Ok it'.
Proof.
  intros Hcap. pose proof (cap_bounds t Hcap) as Hc.
  induction fuel as [|fuel IH]; intros it Hci Hfuel; [lia|].
  cbn [next_collision].
  rewrite (wrap_small (bucket_count t - 1)) by (rewrite size_modulus_eq; lia).
  destruct (Z.eqb_spec (collision_index it) (bucket_count t - 1)) as [He|Hne];
    [eexists; reflexivity|].
  rewrite wrap_small by (rewrite size_modulus_eq; lia).
  destruct (isInvalid _); [|eexists; reflexivity].
  apply IH; cbn [collision_index]; lia.
Qed.

Lemma next_main_ok t :
  pow2_capacity t ->
  forall fuel it,
    0 <= bucket_index it < bucket_count t ->
    (Z.to_nat (bucket_count t - bucket_index it) <= fuel)%nat ->
    exists it', next_main fuel t it = Ok it'.
Proof.
  intros Hcap. pose proof (cap_bounds t Hcap) as Hc.
  induction fuel as [|fuel IH]; intros it Hbi Hfuel; [lia|].
  cbn [next_main].
  rewrite (wrap_small (bucket_count t - 1)) by (rewrite size_modulus_eq; lia).
  destruct (Z.eqb_spec (bucket_index it) (bucket_count t - 1)) as [He|Hne].
  - destruct (negb _); [eexists; reflexivity|].
    apply (next_collision_ok t Hcap); cbn [collision_index]; lia.
  - rewrite wrap_small by (rewrite size_modulus_eq; lia).
    destruct (isInvalid _); [|eexists; reflexivity].
    apply IH; cbn [bucket_index]; lia.
Qed.

Lemma increment_ok t it :
  pow2_capacity t ->
  (collision_index it = invalid_marker /\ 0 <= bucket_index it < bucket_count t)
  \/ 0 <= collision_index it < bucket_count t ->
  exists it', increment t it = Ok it'.
Proof.
  intros Hcap Hit. pose proof (cap_bounds t Hcap) as Hc. unfold increment.
  destruct Hit as [[Hci Hbi]|Hci].
  - rewrite Hci. change (isInvalid invalid_marker) with true. cbv iota.
    apply (next_main_ok t Hcap); lia.
  - assert (Hv : isInvalid (collision_index it) = false).
    { apply isInvalid_false. rewrite invalid_marker_eq. lia. }
    rewrite Hv. apply (next_collision_ok t Hcap); lia.
Qed.

(** *** The backward walk that restores the true tail *)

Lemma walk_back_spec t b :
  pow2_capacity t -> 0 <= b < bucket_count t ->
  forall n cl0,
    0 <= cl0 < bucket_count t -> (Z.to_nat cl0 <= n)%nat ->
    let r := walk_back n t b cl0 in
    0 <= r <= cl0
    /\ (r = 0 \/ main_index (coll_at t (slot t b (r - 1))) = b)
    /\ forall i, r <= i < cl0 -> main_index (coll_at t (slot t b i)) <> b.
Proof.
  intros Hcap Hb. pose proof (cap_bounds t Hcap) as Hc.
  induction n as [|n IH]; intros cl0 Hcl Hn; cbv zeta.
  - simpl. assert (cl0 = 0) by lia. subst cl0.
    split; [lia|]. split; [left; reflexivity|]. intros i Hi. lia.
  - cbn [walk_back].
    destruct (Z.eqb_spec cl0 0) as [->|Hnz].
    { split; [lia|]. split; [left; reflexivity|]. intros i Hi. lia. }
    replace (b + cl0 - 1) with (b + (cl0 - 1)) by lia.
    rewrite (cap_slot_land t b (cl0 - 1) Hcap Hb) by lia.
    destruct (Z.eqb_spec (main_index (coll_at t (slot t b (cl0 - 1)))) b) as [He|Hne].
    { split; [lia|]. split; [right; exact He|]. intros i Hi. lia. }
    rewrite wrap_small by (rewrite size_modulus_eq; lia).
    specialize (IH (cl0 - 1) ltac:(lia) ltac:(lia)). cbv zeta in IH.
    destruct IH as (Hr & Htail & Hgap).
    split; [lia|]. split; [exact Htail|].
    intros i Hi. destruct (decide (i = cl0 - 1)) as [->|Hne']; [exact Hne|].
    apply Hgap. lia.
Qed.

(** *** Shrinking a chain by its tail slot *)

Lemma chain_shrink_inv t t' b kv :
  table_inv t ->
  0 <= b < bucket_count t -> main_live t b ->
  0 < chain_length (main_at t b) ->
  bucket_count t' = bucket_count t ->
  is_Some (main_table t') -> is_Some (collision_table t') ->
  length (mains t') = length (mains t) ->
  length (colls t') = length (colls t) ->
  (forall x, 0 <= x < bucket_count t -> x <> b -> main_at t' x = main_at t x) ->
  main_live t' b ->
  0 <= chain_length (main_at t' b) < chain_length (main_at t b) ->
  (chain_length (main_at t' b) = 0 \/
   main_index (coll_at t' (slot t b (chain_length (main_at t' b) - 1))) = b) ->
  (forall i, chain_length (main_at t' b) <= i < chain_length (main_at t b) - 1 ->
             main_index (coll_at t (slot t b i)) <> b) ->
  bucket_of t (main_key (main_at t' b)) = b ->
  main_index (coll_at t' (slot t b (chain_length (main_at t b) - 1)))
    = invalid_marker ->
  (forall x, 0 <= x < bucket_count t ->
             x <> slot t b (chain_length (main_at t b) - 1) ->
             main_index (coll_at t' x) = main_index (coll_at t x)) ->
  (forall x, 0 <= x < bucket_count t ->
             x <> slot t b (chain_length (main_at t b) - 1) ->
             coll_live t x ->
             bucket_of t (coll_key (coll_at t' x)) = main_index (coll_at t x)) ->
  entries t ≡ₚ kv :: entries t' ->
  element_count t' = element_count t - 1 ->
  table_inv t'.
Proof.
  intros Hinv Hb Hlive Hpos Hbc Hma Hca Hml Hcl Hmx Hlive' Hcl' Htail' Hgap
         Hhash Htailv Hcx Hchash Hperm Hcount.
  pose proof (inv_cap_bounds _ t Hinv) as Hc.
  pose proof (inv_span _ _ Hinv _ Hb Hlive) as Hspan.
  set (cl := chain_length (main_at t b)) in *.
  set (tail := slot t b (cl - 1)) in *.
  assert (Hslot : forall x i, slot t' x i = slot t x i).
  { intros x i. unfold slot. rewrite Hbc. reflexivity. }
  assert (Hbo : forall k, bucket_of t' k = bucket_of t k).
  { intros k. unfold turbokit.bucket_of, mask_of. rewrite Hbc. reflexivity. }
  assert (Htl : main_index (coll_at t tail) = b).
  { apply (inv_tail _ _ Hinv b Hb Hlive Hpos). }
  constructor.
  - unfold pow2_capacity. rewrite Hbc. exact (inv_capacity _ _ Hinv).
  - exact Hma.
  - exact Hca.
  - rewrite Hml, Hbc. exact (inv_main_length _ _ Hinv).
  - rewrite Hcl, Hbc. exact (inv_coll_length _ _ Hinv).
  - intros x Hx Hl. rewrite Hbc in *. unfold main_live in Hl.
    destruct (decide (x = b)) as [->|Hne]; [lia|].
    rewrite Hmx in * by assumption. apply (inv_span _ _ Hinv); assumption.
  - intros j Hj Hl. cbv zeta. rewrite Hbc in *. unfold coll_live in Hl.
    destruct (decide (j = tail)) as [->|Hnt]; [congruence|].
    rewrite Hcx in * by assumption.
    destruct (inv_owner _ _ Hinv j Hj Hl) as (Ho & Hlo & i & Hi & Hji).
    cbv zeta in *. split; [exact Ho|].
    destruct (decide (main_index (coll_at t j) = b)) as [E|Hnb].
    + rewrite E in *. split; [exact Hlive'|]. exists i.
      rewrite Hslot. split; [|exact Hji].
      fold cl in Hi.
      destruct (decide (i < chain_length (main_at t' b))) as [Hlt|Hge]; [lia|].
      exfalso.
      destruct (decide (i = cl - 1)) as [->|Hne']; [apply Hnt; exact Hji|].
      apply (Hgap i); [lia|]. rewrite <- Hji. exact E.
    + unfold main_live. rewrite Hmx by assumption.
      split; [exact Hlo|]. exists i. rewrite Hslot. split; assumption.
  - intros x Hx Hl Hp. rewrite Hbc in *. rewrite Hslot. unfold main_live in Hl.
    destruct (decide (x = b)) as [->|Hne].
    + destruct Htail' as [?|Ht]; [lia | exact Ht].
    + rewrite Hmx in * by assumption.
      pose proof (inv_tail _ _ Hinv x Hx Hl Hp) as Ht.
      rewrite Hcx; [exact Ht | apply cap_slot_range, Hinv |].
      intros E. rewrite E in Ht. congruence.
  - intros x Hx Hl. rewrite Hbc in *. rewrite Hbo. unfold main_live in Hl.
    destruct (decide (x = b)) as [->|Hne]; [exact Hhash|].
    rewrite Hmx in * by assumption. exact (inv_main_hash _ _ Hinv x Hx Hl).
  - intros j Hj Hl. rewrite Hbc in *. rewrite Hbo. unfold coll_live in Hl.
    destruct (decide (j = tail)) as [->|Hnt]; [congruence|].
    rewrite (Hcx j) in * by assumption.
    apply Hchash; assumption.
  - pose proof (inv_keys _ _ Hinv) as Hnd. rewrite Hperm in Hnd.
    rewrite fmap_cons in Hnd. apply NoDup_cons_1_2 in Hnd. exact Hnd.
  - rewrite Hcount, (inv_count _ _ Hinv), Hperm. simpl. lia.
  - rewrite Hcount, Hbc. pose proof (inv_room _ _ Hinv). lia.
Qed.

Lemma entries_clear_coll t j :
  0 <= j < Z.of_nat (length (colls t)) -> coll_live t j ->
  entries t ≡ₚ
    (coll_key (coll_at t j), coll_value (coll_at t j))
    :: entries (set_coll t j (set_main_index (coll_at t j) invalid_marker)).
Proof.
  intros Hj Hl.
  pose proof (entries_set_coll t j (set_main_index (coll_at t j) invalid_marker) Hj) as Hp.
  assert (H1 : live_coll (coll_at t j)
               = Some (coll_key (coll_at t j), coll_value (coll_at t j))).
  { apply live_coll_Some. split; [exact Hl | reflexivity]. }
  assert (H2 : live_coll (set_main_index (coll_at t j) invalid_marker) = None).
  { apply live_coll_None. reflexivity. }
  rewrite H1, H2 in Hp. simpl in Hp. symmetry. exact Hp.
Qed.

Lemma entries_set_chain t b e :
  0 <= b < Z.of_nat (length (mains t)) -> main_live t b ->
  chain_length e <> invalid_marker ->
  main_key e = main_key (main_at t b) ->
  main_value e = main_value (main_at t b) ->
  entries (set_main t b e) ≡ₚ entries t.
Proof.
  intros Hb Hl Hn Hk Hv.
  pose proof (entries_set_main t b e Hb) as Hp.
  assert (H1 : live_main (main_at t b)
               = Some (main_key (main_at t b), main_value (main_at t b))).
  { apply live_main_Some. split; [exact Hl | reflexivity]. }
  assert (H2 : live_main e
               = Some (main_key (main_at t b), main_value (main_at t b))).
  { apply live_main_Some. split; [exact Hn | congruence]. }
  rewrite H1, H2 in Hp. simpl in Hp.
  apply Permutation_cons_inv in Hp. exact Hp.
Qed.

(** Removing the pair of a home slot that has no chain. *)
Lemma remove_single_inv t b :
  table_inv t -> 0 <= b < bucket_count t -> main_live t b ->
  chain_length (main_at t b) = 0 ->
  let t' := set_main (set_count t (wrap (element_count t - 1))) b
              (set_chain_length (main_at t b) invalid_marker) in
  table_inv t'
  /\ entries t ≡ₚ (main_key (main_at t b), main_value (main_at t b)) :: entries t'.
Proof.
  intros Hinv Hb Hlive Hcl t'.
  pose proof (inv_cap_bounds _ t Hinv) as Hc.
  pose proof (inv_main_len _ t Hinv) as Hlen.
  assert (Hmb : main_at t' b = set_chain_length (main_at t b) invalid_marker).
  { apply main_at_set_main_eq. rewrite mains_set_count. lia. }
  assert (Hmx : forall x, 0 <= x -> x <> b -> main_at t' x = main_at t x).
  { intros x Hx Hne. unfold t'. rewrite main_at_set_main_ne by lia. reflexivity. }
  assert (Hperm : entries t ≡ₚ
            (main_key (main_at t b), main_value (main_at t b)) :: entries t').
  { pose proof (entries_set_main (set_count t (wrap (element_count t - 1))) b
                  (set_chain_length (main_at t b) invalid_marker)) as Hp.
    rewrite mains_set_count, main_at_set_count, entries_set_count in Hp.
    specialize (Hp ltac:(lia)).
    assert (H1 : live_main (main_at t b)
                 = Some (main_key (main_at t b), main_value (main_at t b))).
    { apply live_main_Some. split; [exact Hlive | reflexivity]. }
    assert (H2 : live_main (set_chain_length (main_at t b) invalid_marker) = None).
    { apply live_main_None. reflexivity. }
    rewrite H1, H2 in Hp. simpl in Hp. symmetry. exact Hp. }
  split; [|exact Hperm].
  assert (Hlen' : Z.of_nat (length (entries t))
                  = Z.of_nat (length (entries t')) + 1).
  { rewrite Hperm. simpl. lia. }
  constructor.
  - exact (inv_capacity _ _ Hinv).
  - unfold t'. simpl. apply fmap_is_Some. exact (inv_main_alloc _ _ Hinv).
  - exact (inv_coll_alloc _ _ Hinv).
  - unfold t'. rewrite mains_set_main, length_insert. exact (inv_main_length _ _ Hinv).
  - exact (inv_coll_length _ _ Hinv).
  - intros x Hx Hl'. change (bucket_count t') with (bucket_count t) in *.
    unfold main_live in Hl'.
    destruct (decide (x = b)) as [->|Hne].
    + rewrite Hmb in Hl'. simpl in Hl'. congruence.
    + rewrite Hmx in * by lia. apply (inv_span _ _ Hinv); assumption.
  - intros j Hj Hl'. change (bucket_count t') with (bucket_count t) in *.
    change (coll_at t' j) with (coll_at t j).
    destruct (inv_owner _ _ Hinv j Hj Hl') as (Ho & Hlo & i & Hi & Hji).
    cbv zeta in *.
    assert (Hne : main_index (coll_at t j) <> b). { intros E. rewrite E in Hi. lia. }
    unfold main_live. rewrite Hmx by lia.
    split; [exact Ho|]. split; [exact Hlo|]. exists i. split; assumption.
  - intros x Hx Hl' Hpos. change (bucket_count t') with (bucket_count t) in *.
    unfold main_live in Hl'.
    destruct (decide (x = b)) as [->|Hne].
    + rewrite Hmb in Hl'. simpl in Hl'. congruence.
    + rewrite Hmx in * by lia. exact (inv_tail _ _ Hinv x Hx Hl' Hpos).
  - intros x Hx Hl'. change (bucket_count t') with (bucket_count t) in *.
    unfold main_live in Hl'.
    destruct (decide (x = b)) as [->|Hne].
    + rewrite Hmb in Hl'. simpl in Hl'. congruence.
    + rewrite Hmx in * by lia. exact (inv_main_hash _ _ Hinv x Hx Hl').
  - intros j Hj Hl'. exact (inv_coll_hash _ _ Hinv j Hj Hl').
  - pose proof (inv_keys _ _ Hinv) as Hnd. rewrite Hperm in Hnd.
    rewrite fmap_cons in Hnd. apply NoDup_cons_1_2 in Hnd. exact Hnd.
  - change (element_count t') with (wrap (element_count t - 1)).
    pose proof (inv_count _ _ Hinv) as Hcnt. pose proof (inv_room _ _ Hinv).
    rewrite wrap_small by (rewrite size_modulus_eq; lia). lia.
  - change (element_count t') with (wrap (element_count t - 1)).
    change (bucket_count t') with (bucket_count t).
    pose proof (inv_count _ _ Hinv) as Hcnt. pose proof (inv_room _ _ Hinv).
    rewrite wrap_small by (rewrite size_modulus_eq; lia). lia.
Qed.
End removal.

Section removal_cases.
Context {KeyType ValueType : Type}.
Context `{!EqDecision KeyType, !Inhabited KeyType, !Inhabited ValueType}.
Variable HashFunction : KeyType -> Z.
Local Abbreviation HashMap := (@HashMap KeyType ValueType).
Local Abbreviation table_inv := (table_inv HashFunction).
Local Abbreviation bucket_of := (bucket_of HashFunction).
Implicit Types (t : HashMap) (key : KeyType) (it : iterator).

Lemma valid_index_not_marker t x :
  pow2_capacity t -> 0 <= x < bucket_count t -> x <> invalid_marker.
Proof.
  intros Hcap Hx. pose proof (cap_bounds t Hcap). rewrite invalid_marker_eq. lia.
Qed.

(** Removing the pair of a home slot by promoting the tail of its chain. *)
Lemma remove_promote_inv t b :
  table_inv t -> 0 <= b < bucket_count t -> main_live t b ->
  0 < chain_length (main_at t b) ->
  let cl := chain_length (main_at t b) in
  let tail := slot t b (cl - 1) in
  let t1 := set_count t (wrap (element_count t - 1)) in
  let ce := coll_at t tail in
  let t2 := set_coll t1 tail (set_main_index ce invalid_marker) in
  let t3 := set_main t2 b (mk_main (coll_key ce) (coll_value ce) cl) in
  let cl' := walk_back (Z.to_nat (cl - 1)) t3 b (cl - 1) in
  let t4 := set_main t3 b (set_chain_length (main_at t3 b) cl') in
  table_inv t4
  /\ entries t ≡ₚ (main_key (main_at t b), main_value (main_at t b)) :: entries t4.
Proof.
  intros Hinv Hb Hlive Hpos cl tail t1 ce t2 t3 cl' t4.
  pose proof (inv_cap_bounds _ t Hinv) as Hc.
  pose proof (inv_main_len _ t Hinv) as Hlen.
  pose proof (inv_coll_len _ t Hinv) as Hclen.
  pose proof (inv_span _ _ Hinv _ Hb Hlive) as Hspan. fold cl in Hspan.
  pose proof (inv_capacity _ _ Hinv) as Hcap.
  assert (Htr : 0 <= tail < bucket_count t) by (apply cap_slot_range, Hcap).
  pose proof (inv_tail _ _ Hinv b Hb Hlive Hpos) as Htl. fold cl tail in Htl.
  assert (Htlive : coll_live t tail).
  { unfold coll_live. rewrite Htl. apply (valid_index_not_marker t); assumption. }
  (* the owner tags of [t3] *)
  assert (Hc3t : coll_at t3 tail = set_main_index ce invalid_marker).
  { unfold t3. rewrite coll_at_set_main. apply coll_at_set_coll_eq.
    change (colls t1) with (colls t). lia. }
  assert (Hc3x : forall x, 0 <= x -> x <> tail -> coll_at t3 x = coll_at t x).
  { intros x Hx Hne. unfold t3, t2. rewrite coll_at_set_main.
    rewrite coll_at_set_coll_ne by lia. reflexivity. }
  assert (Hm3b : main_at t3 b = mk_main (coll_key ce) (coll_value ce) cl).
  { unfold t3. apply main_at_set_main_eq.
    change (mains t2) with (mains t). lia. }
  assert (Hcap3 : pow2_capacity t3) by exact Hcap.
  destruct (walk_back_spec t3 b Hcap3 Hb (Z.to_nat (cl - 1)) (cl - 1)
              ltac:(change (bucket_count t3) with (bucket_count t); lia)
              ltac:(lia)) as (Hr & Hrt & Hgap).
  fold cl' in Hr, Hrt, Hgap. change (slot t3) with (slot t) in Hrt, Hgap.
  assert (Hm4b : main_at t4 b = mk_main (coll_key ce) (coll_value ce) cl').
  { unfold t4. rewrite main_at_set_main_eq.
    - rewrite Hm3b. reflexivity.
    - unfold t3. rewrite mains_set_main, length_insert.
      change (mains t2) with (mains t). lia. }
  assert (Hm4x : forall x, 0 <= x -> x <> b -> main_at t4 x = main_at t x).
  { intros x Hx Hne. unfold t4, t3. rewrite !main_at_set_main_ne by lia.
    reflexivity. }
  assert (Hperm : entries t ≡ₚ
            (main_key (main_at t b), main_value (main_at t b)) :: entries t4).
  { pose proof (entries_clear_coll t1 tail) as H2.
    change (colls t1) with (colls t) in H2. specialize (H2 ltac:(lia) Htlive).
    change (coll_at t1 tail) with ce in H2. fold t2 in H2.
    change (entries t1) with (entries t) in H2.
    pose proof (entries_set_main t2 b (mk_main (coll_key ce) (coll_value ce) cl)) as H3.
    change (mains t2) with (mains t) in H3.
    specialize (H3 ltac:(lia)). fold t3 in H3.
    change (main_at t2 b) with (main_at t b) in H3.
    assert (E1 : live_main (main_at t b)
                 = Some (main_key (main_at t b), main_value (main_at t b))).
    { apply live_main_Some. split; [exact Hlive | reflexivity]. }
    assert (E2 : live_main (mk_main (coll_key ce) (coll_value ce) cl)
                 = Some (coll_key ce, coll_value ce)).
    { apply live_main_Some. split; [|reflexivity]. simpl.
      apply (valid_index_not_marker t); [exact Hcap | lia]. }
    rewrite E1, E2 in H3. simpl in H3.
    assert (H4 : entries t4 ≡ₚ entries t3).
    { apply entries_set_chain.
      - unfold t3. rewrite mains_set_main, length_insert.
        change (mains t2) with (mains t). lia.
      - unfold main_live. rewrite Hm3b. simpl.
        apply (valid_index_not_marker t); [exact Hcap | lia].
      - simpl. apply (valid_index_not_marker t); [exact Hcap | lia].
      - reflexivity.
      - reflexivity. }
    rewrite H4, H3, H2. reflexivity. }
  split; [|exact Hperm].
  apply (chain_shrink_inv HashFunction t t4 b
           (main_key (main_at t b), main_value (main_at t b)));
    try assumption; fold cl tail.
  - reflexivity.
  - unfold t4, t3, t2, t1. simpl. rewrite <- !option_fmap_compose.
    apply fmap_is_Some. exact (inv_main_alloc _ _ Hinv).
  - unfold t4, t3, t2, t1. simpl.
    apply fmap_is_Some. exact (inv_coll_alloc _ _ Hinv).
  - unfold t4, t3. rewrite !mains_set_main, !length_insert. reflexivity.
  - unfold t4, t3, t2. rewrite !colls_set_main, colls_set_coll, length_insert.
    reflexivity.
  - intros x Hx Hne. apply Hm4x; lia.
  - unfold main_live. rewrite Hm4b. simpl.
    apply (valid_index_not_marker t); [exact Hcap | lia].
  - rewrite Hm4b. simpl. lia.
  - rewrite Hm4b. simpl. destruct Hrt as [?|Hrt]; [left; assumption|right].
    exact Hrt.
  - rewrite Hm4b. simpl. intros i Hi.
    rewrite <- (Hc3x (slot t b i)).
    + apply Hgap. lia.
    + apply cap_slot_range, Hcap.
    + intros E. apply slot_inj in E; lia.
  - rewrite Hm4b. simpl.
    pose proof (inv_coll_hash _ _ Hinv tail Htr Htlive) as Hh.
    rewrite Htl in Hh. exact Hh.
  - change (coll_at t4 tail) with (coll_at t3 tail). rewrite Hc3t. reflexivity.
  - intros x Hx Hne. change (coll_at t4 x) with (coll_at t3 x).
    rewrite Hc3x by lia. reflexivity.
  - intros x Hx Hne Hl. change (coll_at t4 x) with (coll_at t3 x).
    rewrite Hc3x by lia. exact (inv_coll_hash _ _ Hinv x Hx Hl).
  - change (element_count t4) with (wrap (element_count t - 1)).
    pose proof (inv_count _ _ Hinv) as Hcnt. pose proof (inv_room _ _ Hinv).
    assert (Z.of_nat (length (entries t)) = Z.of_nat (length (entries t4)) + 1)
      by (rewrite Hperm; simpl; lia).
    apply wrap_small. rewrite size_modulus_eq. lia.
Qed.

(** Removing a pair from a collision slot: the tail of the owner's chain
    fills the hole, unless the slot is the tail itself. *)
Lemma remove_coll_inv t j :
  table_inv t -> 0 <= j < bucket_count t -> coll_live t j ->
  let b := main_index (coll_at t j) in
  let cl := chain_length (main_at t b) in
  let tail := slot t b (cl - 1) in
  let t1 := set_count t (wrap (element_count t - 1)) in
  let last := coll_at t tail in
  let t2 := if tail =? j then t1
            else set_coll t1 j (mk_coll (coll_key last) (coll_value last) b) in
  let t3 := set_coll t2 tail (set_main_index (coll_at t2 tail) invalid_marker) in
  let cl' := walk_back (Z.to_nat (cl - 1)) t3 b (cl - 1) in
  let t4 := set_main t3 b (set_chain_length (main_at t b) cl') in
  table_inv t4
  /\ entries t ≡ₚ (coll_key (coll_at t j), coll_value (coll_at t j)) :: entries t4.
Proof.
  intros Hinv Hj Hjlive b cl tail t1 last t2 t3 cl' t4.
  pose proof (inv_cap_bounds _ t Hinv) as Hc.
  pose proof (inv_main_len _ t Hinv) as Hlen.
  pose proof (inv_coll_len _ t Hinv) as Hclen.
  pose proof (inv_capacity _ _ Hinv) as Hcap.
  destruct (inv_owner _ _ Hinv j Hj Hjlive) as (Hb & Hlive & i & Hi & Hji).
  cbv zeta in Hb, Hlive, Hi, Hji. fold b in Hb, Hlive, Hi, Hji. fold cl in Hi.
  pose proof (inv_span _ _ Hinv _ Hb Hlive) as Hspan. fold cl in Hspan.
  assert (Hpos : 0 < cl) by lia.
  assert (Htr : 0 <= tail < bucket_count t) by (apply cap_slot_range, Hcap).
  pose proof (inv_tail _ _ Hinv b Hb Hlive Hpos) as Htl. fold cl tail in Htl.
  assert (Htlive : coll_live t tail).
  { unfold coll_live. rewrite Htl. apply (valid_index_not_marker t); assumption. }
  assert (Hbv : b <> invalid_marker) by (apply (valid_index_not_marker t); assumption).
  assert (Hlen2 : length (colls t2) = length (colls t)).
  { unfold t2. destruct (tail =? j); [reflexivity|].
    rewrite colls_set_coll, length_insert. reflexivity. }
  assert (Hc2t : tail <> j -> coll_at t2 tail = coll_at t tail).
  { intros Hne. unfold t2. destruct (Z.eqb_spec tail j); [tauto|].
    rewrite coll_at_set_coll_ne by lia. reflexivity. }
  assert (Hc3t : main_index (coll_at t3 tail) = invalid_marker).
  { unfold t3. rewrite coll_at_set_coll_eq by lia. reflexivity. }
  assert (Hc3o : forall x, 0 <= x < bucket_count t -> x <> tail ->
                           main_index (coll_at t3 x) = main_index (coll_at t x)).
  { intros x Hx Hne. unfold t3. rewrite coll_at_set_coll_ne by lia.
    unfold t2. destruct (Z.eqb_spec tail j) as [E|Hnj]; [reflexivity|].
    destruct (decide (x = j)) as [->|Hxj].
    - rewrite coll_at_set_coll_eq by (change (colls t1) with (colls t); lia).
      reflexivity.
    - rewrite coll_at_set_coll_ne by lia. reflexivity. }
  assert (Hc3k : forall x, 0 <= x < bucket_count t -> x <> tail -> coll_live t x ->
                           bucket_of t (coll_key (coll_at t3 x))
                           = main_index (coll_at t x)).
  { intros x Hx Hne Hl. unfold t3. rewrite coll_at_set_coll_ne by lia.
    unfold t2. destruct (Z.eqb_spec tail j) as [E|Hnj].
    - exact (inv_coll_hash _ _ Hinv x Hx Hl).
    - destruct (decide (x = j)) as [->|Hxj].
      + rewrite coll_at_set_coll_eq by (change (colls t1) with (colls t); lia).
        simpl. pose proof (inv_coll_hash _ _ Hinv tail Htr Htlive) as Hh.
        rewrite Htl in Hh. exact Hh.
      + rewrite coll_at_set_coll_ne by lia.
        exact (inv_coll_hash _ _ Hinv x Hx Hl). }
  assert (Hcap3 : pow2_capacity t3).
  { unfold pow2_capacity, t3, t2. destruct (tail =? j); exact Hcap. }
  assert (Hbc3 : bucket_count t3 = bucket_count t).
  { unfold t3, t2. destruct (tail =? j); reflexivity. }
  destruct (walk_back_spec t3 b Hcap3 ltac:(rewrite Hbc3; exact Hb)
              (Z.to_nat (cl - 1)) (cl - 1)
              ltac:(rewrite Hbc3; lia) ltac:(lia)) as (Hr & Hrt & Hgap).
  fold cl' in Hr, Hrt, Hgap.
  assert (Hs3 : forall x y, slot t3 x y = slot t x y).
  { intros x y. unfold slot. rewrite Hbc3. reflexivity. }
  rewrite Hs3 in Hrt. setoid_rewrite Hs3 in Hgap.
  assert (Hlen3 : length (mains t3) = length (mains t)).
  { unfold t3, t2. destruct (tail =? j); reflexivity. }
  assert (Hm3 : forall x, main_at t3 x = main_at t x).
  { intros x. unfold t3, t2. destruct (tail =? j); reflexivity. }
  assert (Hm4b : main_at t4 b = set_chain_length (main_at t b) cl').
  { unfold t4. apply main_at_set_main_eq. rewrite Hlen3. lia. }
  assert (Hm4x : forall x, 0 <= x -> x <> b -> main_at t4 x = main_at t x).
  { intros x Hx Hne. unfold t4. rewrite main_at_set_main_ne by lia. apply Hm3. }
  assert (Hclv : cl' <> invalid_marker).
  { apply (valid_index_not_marker t); [exact Hcap | lia]. }
  assert (Hperm3 : entries t ≡ₚ
            (coll_key (coll_at t j), coll_value (coll_at t j)) :: entries t3).
  { unfold t3, t2. destruct (Z.eqb_spec tail j) as [E|Hnj].
    - rewrite <- E.
      apply (entries_clear_coll t1 tail); [change (colls t1) with (colls t); lia|].
      exact Htlive.
    - set (u := set_coll t1 j (mk_coll (coll_key last) (coll_value last) b)).
      pose proof (entries_set_coll t1 j
                    (mk_coll (coll_key last) (coll_value last) b)) as H2.
      change (colls t1) with (colls t) in H2. specialize (H2 ltac:(lia)).
      fold u in H2. change (coll_at t1 j) with (coll_at t j) in H2.
      change (entries t1) with (entries t) in H2.
      assert (E1 : live_coll (coll_at t j)
                   = Some (coll_key (coll_at t j), coll_value (coll_at t j))).
      { apply live_coll_Some. split; [exact Hjlive | reflexivity]. }
      assert (E2 : live_coll (mk_coll (coll_key last) (coll_value last) b)
                   = Some (coll_key last, coll_value last)).
      { apply live_coll_Some. split; [exact Hbv | reflexivity]. }
      rewrite E1, E2 in H2. simpl in H2.
      assert (Hut : coll_at u tail = last).
      { unfold u. rewrite coll_at_set_coll_ne by lia. reflexivity. }
      pose proof (entries_clear_coll u tail) as H3.
      assert (Hul : length (colls u) = length (colls t)).
      { unfold u. rewrite colls_set_coll, length_insert. reflexivity. }
      rewrite Hul in H3. specialize (H3 ltac:(lia)).
      assert (Hulive : coll_live u tail).
      { unfold coll_live. rewrite Hut. exact Htlive. }
      specialize (H3 Hulive). rewrite Hut in H3 at 1 2.
      rewrite H3 in H2.
      rewrite perm_swap in H2. apply Permutation_cons_inv in H2.
      symmetry. exact H2. }
  assert (Hperm : entries t ≡ₚ
            (coll_key (coll_at t j), coll_value (coll_at t j)) :: entries t4).
  { rewrite Hperm3. apply perm_skip. symmetry.
    apply entries_set_chain.
    - rewrite Hlen3. lia.
    - unfold main_live. rewrite Hm3. exact Hlive.
    - exact Hclv.
    - simpl. rewrite Hm3. reflexivity.
    - simpl. rewrite Hm3. reflexivity. }
  split; [|exact Hperm].
  apply (chain_shrink_inv HashFunction t t4 b
           (coll_key (coll_at t j), coll_value (coll_at t j)));
    try assumption; fold cl tail.
  - unfold t4. simpl. apply fmap_is_Some.
    unfold t3, t2. destruct (tail =? j); exact (inv_main_alloc _ _ Hinv).
  - unfold t4, t3. simpl. apply fmap_is_Some.
    unfold t2. destruct (tail =? j); [exact (inv_coll_alloc _ _ Hinv)|].
    simpl. apply fmap_is_Some. exact (inv_coll_alloc _ _ Hinv).
  - unfold t4. rewrite mains_set_main, length_insert. exact Hlen3.
  - unfold t4, t3. rewrite colls_set_main, colls_set_coll, length_insert.
    exact Hlen2.
  - intros x Hx Hne. apply Hm4x; lia.
  - unfold main_live. rewrite Hm4b. exact Hclv.
  - rewrite Hm4b. simpl. lia.
  - rewrite Hm4b. simpl. destruct Hrt as [?|Hrt]; [left; assumption|right].
    exact Hrt.
  - rewrite Hm4b. simpl. intros k Hk.
    rewrite <- (Hc3o (slot t b k)).
    + apply Hgap. lia.
    + apply cap_slot_range, Hcap.
    + intros E. apply slot_inj in E; lia.
  - rewrite Hm4b. simpl. exact (inv_main_hash _ _ Hinv b Hb Hlive).
  - assert (Hcnt4 : element_count t4 = wrap (element_count t - 1)).
    { unfold t4, t3, t2. destruct (tail =? j); reflexivity. }
    rewrite Hcnt4.
    pose proof (inv_count _ _ Hinv) as Hcnt. pose proof (inv_room _ _ Hinv).
    assert (Z.of_nat (length (entries t)) = Z.of_nat (length (entries t4)) + 1)
      by (rewrite Hperm; simpl; lia).
    apply wrap_small. rewrite size_modulus_eq. lia.
Qed.
End removal_cases.

Section removal_op.
Context {KeyType ValueType : Type}.
Context `{!EqDecision KeyType, !Inhabited KeyType, !Inhabited ValueType}.
Variable HashFunction : KeyType -> Z.
Local Abbreviation HashMap := (@HashMap KeyType ValueType).
Local Abbreviation table_inv := (table_inv HashFunction).
Local Abbreviation bucket_of := (bucket_of HashFunction).
Local Abbreviation find := (find HashFunction).
Local Abbreviation remove_key := (remove_key HashFunction).
Implicit Types (t : HashMap) (key : KeyType) (it : iterator).

(** [remove] on a cursor that [find] returned for a present key. *)
Lemma remove_ok t key it :
  table_inv t -> find_post HashFunction t key it -> value_ptr it <> nullptr ->
  exists t' it' v,
    remove t it = Ok (t', it') /\ deref t it = Some (key, v)
    /\ table_inv t' /\ entries t ≡ₚ (key, v) :: entries t'
    /\ bucket_count t' = bucket_count t.
Proof.
  intros Hinv Hpost Hnn.
  pose proof (inv_cap_bounds _ t Hinv) as Hc.
  pose proof (bucket_of_range _ t key Hinv) as Hb.
  pose proof (inv_capacity _ _ Hinv) as Hcap.
  destruct Hpost as [Hlive Hk ->|j Hj Hlive Hk Ho Hkj ->|? ? ->|? ? ->];
    try (exfalso; apply Hnn; reflexivity).
  - pose proof (inv_span _ _ Hinv _ Hb Hlive) as Hspan.
    unfold remove. cbv zeta. cbn [bucket_index collision_index].
    change (isInvalid invalid_marker) with true. cbv iota.
    change (main_at (set_count t (wrap (element_count t - 1))) (bucket_of t key))
      with (main_at t (bucket_of t key)).
    destruct (Z.eqb_spec (chain_length (main_at t (bucket_of t key))) 0)
      as [Hz|Hnz]; cbn [negb].
    + destruct (increment_ok (set_count t (wrap (element_count t - 1)))
                  (mk_iterator (bucket_of t key) invalid_marker
                               (main_value_ptr (bucket_of t key))) Hcap)
        as [it' Hinc].
      { left. split; [reflexivity | exact Hb]. }
      rewrite Hinc. cbn [bind].
      eexists _, _, (main_value (main_at t (bucket_of t key))).
      split; [reflexivity|].
      split; [unfold deref; cbn [value_ptr]; rewrite Hk; reflexivity|].
      destruct (remove_single_inv HashFunction t (bucket_of t key) Hinv Hb Hlive Hz)
        as [Hi' Hp'].
      rewrite Hk in Hp' at 1.
      split; [exact Hi'|]. split; [exact Hp' | reflexivity].
    + rewrite (wrap_small (chain_length (main_at t (bucket_of t key)) - 1))
        by (rewrite size_modulus_eq; lia).
      rewrite (slot_land_eq HashFunction t (bucket_of t key)) by (try exact Hinv; lia).
      eexists _, _, (main_value (main_at t (bucket_of t key))).
      split; [reflexivity|].
      split; [unfold deref; cbn [value_ptr]; rewrite Hk; reflexivity|].
      destruct (remove_promote_inv HashFunction t (bucket_of t key) Hinv Hb Hlive
                  ltac:(lia)) as [Hi' Hp'].
      rewrite Hk in Hp' at 1.
      split; [exact Hi'|]. split; [exact Hp' | reflexivity].
  - assert (Hjlive : coll_live t j).
    { unfold coll_live. rewrite Ho. apply (valid_index_not_marker t); assumption. }
    destruct (inv_owner _ _ Hinv j Hj Hjlive) as (_ & _ & i & Hi & Hji).
    cbv zeta in Hi, Hji. rewrite Ho in Hi, Hji.
    pose proof (inv_span _ _ Hinv _ Hb Hlive) as Hspan.
    unfold remove. cbv zeta. cbn [bucket_index collision_index].
    assert (Hvj : isInvalid j = false).
    { apply isInvalid_false. apply (valid_index_not_marker t); assumption. }
    assert (Hvb : isInvalid (bucket_of t key) = false).
    { apply isInvalid_false. apply (valid_index_not_marker t); assumption. }
    rewrite Hvj, Hvb.
    change (main_at (set_count t (wrap (element_count t - 1))) (bucket_of t key))
      with (main_at t (bucket_of t key)).
    rewrite (wrap_small (chain_length (main_at t (bucket_of t key)) - 1))
      by (rewrite size_modulus_eq; lia).
    rewrite (slot_land_eq HashFunction t (bucket_of t key)) by (try exact Hinv; lia).
    change (main_index (coll_at (set_count t (wrap (element_count t - 1))) j))
      with (main_index (coll_at t j)).
    rewrite Ho.
    pose proof (remove_coll_inv HashFunction t j Hinv Hj Hjlive) as Hrem.
    cbv zeta in Hrem. rewrite Ho in Hrem.
    destruct Hrem as [Hi' Hp'].
    assert (Hinc : exists it',
      (if slot t (bucket_of t key)
               (chain_length (main_at t (bucket_of t key)) - 1) =? j
       then increment (set_count t (wrap (element_count t - 1)))
              (mk_iterator (bucket_of t key) j (collision_value_ptr j))
       else Ok (mk_iterator (bucket_of t key) j (collision_value_ptr j)))
      = Ok it').
    { destruct (_ =? j); [|eexists; reflexivity].
      apply increment_ok; [exact Hcap|]. right. exact Hj. }
    destruct Hinc as [it' Hinc]. rewrite Hinc. cbn [bind].
    eexists _, _, (coll_value (coll_at t j)).
    split; [reflexivity|].
    split; [unfold deref; cbn [value_ptr]; rewrite Hkj; reflexivity|].
    rewrite Hkj in Hp' at 1.
    split; [exact Hi'|]. split; [exact Hp'|].
    destruct (_ =? j); reflexivity.
Qed.
End removal_op.

(** ** Growth *)

Section growth.
Context {KeyType ValueType : Type}.
Context `{!EqDecision KeyType, !Inhabited KeyType, !Inhabited ValueType}.
Variable HashFunction : KeyType -> Z.
Variable sizeof_MainEntry : Z.
Local Abbreviation HashMap := (@HashMap KeyType ValueType).
Local Abbreviation table_inv := (table_inv HashFunction).
Local Abbreviation table_ok := (table_ok HashFunction).
Local Abbreviation bucket_of := (bucket_of HashFunction).
Local Abbreviation find := (find HashFunction).
Local Abbreviation fresh_table := (@fresh_table KeyType ValueType _ _).
Local Abbreviation empty_map := (@empty_map KeyType ValueType).
Implicit Types (t : HashMap) (key : KeyType) (args : ValueType) (it : iterator).

Lemma fresh_main_at n x :
  main_at (fresh_table n) x
  = mk_main inhabitant inhabitant invalid_marker.
Proof.
  unfold main_at, mains, fresh_table. simpl.
  destruct (decide (Z.to_nat x < Z.to_nat n)%nat) as [Hlt|Hge].
  - apply lookup_total_replicate_2. exact Hlt.
  - rewrite list_lookup_total_alt.
    rewrite (proj1 (lookup_replicate_None _ _ _)) by lia. reflexivity.
Qed.

Lemma fresh_coll_at n x :
  coll_at (fresh_table n) x
  = mk_coll inhabitant inhabitant invalid_marker.
Proof.
  unfold coll_at, colls, fresh_table. simpl.
  destruct (decide (Z.to_nat x < Z.to_nat n)%nat) as [Hlt|Hge].
  - apply lookup_total_replicate_2. exact Hlt.
  - rewrite list_lookup_total_alt.
    rewrite (proj1 (lookup_replicate_None _ _ _)) by lia. reflexivity.
Qed.

Lemma fresh_inv k :
  0 <= k <= 63 ->
  table_inv (fresh_table (2 ^ k)) /\ dense (fresh_table (2 ^ k)).
Proof.
  intros Hk. pose proof (pow2_bounds k Hk) as Hp.
  assert (Hm : forall x, ~ main_live (fresh_table (2 ^ k)) x).
  { intros x. unfold main_live. rewrite fresh_main_at. simpl. tauto. }
  assert (Hc : forall x, ~ coll_live (fresh_table (2 ^ k)) x).
  { intros x. unfold coll_live. rewrite fresh_coll_at. simpl. tauto. }
  split.
  - constructor.
    + exists k. split; [exact Hk | reflexivity].
    + simpl. eexists; reflexivity.
    + simpl. eexists; reflexivity.
    + unfold mains. simpl. apply length_replicate.
    + unfold colls. simpl. apply length_replicate.
    + intros b _ Hl. destruct (Hm b Hl).
    + intros j _ Hl. destruct (Hc j Hl).
    + intros b _ Hl. destruct (Hm b Hl).
    + intros b _ Hl. destruct (Hm b Hl).
    + intros j _ Hl. destruct (Hc j Hl).
    + rewrite entries_fresh. constructor.
    + rewrite entries_fresh. reflexivity.
    + simpl. lia.
  - intros b i _ Hl. destruct (Hm b Hl).
Qed.

Lemma empty_map_entries : entries empty_map = [].
Proof. reflexivity. Qed.

(** *** [reserve]'s doubling loop *)

Lemma grow_limit_spec n :
  n < 2 ^ 63 ->
  forall fuel k,
    0 <= k <= 63 -> (63 - Z.to_nat k < fuel)%nat ->
    exists k', k <= k' <= 63 /\ grow_limit fuel (2 ^ k) n = Some (2 ^ k')
               /\ n <= 2 ^ k' /\ (k' = k \/ 2 ^ (k' - 1) < n).
Proof.
  intros Hn. induction fuel as [|fuel IH]; intros k Hk Hfuel; [lia|].
  cbn [grow_limit].
  destruct (Z.ltb_spec (2 ^ k) n) as [Hlt|Hge].
  - assert (Hk62 : k <= 62).
    { destruct (decide (k <= 62)); [assumption|].
      assert (k = 63) by lia. subst k. lia. }
    assert (Hdbl : wrap (2 ^ k * 2) = 2 ^ (k + 1)).
    { rewrite Z.pow_add_r by lia. change (2 ^ 1) with 2.
      apply wrap_small. rewrite size_modulus_eq.
      pose proof (pow2_bounds (k + 1) ltac:(lia)) as Hb.
      rewrite Z.pow_add_r in Hb by lia. change (2 ^ 1) with 2 in Hb.
      change (2 ^ 63) with 9223372036854775808 in Hb. lia. }
    rewrite Hdbl.
    destruct (IH (k + 1) ltac:(lia) ltac:(lia)) as (k' & Hk' & Hg & Hle & Hmin).
    exists k'. split; [lia|]. split; [exact Hg|]. split; [exact Hle|].
    right. destruct Hmin as [->|Hmin]; [|exact Hmin].
    replace (k + 1 - 1) with k by lia. exact Hlt.
  - exists k. split; [lia|]. split; [reflexivity|]. split; [lia|]. left. reflexivity.
Qed.

(** *** Replaying the live pairs into a new table *)

Lemma bind_Ok {A B} (m : outcome A) (f : A -> outcome B) (b : B) :
  bind m f = Ok b -> exists a, m = Ok a /\ f a = Ok b.
Proof. destruct m; simpl; intros H; try discriminate. eauto. Qed.

Lemma noexcept_Ok {A} (m : outcome A) (a : A) : noexcept m = Ok a -> m = Ok a.
Proof. destruct m; simpl; intros H; try discriminate; exact H. Qed.

Lemma reinsert_spec ins :
  ins_ok HashFunction ins ->
  forall l t0 t',
    table_inv t0 -> NoDup l.*1 ->
    (forall k, k ∈ l.*1 -> k ∉ (entries t0).*1) ->
    reinsert ins l t0 = Ok t' ->
    table_inv t' /\ entries t' ≡ₚ l ++ entries t0
    /\ bucket_count t0 <= bucket_count t' /\ (dense t0 -> dense t').
Proof.
  intros Hins. induction l as [|[k v] l IH]; intros t0 t' Hinv Hnd Hfresh Hre.
  - injection Hre as <-. split; [exact Hinv|]. split; [reflexivity|].
    split; [lia | tauto].
  - cbn [reinsert] in Hre. apply bind_Ok in Hre as (t1 & H1 & Hre).
    rewrite fmap_cons in Hnd. apply NoDup_cons in Hnd as [Hk Hnd].
    destruct (Hins t0 k v t1 Hinv) as (Hinv1 & Hp1 & Hc1 & Hd1).
    { apply Hfresh. rewrite fmap_cons. left. }
    { exact H1. }
    destruct (IH t1 t' Hinv1 Hnd) as (Hinv' & Hp' & Hc' & Hd'); [|exact Hre|].
    { intros k' Hk'. rewrite Hp1, fmap_cons. cbn [fst].
      rewrite not_elem_of_cons. split.
      - intros ->. exact (Hk Hk').
      - apply Hfresh. rewrite fmap_cons. right. exact Hk'. }
    split; [exact Hinv'|]. split.
    { rewrite Hp', Hp1. cbn [app]. symmetry. apply Permutation_middle. }
    split; [lia | tauto].
Qed.

Lemma table_ok_cases t :
  table_ok t ->
  (t = empty_map /\ main_table t = None) \/ (table_inv t /\ is_Some (main_table t)).
Proof.
  intros [->|Hinv]; [left; split; reflexivity|].
  right. split; [exact Hinv | exact (inv_main_alloc _ _ Hinv)].
Qed.

Lemma resize_table_spec ins k t t' :
  ins_ok HashFunction ins -> table_ok t -> 0 <= k <= 63 ->
  resize_table_with ins (2 ^ k) t = Ok t' ->
  table_inv t' /\ entries t' ≡ₚ entries t /\ 2 ^ k <= bucket_count t'
  /\ dense t'.
Proof.
  intros Hins Hok Hk Hre. unfold resize_table_with in Hre.
  rewrite (pow2_check k Hk) in Hre. cbn in Hre.
  destruct (fresh_inv k Hk) as [Hfi Hfd].
  destruct (table_ok_cases t Hok) as [[-> Hn]|[Hinv [ml Hs]]].
  - cbn in Hre. injection Hre as <-.
    split; [exact Hfi|]. split; [rewrite entries_fresh; reflexivity|].
    split; [reflexivity | exact Hfd].
  - rewrite Hs in Hre. apply noexcept_Ok in Hre.
    destruct (reinsert_spec ins Hins (entries t) (fresh_table (2 ^ k)) t' Hfi
                (inv_keys _ _ Hinv)) as (Hinv' & Hp' & Hc' & Hd'); [|exact Hre|].
    { intros k0 _. rewrite entries_fresh. apply not_elem_of_nil. }
    rewrite entries_fresh, app_nil_r in Hp'.
    split; [exact Hinv'|]. split; [exact Hp'|].
    split; [exact Hc' | exact (Hd' Hfd)].
Qed.

Lemma table_ok_capacity t :
  table_ok t ->
  exists k, 0 <= k <= 63
            /\ (if bucket_count t =? 0 then 1 else bucket_count t) = 2 ^ k
            /\ bucket_count t <= 2 ^ k.
Proof.
  intros [->|Hinv].
  - exists 0. split; [lia|]. split; [reflexivity | simpl; lia].
  - destruct (inv_capacity _ _ Hinv) as (k & Hk & Hc). exists k.
    pose proof (pow2_bounds k Hk). rewrite Hc.
    destruct (Z.eqb_spec (2 ^ k) 0); [lia|]. split; [exact Hk|]. split; [reflexivity | lia].
Qed.

Lemma size_max_half : size_max / 2 = 2 ^ 63 - 1.
Proof. reflexivity. Qed.

Lemma reserve_spec ins n t t' :
  ins_ok HashFunction ins -> table_ok t ->
  reserve_with ins n t = Ok t' ->
  table_inv t' /\ entries t' ≡ₚ entries t /\ n <= bucket_count t'
  /\ bucket_count t <= bucket_count t' /\ dense t'.
Proof.
  intros Hins Hok Hre. unfold reserve_with in Hre.
  destruct (Z.geb_spec n (size_max / 2)) as [?|Hn]; [discriminate|].
  rewrite size_max_half in Hn.
  destruct (table_ok_capacity t Hok) as (k & Hk & Hbl & Hle).
  rewrite Hbl in Hre.
  destruct (grow_limit_spec n ltac:(lia) 65 k Hk ltac:(lia))
    as (k' & Hk' & Hg & Hnle & _).
  rewrite Hg in Hre.
  destruct (resize_table_spec ins k' t t' Hins Hok ltac:(lia) Hre)
    as (Hinv' & Hp' & Hc' & Hd').
  split; [exact Hinv'|]. split; [exact Hp'|]. split; [lia|]. split; [|exact Hd'].
  assert (2 ^ k <= 2 ^ k') by (apply Z.pow_le_mono_r; lia). lia.
Qed.
End growth.

(** ** Insertion *)

Section insertion.
Context {KeyType ValueType : Type}.
Context `{!EqDecision KeyType, !Inhabited KeyType, !Inhabited ValueType}.
Variable HashFunction : KeyType -> Z.
Variable sizeof_MainEntry : Z.
Local Abbreviation HashMap := (@HashMap KeyType ValueType).
Local Abbreviation table_inv := (table_inv HashFunction).
Local Abbreviation table_ok := (table_ok HashFunction).
Local Abbreviation bucket_of := (bucket_of HashFunction).
Local Abbreviation find := (find HashFunction).
Local Abbreviation try_insert := (try_insert HashFunction sizeof_MainEntry).
Local Abbreviation resize_and_place :=
  (resize_and_place HashFunction sizeof_MainEntry).
Local Abbreviation try_insert_ok :=
  (@try_insert_ok KeyType ValueType _ _ _ HashFunction sizeof_MainEntry).
Local Abbreviation resize_and_place_ok :=
  (@resize_and_place_ok KeyType ValueType _ _ _ HashFunction sizeof_MainEntry).
Local Abbreviation insert_post := (insert_post HashFunction).
Local Abbreviation empty_map := (@empty_map KeyType ValueType).
Implicit Types (t : HashMap) (key : KeyType) (args : ValueType) (it : iterator).

Lemma try_insert_S fuel t key args :
  try_insert (S fuel) t key args =
  let reserve :=
    reserve_with (fun t k v => drop_result (try_insert fuel t k v)) in
  do t <- (match main_table t with
           | None => reserve 16 t
           | Some _ => Ok t
           end);
  do iter <- find t key;
  if negb (bool_decide (value_ptr iter = nullptr)) then Ok (t, (iter, false))
  else
    let new_bucket_count := wrap (element_count t + 1) in
    if bucket_count t <? new_bucket_count
    then resize_and_place fuel new_bucket_count t key args
    else place sizeof_MainEntry (resize_and_place fuel) t iter key args.
Proof. reflexivity. Qed.

Lemma resize_and_place_S fuel nbc t key args :
  resize_and_place (S fuel) nbc t key args =
  let reserve :=
    reserve_with (fun t k v => drop_result (try_insert fuel t k v)) in
  do t <- reserve nbc t;
  do iter <- find t key;
  place sizeof_MainEntry (resize_and_place fuel) t iter key args.
Proof. reflexivity. Qed.

Lemma found_cursor t key it :
  table_inv t -> find_post HashFunction t key it -> value_ptr it <> nullptr ->
  exists v, deref t it = Some (key, v) /\ (key, v) ∈ entries t.
Proof.
  intros Hinv Hpost Hnn.
  pose proof (bucket_of_range _ t key Hinv) as Hb.
  destruct Hpost as [Hlive Hk ->|j Hj Hlive Hk Ho Hkj ->|? ? ->|? ? ->];
    try (exfalso; apply Hnn; reflexivity).
  - exists (main_value (main_at t (bucket_of t key))).
    unfold deref. cbn [value_ptr]. rewrite Hk. split; [reflexivity|].
    apply elem_of_entries. left. exists (bucket_of t key).
    rewrite (inv_main_len _ t Hinv). split; [exact Hb|]. split; [exact Hlive|].
    rewrite Hk. reflexivity.
  - exists (coll_value (coll_at t j)).
    unfold deref. cbn [value_ptr]. rewrite Hkj. split; [reflexivity|].
    apply elem_of_entries. right. exists j.
    rewrite (inv_coll_len _ t Hinv). split; [exact Hj|]. split.
    + unfold coll_live. rewrite Ho.
      apply (valid_index_not_marker t); [apply Hinv | exact Hb].
    + rewrite Hkj. reflexivity.
Qed.

Lemma key_of_entry t key v : (key, v) ∈ entries t -> key ∈ (entries t).*1.
Proof. intros H. apply list_elem_of_fmap. exists (key, v). split; [reflexivity | exact H]. Qed.

Lemma drop_result_Ok (m : outcome (@insert_result KeyType ValueType)) t' :
  drop_result m = Ok t' -> exists r, m = Ok r /\ fst r = t'.
Proof.
  unfold drop_result. intros H. apply bind_Ok in H as (r & Hm & Hr).
  injection Hr as <-. exists r. split; [exact Hm | reflexivity].
Qed.

Lemma ins_ok_of_try_insert fuel :
  try_insert_ok fuel ->
  ins_ok HashFunction
         (fun (t : HashMap) k v => drop_result (try_insert fuel t k v)).
Proof.
  intros Hti t key args t' Hinv Hkey Hins.
  apply drop_result_Ok in Hins as (r & Hr & <-).
  destruct (Hti t key args r (or_intror Hinv) Hr) as [(Hi & Hc & _ & Hb) Hd].
  destruct (snd (snd r)).
  - destruct Hb as [_ Hp]. split; [exact Hi|]. split; [exact Hp|].
    split; [exact Hc | exact Hd].
  - destruct Hb as [_ Hin]. destruct (Hkey Hin).
Qed.

Lemma place_step fuel t it key args r :
  resize_and_place_ok fuel ->
  table_inv t -> find_post HashFunction t key it -> value_ptr it = nullptr ->
  element_count t + 1 <= bucket_count t ->
  place sizeof_MainEntry (resize_and_place fuel) t it key args = Ok r ->
  insert_post t key args r /\ snd (snd r) = true /\ (dense t -> dense (fst r)).
Proof.
  intros Hrp Hinv Hpost Hnull Hroom Hplace.
  pose proof (inv_cap_bounds _ t Hinv) as Hc.
  destruct (absent_cursor HashFunction t key it Hinv Hpost Hnull) as (Hkey & _ & _).
  assert (Hdec : choose_placement sizeof_MainEntry t it = Expand
                 \/ choose_placement sizeof_MainEntry t it <> Expand).
  { destruct (choose_placement sizeof_MainEntry t it);
      (left; reflexivity) || (right; discriminate). }
  destruct Hdec as [Hch|Hch].
  - unfold place in Hplace. rewrite Hch in Hplace.
    rewrite wrap_small in Hplace by (rewrite size_modulus_eq; lia).
    pose proof (inv_room _ _ Hinv).
    destruct (Hrp (bucket_count t + 1) t key args r Hinv Hkey ltac:(lia) Hplace)
      as (Hpost' & Htrue & Hd').
    split; [exact Hpost'|]. split; [exact Htrue | intros _; exact Hd'].
  - destruct (place_ok HashFunction sizeof_MainEntry (resize_and_place fuel)
                t it key args r Hinv Hpost Hnull Hroom Hch Hplace)
      as (Hi' & Hp' & Hbc & Hd' & Htrue & Hderef).
    split; [|split; [exact Htrue | exact Hd']].
    split; [exact Hi'|]. split; [lia|]. split.
    + exists args. split; [exact Hderef|]. rewrite Hp'. left.
    + rewrite Htrue. split; [exact Hkey | exact Hp'].
Qed.

Lemma insert_post_perm t0 t key args r :
  entries t ≡ₚ entries t0 -> bucket_count t0 <= bucket_count t ->
  snd (snd r) = true ->
  insert_post t key args r -> insert_post t0 key args r.
Proof.
  intros Hp Hc Htrue (Hi & Hc' & Hd & Hb). rewrite Htrue in Hb.
  split; [exact Hi|]. split; [lia|]. split; [exact Hd|]. rewrite Htrue.
  rewrite <- Hp. exact Hb.
Qed.

Theorem try_insert_spec fuel : try_insert_ok fuel /\ resize_and_place_ok fuel.
Proof.
  induction fuel as [|fuel [IHt IHr]].
  { split.
    - intros t key args r _ H. discriminate.
    - intros nbc t key args r _ _ _ H. discriminate. }
  pose proof (ins_ok_of_try_insert fuel IHt) as Hins.
  split.
  - intros t key args r Hok Hti. rewrite try_insert_S in Hti. cbv zeta in Hti.
    apply bind_Ok in Hti as (t1 & H1 & Hti).
    assert (Ht1 : table_inv t1 /\ entries t1 ≡ₚ entries t
                  /\ bucket_count t <= bucket_count t1
                  /\ (dense t -> dense t1)
                  /\ (is_Some (main_table t) -> t1 = t)
                  /\ (main_table t = None -> entries t1 = [])).
    { destruct (table_ok_cases HashFunction t Hok) as [[-> Hn]|[Hinv [ml Hs]]].
      - cbn in H1.
        destruct (reserve_spec HashFunction _ _ _ _ Hins (or_introl eq_refl) H1)
          as (Hi1 & Hp1 & _ & Hc1 & Hd1).
        split; [exact Hi1|]. split; [exact Hp1|]. split; [exact Hc1|].
        split; [intros _; exact Hd1|]. split.
        + intros [? Hx]. discriminate.
        + intros _. apply Permutation_nil. symmetry. exact Hp1.
      - rewrite Hs in H1. injection H1 as <-.
        split; [exact Hinv|]. split; [reflexivity|]. split; [lia|].
        split; [tauto|]. split; [reflexivity|]. rewrite Hs. discriminate. }
    destruct Ht1 as (Hi1 & Hp1 & Hc1 & Hd1 & Hsame & Hnil).
    destruct (find_ok HashFunction t1 key Hi1) as (it & Hfind & Hpost).
    rewrite Hfind in Hti. cbn [bind] in Hti.
    pose proof (inv_cap_bounds _ t1 Hi1) as Hcb.
    pose proof (inv_room _ _ Hi1) as Hroom.
    pose proof (inv_count_nonneg HashFunction t1 Hi1) as Hnn.
    destruct (decide (value_ptr it = nullptr)) as [Hnull|Hnn'].
    + rewrite bool_decide_eq_true_2 in Hti by exact Hnull. cbn [negb] in Hti.
      rewrite wrap_small in Hti by (rewrite size_modulus_eq; lia).
      destruct (absent_cursor HashFunction t1 key it Hi1 Hpost Hnull) as (Hkey & _ & _).
      assert (Hres : insert_post t1 key args r /\ snd (snd r) = true
                     /\ (dense t1 -> dense (fst r))).
      { destruct (Z.ltb_spec (bucket_count t1) (element_count t1 + 1)) as [Hlt|Hge].
        - destruct (IHr (element_count t1 + 1) t1 key args r Hi1 Hkey ltac:(lia) Hti) as (Hq & Htrue & Hd).
          split; [exact Hq|]. split; [exact Htrue | intros _; exact Hd].
        - apply (place_step fuel t1 it key args r IHr Hi1 Hpost Hnull Hge Hti). }
      destruct Hres as (Hq & Htrue & Hd).
      split; [|tauto].
      apply (insert_post_perm t t1 key args r Hp1 Hc1 Htrue Hq).
    + rewrite bool_decide_eq_false_2 in Hti by exact Hnn'. cbn [negb] in Hti.
      injection Hti as <-. cbn [fst snd].
      destruct (found_cursor t1 key it Hi1 Hpost Hnn') as (v & Hderef & Hin).
      assert (Hsome : is_Some (main_table t)).
      { destruct (main_table t) eqn:Hm; [eexists; reflexivity|].
        rewrite (Hnil eq_refl) in Hin. apply elem_of_nil in Hin. destruct Hin. }
      specialize (Hsame Hsome). subst t1.
      split; [|tauto].
      split; [exact Hi1|]. split; [cbn [fst]; lia|].
      split; [exists v; split; assumption|].
      cbn [fst snd]. split; [reflexivity|]. exact (key_of_entry t key v Hin).
  - intros nbc t key args r Hinv Hkey Hnbc Hrp.
    rewrite resize_and_place_S in Hrp. cbv zeta in Hrp.
    apply bind_Ok in Hrp as (t1 & H1 & Hrp).
    destruct (reserve_spec HashFunction _ _ _ _ Hins (or_intror Hinv) H1)
      as (Hi1 & Hp1 & Hn1 & Hc1 & Hd1).
    destruct (find_ok HashFunction t1 key Hi1) as (it & Hfind & Hpost).
    rewrite Hfind in Hrp. cbn [bind] in Hrp.
    assert (Hkey1 : key ∉ (entries t1).*1) by (rewrite Hp1; exact Hkey).
    assert (Hnull : value_ptr it = nullptr).
    { destruct (decide (value_ptr it = nullptr)) as [?|Hnn]; [assumption|].
      destruct (found_cursor t1 key it Hi1 Hpost Hnn) as (v & _ & Hin).
      destruct (Hkey1 (key_of_entry t1 key v Hin)). }
    assert (Hcnt : element_count t1 = element_count t).
    { rewrite (inv_count _ _ Hi1), (inv_count _ _ Hinv), Hp1. reflexivity. }
    destruct (place_step fuel t1 it key args r IHr Hi1 Hpost Hnull ltac:(lia) Hrp)
      as (Hq & Htrue & Hd).
    split; [|split; [exact Htrue | exact (Hd Hd1)]].
    apply (insert_post_perm t t1 key args r Hp1 Hc1 Htrue Hq).
Qed.
End insertion.

(** ** Erase by key and runs of operations *)

Section runs.
Context {KeyType ValueType : Type}.
Context `{!EqDecision KeyType, !Inhabited KeyType, !Inhabited ValueType}.
Variable HashFunction : KeyType -> Z.
Variable sizeof_MainEntry : Z.
Local Abbreviation HashMap := (@HashMap KeyType ValueType).
Local Abbreviation table_inv := (table_inv HashFunction).
Local Abbreviation table_ok := (table_ok HashFunction).
Local Abbreviation find := (find HashFunction).
Local Abbreviation remove_key := (remove_key HashFunction).
Local Abbreviation try_insert := (try_insert HashFunction sizeof_MainEntry).
Local Abbreviation apply_op := (apply_op HashFunction sizeof_MainEntry).
Local Abbreviation run := (run HashFunction sizeof_MainEntry).
Local Abbreviation empty_map := (@empty_map KeyType ValueType).
Implicit Types (t : HashMap) (key : KeyType) (it : iterator).

Lemma remove_key_null t key it :
  find t key = Ok it -> value_ptr it = nullptr ->
  remove_key t key = Ok (t, RVoid).
Proof.
  intros Hfind Hnull. unfold turbokit.remove_key. rewrite Hfind. cbn [bind].
  unfold iterator_eq. cbn [end_ value_ptr].
  rewrite bool_decide_eq_true_2 by exact Hnull. reflexivity.
Qed.

Lemma find_absent t key :
  table_ok t -> key ∉ (entries t).*1 ->
  exists it, find t key = Ok it /\ value_ptr it = nullptr.
Proof.
  intros [->|Hinv] Hkey.
  - eexists. split; reflexivity.
  - destruct (find_ok HashFunction t key Hinv) as (it & Hfind & Hpost).
    exists it. split; [exact Hfind|].
    destruct (decide (value_ptr it = nullptr)) as [?|Hnn]; [assumption|].
    destruct (found_cursor HashFunction t key it Hinv Hpost Hnn) as (v & _ & Hin).
    destruct (Hkey (key_of_entry t key v Hin)).
Qed.

Lemma find_present t key v :
  table_inv t -> (key, v) ∈ entries t ->
  exists it, find t key = Ok it /\ value_ptr it <> nullptr
             /\ find_post HashFunction t key it /\ deref t it = Some (key, v).
Proof.
  intros Hinv Hin.
  destruct (find_ok HashFunction t key Hinv) as (it & Hfind & Hpost).
  exists it. split; [exact Hfind|].
  assert (Hnn : value_ptr it <> nullptr).
  { intros Hnull.
    destruct (absent_cursor HashFunction t key it Hinv Hpost Hnull) as (Hk & _).
    apply Hk. exact (key_of_entry t key v Hin). }
  split; [exact Hnn|]. split; [exact Hpost|].
  destruct (found_cursor HashFunction t key it Hinv Hpost Hnn) as (v' & Hd & Hin').
  rewrite Hd. do 2 f_equal.
  exact (NoDup_fst_unique (entries t) key v' v (inv_keys _ _ Hinv) Hin' Hin).
Qed.

Lemma remove_key_absent t key :
  table_ok t -> key ∉ (entries t).*1 -> remove_key t key = Ok (t, RVoid).
Proof.
  intros Hok Hkey. destruct (find_absent t key Hok Hkey) as (it & Hf & Hn).
  exact (remove_key_null t key it Hf Hn).
Qed.

Lemma remove_key_present t key v :
  table_inv t -> (key, v) ∈ entries t ->
  exists t', remove_key t key = Ok (t', RVoid)
             /\ table_inv t' /\ entries t ≡ₚ (key, v) :: entries t'
             /\ bucket_count t' = bucket_count t.
Proof.
  intros Hinv Hin.
  destruct (find_present t key v Hinv Hin) as (it & Hfind & Hnn & Hpost & Hd).
  destruct (remove_ok HashFunction t key it Hinv Hpost Hnn)
    as (t' & it' & v' & Hrem & Hd' & Hinv' & Hperm & Hbc).
  assert (v' = v) by congruence. subst v'.
  exists t'. split; [|split; [exact Hinv'|split; [exact Hperm | exact Hbc]]].
  unfold turbokit.remove_key. rewrite Hfind. cbn [bind].
  unfold iterator_eq. cbn [end_ value_ptr].
  rewrite bool_decide_eq_false_2 by exact Hnn. cbn [negb].
  rewrite Hrem. reflexivity.
Qed.

(** Erasing a key: the pair with that key goes, everything else stays. *)
Lemma remove_key_spec t key :
  table_ok t ->
  exists t', remove_key t key = Ok (t', RVoid) /\ table_ok t'
             /\ bucket_count t' = bucket_count t
             /\ (key ∉ (entries t').*1)
             /\ (forall kv, kv ∈ entries t' <-> kv ∈ entries t /\ kv.1 <> key)
             /\ (key ∉ (entries t).*1 -> t' = t).
Proof.
  intros Hok.
  destruct (decide (key ∈ (entries t).*1)) as [Hin|Hnin].
  - apply list_elem_of_fmap in Hin as ([k v] & Hk & Hin). cbn in Hk. subst k.
    assert (Hinv : table_inv t).
    { destruct Hok as [->|?]; [apply elem_of_nil in Hin; destruct Hin | assumption]. }
    destruct (remove_key_present t key v Hinv Hin) as (t' & Hr & Hinv' & Hp & Hbc).
    pose proof (inv_keys _ _ Hinv) as Hnd. rewrite Hp, fmap_cons in Hnd.
    apply NoDup_cons in Hnd as [Hk' Hnd'].
    exists t'. split; [exact Hr|]. split; [right; exact Hinv'|].
    split; [exact Hbc|]. split; [exact Hk'|]. split.
    + intros kv. rewrite Hp, elem_of_cons. split.
      * intros Hkv. split; [right; exact Hkv|].
        intros E. apply Hk'. rewrite <- E.
        apply list_elem_of_fmap. exists kv. split; [reflexivity | exact Hkv].
      * intros [[->|Hkv] Hne]; [destruct (Hne eq_refl) | exact Hkv].
    + intros Hn. exfalso. apply Hn. rewrite Hp, fmap_cons. left.
  - exists t. split; [exact (remove_key_absent t key Hok Hnin)|].
    split; [exact Hok|]. split; [reflexivity|]. split; [exact Hnin|]. split.
    + intros kv. split; [|tauto]. intros Hkv. split; [exact Hkv|].
      intros E. apply Hnin. rewrite <- E.
      apply list_elem_of_fmap. exists kv. split; [reflexivity | exact Hkv].
    + reflexivity.
Qed.

Lemma apply_op_ok fuel t op t' :
  table_ok t -> apply_op fuel t op = Ok t' -> table_ok t'.
Proof.
  intros Hok Hop. destruct op as [key value|key]; cbn [turbokit.apply_op] in Hop.
  - apply drop_result_Ok in Hop as (r & Hr & <-).
    destruct (@try_insert_spec KeyType ValueType _ _ _ HashFunction
                sizeof_MainEntry fuel) as [Hti _].
    destruct (Hti t key value r Hok Hr) as [(Hinv & _) _]. right. exact Hinv.
  - destruct (remove_key_spec t key Hok) as (t1 & Hr & Hok1 & _).
    rewrite Hr in Hop. injection Hop as <-. exact Hok1.
Qed.

(** Every table a run of insertions and erasures reaches is consistent. *)
Lemma run_ok fuel ops : forall t t',
  table_ok t -> run fuel ops t = Ok t' -> table_ok t'.
Proof.
  induction ops as [|op ops IH]; intros t t' Hok Hrun.
  - injection Hrun as <-. exact Hok.
  - cbn [turbokit.run] in Hrun. apply bind_Ok in Hrun as (t1 & H1 & Hrun).
    apply (IH t1 t' (apply_op_ok fuel t op t1 Hok H1) Hrun).
Qed.
End runs.

(** ** Counting live slots *)

Lemma filter_ext_elem {A} (P1 P2 : A -> Prop)
    `{!forall x, Decision (P1 x), !forall x, Decision (P2 x)} (l : list A) :
  (forall x, x ∈ l -> P1 x <-> P2 x) -> filter P1 l = filter P2 l.
Proof.
  induction l as [|a l IH]; intros Hiff; [reflexivity|].
  assert (Ha : P1 a <-> P2 a) by (apply Hiff; left).
  assert (Hl : filter P1 l = filter P2 l).
  { apply IH. intros x Hx. apply Hiff. right. exact Hx. }
  destruct (decide (P1 a)) as [H1|H1].
  - rewrite !filter_cons_True by tauto. rewrite Hl. reflexivity.
  - rewrite !filter_cons_False by tauto. exact Hl.
Qed.

Lemma live_positions_length {A B} (f : A -> option B) (l : list A) :
  length (filter (fun i => is_Some (l !! i ≫= f)) (seq 0 (length l)))
  = length (omap f l).
Proof.
  induction l as [|x l IH] using rev_ind; [reflexivity|].
  rewrite length_app. cbn [length]. rewrite Nat.add_1_r, seq_S, filter_app.
  rewrite omap_app, !length_app. f_equal.
  - rewrite <- IH. f_equal. apply filter_ext_elem.
    intros i Hi. apply elem_of_seq in Hi.
    rewrite lookup_app_l by lia. reflexivity.
  - cbn [Nat.add]. rewrite filter_cons, filter_nil.
    rewrite list_lookup_middle by reflexivity. cbn.
    destruct (f x); cbn.
    + rewrite decide_True by (eexists; reflexivity). reflexivity.
    + rewrite decide_False by (intros [? ?]; discriminate). reflexivity.
Qed.

Lemma live_positions_bound {A B} (f : A -> option B) (l : list A) (L : list nat) :
  NoDup L ->
  (forall i, i ∈ L -> exists x, l !! i = Some x /\ is_Some (f x)) ->
  (length L <= length (omap f l))%nat.
Proof.
  intros Hnd HL. rewrite <- live_positions_length.
  apply submseteq_length, NoDup_submseteq; [exact Hnd|].
  intros i Hi. destruct (HL i Hi) as (x & Hx & Hfx).
  apply list_elem_of_filter. split.
  - rewrite Hx. exact Hfx.
  - apply elem_of_seq. pose proof (lookup_lt_Some _ _ _ Hx). lia.
Qed.

Section density.
Context {KeyType ValueType : Type}.
Context `{!EqDecision KeyType, !Inhabited KeyType, !Inhabited ValueType}.
Variable HashFunction : KeyType -> Z.
Variable sizeof_MainEntry : Z.
Local Abbreviation HashMap := (@HashMap KeyType ValueType).
Local Abbreviation table_inv := (table_inv HashFunction).
Local Abbreviation bucket_of := (bucket_of HashFunction).
Implicit Types (t : HashMap) (key : KeyType) (args : ValueType) (it : iterator).

(** A run of [m] occupied collision slots leaves room for at most
    [count - 1 - m] more pairs: some home slot is occupied as well. *)
Lemma live_run_bound t b0 base m :
  table_inv t -> 0 <= b0 < bucket_count t -> main_live t b0 -> 0 <= m ->
  (forall i, 0 <= i < m -> coll_live t (slot t base i)) ->
  m + 1 <= element_count t.
Proof.
  intros Hinv Hb0 Hl0 Hm Hrun.
  pose proof (inv_cap_bounds _ t Hinv) as Hc.
  pose proof (inv_capacity _ _ Hinv) as Hcap.
  pose proof (inv_room _ _ Hinv) as Hroom.
  pose proof (inv_count _ _ Hinv) as Hcnt.
  set (m' := Z.min m (bucket_count t)).
  set (L := (fun i => Z.to_nat (slot t base i)) <$> seqZ 0 m').
  assert (HndL : NoDup L).
  { apply NoDup_fmap_2_strong; [|apply NoDup_seqZ].
    intros x y Hx Hy E. apply elem_of_seqZ in Hx, Hy.
    pose proof (cap_slot_range t base x Hcap).
    pose proof (cap_slot_range t base y Hcap).
    apply (slot_inj t base); lia. }
  assert (HlenL : length L = Z.to_nat m').
  { unfold L. rewrite length_fmap, length_seqZ. reflexivity. }
  assert (Hcoll : (length L <= length (omap live_coll (colls t)))%nat).
  { apply live_positions_bound; [exact HndL|].
    intros i Hi. apply list_elem_of_fmap in Hi as (x & -> & Hx).
    apply elem_of_seqZ in Hx.
    pose proof (cap_slot_range t base x Hcap) as Hr.
    exists (coll_at t (slot t base x)). split.
    - apply coll_lookup. rewrite (inv_coll_len _ t Hinv). exact Hr.
    - assert (Hlv : coll_live t (slot t base x)) by (apply Hrun; lia).
      unfold live_coll. destruct (isInvalid _) eqn:Hv; [|eexists; reflexivity].
      apply isInvalid_true in Hv. destruct (Hlv Hv). }
  assert (Hmain : (1 <= length (omap live_main (mains t)))%nat).
  { assert (Hin : (main_key (main_at t b0), main_value (main_at t b0))
                  ∈ omap live_main (mains t)).
    { apply list_elem_of_omap. exists (main_at t b0). split.
      - eapply list_elem_of_lookup_2. apply main_lookup.
        rewrite (inv_main_len _ t Hinv). exact Hb0.
      - apply live_main_Some. split; [exact Hl0 | reflexivity]. }
    destruct (omap live_main (mains t)); [apply elem_of_nil in Hin; destruct Hin|].
    cbn. lia. }
  unfold entries in Hcnt. rewrite length_app in Hcnt.
  assert (m' + 1 <= element_count t) by lia.
  lia.
Qed.

Lemma slot_shift t b c i : slot t (b + c) i = slot t b (c + i).
Proof. unfold slot. f_equal. lia. Qed.

(** With room for one more pair the probe finds a free slot. *)
Lemma probe_total t b off :
  table_inv t -> 0 <= b < bucket_count t -> main_live t b ->
  exists idx ns,
    probe (Z.to_nat (bucket_count t)) t (slot t b off) (off + 1) = Some (idx, ns).
Proof.
  intros Hinv Hb Hl.
  pose proof (inv_cap_bounds _ t Hinv) as Hc.
  pose proof (inv_room _ _ Hinv) as Hroom.
  destruct (probe _ t _ _) as [[idx ns]|] eqn:Hp; [eexists _, _; reflexivity|].
  exfalso.
  pose proof (probe_None t b (inv_capacity _ _ Hinv) _ off Hp) as Hall.
  assert (Hrun : forall i, 0 <= i < bucket_count t ->
                           coll_live t (slot t (b + off) i)).
  { intros i Hi. rewrite slot_shift. apply Hall. lia. }
  pose proof (live_run_bound t b (b + off) (bucket_count t) Hinv Hb Hl
                ltac:(lia) Hrun).
  lia.
Qed.

(** In a dense table the new span never exceeds the number of pairs. *)
Lemma dense_span_bound t b idx ns :
  table_inv t -> dense t -> 0 <= b < bucket_count t -> main_live t b ->
  probe (Z.to_nat (bucket_count t)) t
        (slot t b (chain_length (main_at t b)))
        (chain_length (main_at t b) + 1) = Some (idx, ns) ->
  ns <= element_count t.
Proof.
  intros Hinv Hd Hb Hl Hp.
  pose proof (inv_cap_bounds _ t Hinv) as Hc.
  pose proof (inv_span _ _ Hinv _ Hb Hl) as Hspan.
  apply (probe_spec t b (inv_capacity _ _ Hinv)) in Hp;
    [|lia|rewrite size_modulus_eq; lia].
  destruct Hp as (Hns & _ & _ & Hlive).
  assert (Hrun : forall i, 0 <= i < ns - 1 -> coll_live t (slot t b i)).
  { intros i Hi.
    destruct (decide (i < chain_length (main_at t b))) as [Hlt|Hge].
    - apply Hd; [exact Hb | exact Hl | lia].
    - apply Hlive. lia. }
  pose proof (live_run_bound t b b (ns - 1) Hinv Hb Hl ltac:(lia) Hrun).
  lia.
Qed.

Lemma large_limit_bound : large_limit sizeof_MainEntry <= 2 ^ 22.
Proof.
  unfold large_limit. change (1024 * 1024 * 4) with (2 ^ 22).
  destruct (Z_lt_le_dec 0 sizeof_MainEntry) as [Hpos|Hnp].
  - apply Z.div_le_upper_bound; [exact Hpos|]. change (2 ^ 22) with 4194304. nia.
  - destruct (Z.eq_dec sizeof_MainEntry 0) as [->|Hnz].
    + rewrite Z.div_0_r. lia.
    + pose proof (Z.div_mod (2 ^ 22) sizeof_MainEntry Hnz) as Hdm.
      pose proof (Z.mod_neg_bound (2 ^ 22) sizeof_MainEntry ltac:(lia)) as Hmb.
      change (2 ^ 22) with 4194304 in *. nia.
Qed.
End density.

(** ** Insertion returns: growth stops once the table is large enough *)

Section termination.
Context {KeyType ValueType : Type}.
Context `{!EqDecision KeyType, !Inhabited KeyType, !Inhabited ValueType}.
Variable HashFunction : KeyType -> Z.
Variable sizeof_MainEntry : Z.
Local Abbreviation HashMap := (@HashMap KeyType ValueType).
Local Abbreviation table_inv := (table_inv HashFunction).
Local Abbreviation table_ok := (table_ok HashFunction).
Local Abbreviation bucket_of := (bucket_of HashFunction).
Local Abbreviation find := (find HashFunction).
Local Abbreviation try_insert := (try_insert HashFunction sizeof_MainEntry).
Local Abbreviation resize_and_place :=
  (resize_and_place HashFunction sizeof_MainEntry).
Local Abbreviation choose_placement := (choose_placement sizeof_MainEntry).
Local Abbreviation place := (place sizeof_MainEntry).
Local Abbreviation insert_post := (insert_post HashFunction).
Local Abbreviation empty_map := (@empty_map KeyType ValueType).
Local Abbreviation fresh_table := (@fresh_table KeyType ValueType _ _).
Implicit Types (t : HashMap) (key : KeyType) (args : ValueType) (it : iterator).

Lemma placement_cases t it key :
  table_inv t -> find_post HashFunction t key it -> value_ptr it = nullptr ->
  (choose_placement t it = PlaceMain) \/
  (choose_placement t it = Expand) \/
  (exists idx ns, choose_placement t it = PlaceCollision idx ns).
Proof.
  intros Hinv Hpost Hnull.
  pose proof (inv_cap_bounds _ t Hinv) as Hc.
  pose proof (bucket_of_range _ t key Hinv) as Hb.
  destruct (absent_cursor HashFunction t key it Hinv Hpost Hnull) as (_ & Hbi & Hcase).
  unfold turbokit.choose_placement. rewrite Hbi.
  destruct Hcase as [[_ Hci]|[Hlive Hci]]; rewrite Hci.
  - left. reflexivity.
  - pose proof (inv_span _ _ Hinv _ Hb Hlive) as Hspan.
    pose proof (slot_range _ t (bucket_of t key)
                  (chain_length (main_at t (bucket_of t key))) Hinv) as Hsr.
    assert (Hv : isInvalid (slot t (bucket_of t key)
                   (chain_length (main_at t (bucket_of t key)))) = false).
    { apply isInvalid_false. rewrite invalid_marker_eq. lia. }
    rewrite Hv. right.
    destruct (_ && _); [left; reflexivity|].
    rewrite wrap_small by (rewrite size_modulus_eq; lia).
    destruct (probe_total HashFunction t (bucket_of t key)
                (chain_length (main_at t (bucket_of t key))) Hinv Hb Hlive)
      as (idx & ns & ->).
    destruct (_ || _); [left; reflexivity|].
    right. eexists _, _. reflexivity.
Qed.

(** A dense table at least as large as [large_limit] and four times its
    future size does not grow. *)
Lemma quiet_placement t it key :
  table_inv t -> dense t ->
  find_post HashFunction t key it -> value_ptr it = nullptr ->
  large_limit sizeof_MainEntry <= bucket_count t ->
  4 * (element_count t + 1) <= bucket_count t ->
  (choose_placement t it) <> Expand.
Proof.
  intros Hinv Hd Hpost Hnull Hlarge Hfour.
  pose proof (inv_cap_bounds _ t Hinv) as Hc.
  pose proof (bucket_of_range _ t key Hinv) as Hb.
  pose proof (inv_count_nonneg HashFunction t Hinv) as Hnn.
  destruct (absent_cursor HashFunction t key it Hinv Hpost Hnull) as (_ & Hbi & Hcase).
  unfold turbokit.choose_placement. rewrite Hbi.
  destruct Hcase as [[_ Hci]|[Hlive Hci]]; rewrite Hci.
  - discriminate.
  - pose proof (inv_span _ _ Hinv _ Hb Hlive) as Hspan.
    pose proof (slot_range _ t (bucket_of t key)
                  (chain_length (main_at t (bucket_of t key))) Hinv) as Hsr.
    assert (Hv : isInvalid (slot t (bucket_of t key)
                   (chain_length (main_at t (bucket_of t key)))) = false).
    { apply isInvalid_false. rewrite invalid_marker_eq. lia. }
    rewrite Hv.
    rewrite (wrap_small (element_count t * 4)) by (rewrite size_modulus_eq; lia).
    destruct (Z.ltb_spec (bucket_count t) (element_count t * 4)) as [?|_]; [lia|].
    rewrite andb_false_r.
    rewrite wrap_small by (rewrite size_modulus_eq; lia).
    destruct (probe _ t _ _) as [[idx ns]|] eqn:Hp; [|discriminate].
    pose proof (dense_span_bound HashFunction t (bucket_of t key) idx ns
                  Hinv Hd Hb Hlive Hp) as Hns.
    destruct (Z.ltb_spec (bucket_count t) (large_limit sizeof_MainEntry)) as [?|_];
      [lia|].
    rewrite andb_false_r. cbn [orb].
    destruct (Z.geb_spec ns (bucket_count t / 2)) as [Hge|_]; [|discriminate].
    exfalso. pose proof (Z.div_le_lower_bound (bucket_count t) 2
                           (2 * (element_count t + 1)) ltac:(lia) ltac:(lia)).
    lia.
Qed.

Lemma place_returns fuel t it key args bound :
  table_inv t -> find_post HashFunction t key it -> value_ptr it = nullptr ->
  bucket_count t <= bound ->
  (choose_placement t it = Expand ->
   exists r, resize_and_place fuel (bucket_count t + 1) t key args = Ok r
             /\ bucket_count (fst r) <= bound) ->
  exists r, place (resize_and_place fuel) t it key args = Ok r
            /\ bucket_count (fst r) <= bound.
Proof.
  intros Hinv Hpost Hnull Hbound Hexp.
  pose proof (inv_cap_bounds _ t Hinv) as Hc.
  unfold turbokit.place.
  destruct (placement_cases t it key Hinv Hpost Hnull)
    as [Hch|[Hch|(idx & ns & Hch)]]; rewrite Hch.
  - eexists. split; [reflexivity|]. cbn. exact Hbound.
  - rewrite wrap_small by (rewrite size_modulus_eq; lia). exact (Hexp Hch).
  - eexists. split; [reflexivity|]. cbn. exact Hbound.
Qed.

Lemma pow2_le_exp a b : 0 <= a -> 0 <= b -> 2 ^ a <= 2 ^ b -> a <= b.
Proof. intros Ha Hb H. apply (Z.pow_le_mono_r_iff 2); lia. Qed.

Lemma pow2_lt_exp a b : 0 <= a -> 0 <= b -> 2 ^ a < 2 ^ b -> a < b.
Proof. intros Ha Hb H. apply (Z.pow_lt_mono_r_iff 2); lia. Qed.

Lemma pow2_succ_le a b : 0 <= a -> 0 <= b -> 2 ^ a < 2 ^ b -> 2 ^ a + 1 <= 2 ^ b.
Proof. intros. lia. Qed.

Section bounded.
(** The table never needs more than [2 ^ w] buckets while it holds fewer
    than [M] pairs. *)
Variables (w M : Z).
Hypothesis Hw : 22 <= w <= 62.
Hypothesis HM : 4 * M <= 2 ^ w.

Lemma large_limit_w : large_limit sizeof_MainEntry <= 2 ^ w.
Proof.
  pose proof (large_limit_bound sizeof_MainEntry).
  assert (2 ^ 22 <= 2 ^ w) by (apply Z.pow_le_mono_r; lia). lia.
Qed.

Lemma inv_exponent t :
  table_inv t -> bucket_count t <= 2 ^ w ->
  exists k, 0 <= k <= w /\ bucket_count t = 2 ^ k.
Proof.
  intros Hinv Hle. destruct (inv_capacity _ _ Hinv) as (k & Hk & Hc).
  exists k. split; [|exact Hc]. rewrite Hc in Hle.
  split; [lia|]. apply pow2_le_exp; lia.
Qed.

(** Replaying pairs into a table that is already larger than the one
    being replaced. *)
Lemma reinsert_total fuel k :
  (forall t key args k0,
      table_inv t -> dense t -> element_count t < M ->
      bucket_count t = 2 ^ k0 -> k < k0 <= w ->
      exists r, try_insert fuel t key args = Ok r
                /\ bucket_count (fst r) <= 2 ^ w) ->
  forall l t0,
    table_inv t0 -> dense t0 -> 2 ^ k < bucket_count t0 <= 2 ^ w -> 0 <= k ->
    element_count t0 + Z.of_nat (length l) <= M ->
    NoDup l.*1 -> (forall x, x ∈ l.*1 -> x ∉ (entries t0).*1) ->
    exists t',
      reinsert (fun t k v => drop_result (try_insert fuel t k v)) l t0 = Ok t'
      /\ bucket_count t' <= 2 ^ w.
Proof.
  intros Hti. induction l as [|[key v] l IH];
    intros t0 Hinv Hd Hcap Hk Hcnt Hnd Hfresh.
  - eexists. split; [reflexivity | lia].
  - cbn [length] in Hcnt. cbn [reinsert].
    destruct (inv_exponent t0 Hinv ltac:(lia)) as (k0 & Hk0 & Hc0).
    assert (k < k0) by (apply pow2_lt_exp; lia).
    destruct (Hti t0 key v k0 Hinv Hd ltac:(lia) Hc0 ltac:(lia))
      as (r & Hr & Hrw).
    rewrite Hr. cbn [drop_result bind].
    destruct (@try_insert_spec KeyType ValueType _ _ _ HashFunction
                sizeof_MainEntry fuel) as [Hspec _].
    destruct (Hspec t0 key v r (or_intror Hinv) Hr) as [(Hi1 & Hc1 & _ & Hb) Hd1].
    rewrite fmap_cons in Hnd. apply NoDup_cons in Hnd as [Hkl Hnd].
    assert (Hkey : key ∉ (entries t0).*1).
    { apply Hfresh. rewrite fmap_cons. left. }
    destruct (snd (snd r)).
    2:{ destruct Hb as [_ Hin]. destruct (Hkey Hin). }
    destruct Hb as [_ Hp].
    apply (IH (fst r) Hi1 (Hd1 Hd)); [lia | exact Hk | | exact Hnd |].
    + rewrite (inv_count _ _ Hi1), Hp. cbn [length].
      rewrite (inv_count _ _ Hinv) in Hcnt. lia.
    + intros x Hx. rewrite Hp, fmap_cons. cbn [fst].
      rewrite not_elem_of_cons. split.
      * intros ->. exact (Hkl Hx).
      * apply Hfresh. rewrite fmap_cons. right. exact Hx.
Qed.

Lemma resize_and_place_returns n :
  (forall m, (m < n)%nat ->
     forall fuel t key args k,
       table_inv t -> dense t -> element_count t < M ->
       bucket_count t = 2 ^ k -> 0 <= k <= w -> Z.to_nat (w - k) = m ->
       (2 * m + 1 <= fuel)%nat ->
       exists r, try_insert fuel t key args = Ok r
                 /\ bucket_count (fst r) <= 2 ^ w) ->
  (forall m, (m < n)%nat ->
     forall fuel t key args k,
       table_inv t -> key ∉ (entries t).*1 -> element_count t < M ->
       bucket_count t = 2 ^ k -> 0 <= k < w -> Z.to_nat (w - k) = m ->
       (2 * m <= fuel)%nat ->
       exists r, resize_and_place fuel (bucket_count t + 1) t key args = Ok r
                 /\ bucket_count (fst r) <= 2 ^ w) ->
  forall fuel t key args k,
    table_inv t -> key ∉ (entries t).*1 -> element_count t < M ->
    bucket_count t = 2 ^ k -> 0 <= k < w -> Z.to_nat (w - k) = n ->
    (2 * n <= fuel)%nat ->
    exists r, resize_and_place fuel (bucket_count t + 1) t key args = Ok r
              /\ bucket_count (fst r) <= 2 ^ w.
Proof.
  intros IHt IHr fuel t key args k Hinv Hkey Hcnt Hc Hk Hn Hfuel.
  destruct fuel as [|f]; [lia|].
  pose proof (inv_cap_bounds _ t Hinv) as Hcb.
  pose proof (inv_room _ _ Hinv) as Hroom.
  pose proof (inv_count_nonneg HashFunction t Hinv) as Hnn.
  assert (Hkw : 2 ^ (k + 1) <= 2 ^ w) by (apply Z.pow_le_mono_r; lia).
  assert (Hw62 : 2 ^ w <= 2 ^ 62) by (apply Z.pow_le_mono_r; lia).
  assert (Hk1 : 2 ^ (k + 1) = 2 * 2 ^ k).
  { rewrite Z.pow_add_r by lia. change (2 ^ 1) with 2. lia. }
  change (2 ^ 62) with 4611686018427387904 in Hw62.
  rewrite resize_and_place_S. cbv zeta.
  (* reserve doubles the capacity *)
  assert (Hres : exists t1,
    reserve_with (fun t k v => drop_result (try_insert f t k v))
                 (bucket_count t + 1) t = Ok t1
    /\ bucket_count t1 <= 2 ^ w).
  { unfold reserve_with.
    destruct (Z.geb_spec (bucket_count t + 1) (size_max / 2)) as [Hge|_].
    { rewrite size_max_half in Hge. change (2 ^ 63) with 9223372036854775808 in Hge. lia. }
    destruct (Z.eqb_spec (bucket_count t) 0) as [?|_]; [lia|].
    rewrite Hc.
    destruct (grow_limit_spec (2 ^ k + 1)
                ltac:(change (2 ^ 63) with 9223372036854775808; lia)
                65 k ltac:(lia) ltac:(lia)) as (k' & Hk' & Hg & Hle & Hmin).
    assert (k' = k + 1).
    { assert (k < k') by (apply pow2_lt_exp; lia).
      destruct Hmin as [->|Hmin]; [lia|].
      assert (k' - 1 <= k) by (apply pow2_le_exp; lia). lia. }
    subst k'. rewrite Hg. unfold resize_table_with.
    rewrite (pow2_check (k + 1)) by lia. cbn [Z.eqb negb].
    destruct (inv_main_alloc _ _ Hinv) as [ml ->].
    destruct (@fresh_inv KeyType ValueType _ _ HashFunction (k + 1)
                ltac:(lia)) as [Hfi Hfd].
    destruct (reinsert_total f k) with (l := entries t)
                                       (t0 := fresh_table (2 ^ (k + 1)))
      as (t1 & Hre & Hc1).
    - intros t0 key0 args0 k0 Hi0 Hd0 Hcnt0 Hc0 Hk0.
      apply (IHt (Z.to_nat (w - k0)) ltac:(lia) f t0 key0 args0 k0);
        try assumption; lia.
    - exact Hfi.
    - exact Hfd.
    - cbn [bucket_count turbokit.fresh_table]. lia.
    - lia.
    - cbn [element_count turbokit.fresh_table].
      rewrite (inv_count _ _ Hinv) in Hcnt. lia.
    - exact (inv_keys _ _ Hinv).
    - intros x _. rewrite entries_fresh. apply not_elem_of_nil.
    - rewrite Hre. exists t1. split; [reflexivity | exact Hc1]. }
  destruct Hres as (t1 & Hres & Hc1). rewrite Hres. cbn [bind].
  destruct (@try_insert_spec KeyType ValueType _ _ _ HashFunction
              sizeof_MainEntry f) as [Hspec _].
  destruct (reserve_spec HashFunction _ _ _ _
              (ins_ok_of_try_insert HashFunction sizeof_MainEntry f Hspec)
              (or_intror Hinv) Hres) as (Hi1 & Hp1 & Hn1 & Hge1 & Hd1).
  destruct (find_ok HashFunction t1 key Hi1) as (it & Hfind & Hpost).
  rewrite Hfind. cbn [bind].
  assert (Hkey1 : key ∉ (entries t1).*1) by (rewrite Hp1; exact Hkey).
  assert (Hnull : value_ptr it = nullptr).
  { destruct (decide (value_ptr it = nullptr)) as [?|Hne]; [assumption|].
    destruct (found_cursor HashFunction t1 key it Hi1 Hpost Hne) as (v & _ & Hin).
    destruct (Hkey1 (key_of_entry t1 key v Hin)). }
  assert (Hcnt1 : element_count t1 = element_count t).
  { rewrite (inv_count _ _ Hi1), (inv_count _ _ Hinv), Hp1. reflexivity. }
  apply (place_returns f t1 it key args (2 ^ w) Hi1 Hpost Hnull Hc1).
  intros Hexp.
  destruct (inv_exponent t1 Hi1 Hc1) as (k1 & Hk1r & Hck1).
  assert (k < k1) by (apply pow2_lt_exp; lia).
  assert (k1 < w).
  { destruct (decide (k1 < w)) as [?|Hge]; [assumption|].
    assert (k1 = w) by lia. subst k1. exfalso.
    apply (quiet_placement t1 it key Hi1 Hd1 Hpost Hnull); [| |exact Hexp].
    - rewrite Hck1. exact large_limit_w.
    - rewrite Hck1, Hcnt1. lia. }
  apply (IHr (Z.to_nat (w - k1)) ltac:(lia) f t1 key args k1);
    try assumption; lia.
Qed.

Lemma try_insert_returns_from n :
  (forall fuel t key args k,
     table_inv t -> key ∉ (entries t).*1 -> element_count t < M ->
     bucket_count t = 2 ^ k -> 0 <= k < w -> Z.to_nat (w - k) = n ->
     (2 * n <= fuel)%nat ->
     exists r, resize_and_place fuel (bucket_count t + 1) t key args = Ok r
               /\ bucket_count (fst r) <= 2 ^ w) ->
  forall fuel t key args k,
    table_inv t -> dense t -> element_count t < M ->
    bucket_count t = 2 ^ k -> 0 <= k <= w -> Z.to_nat (w - k) = n ->
    (2 * n + 1 <= fuel)%nat ->
    exists r, try_insert fuel t key args = Ok r
              /\ bucket_count (fst r) <= 2 ^ w.
Proof.
  intros Hrp fuel t key args k Hinv Hd Hcnt Hc Hk Hn Hfuel.
  destruct fuel as [|f]; [lia|].
  pose proof (inv_cap_bounds _ t Hinv) as Hcb.
  pose proof (inv_room _ _ Hinv) as Hroom.
  pose proof (inv_count_nonneg HashFunction t Hinv) as Hnn.
  assert (Hkw : 2 ^ k <= 2 ^ w) by (apply Z.pow_le_mono_r; lia).
  rewrite try_insert_S. cbv zeta.
  destruct (inv_main_alloc _ _ Hinv) as [ml ->]. cbn [bind].
  destruct (find_ok HashFunction t key Hinv) as (it & Hfind & Hpost).
  rewrite Hfind. cbn [bind].
  destruct (decide (value_ptr it = nullptr)) as [Hnull|Hnn'].
  2:{ rewrite bool_decide_eq_false_2 by exact Hnn'. cbn [negb].
      eexists. split; [reflexivity|]. cbn [fst]. lia. }
  rewrite bool_decide_eq_true_2 by exact Hnull. cbn [negb].
  rewrite wrap_small by (rewrite size_modulus_eq; lia).
  destruct (absent_cursor HashFunction t key it Hinv Hpost Hnull) as (Hkey & _ & _).
  assert (Hgrow : k < w ->
    exists r, resize_and_place f (bucket_count t + 1) t key args = Ok r
              /\ bucket_count (fst r) <= 2 ^ w).
  { intros Hlt. apply (Hrp f t key args k); try assumption; lia. }
  destruct (Z.ltb_spec (bucket_count t) (element_count t + 1)) as [Hfull|Hfit].
  - replace (element_count t + 1) with (bucket_count t + 1) by lia.
    apply Hgrow. apply pow2_lt_exp; lia.
  - apply (place_returns f t it key args (2 ^ w) Hinv Hpost Hnull ltac:(lia)).
    intros Hexp. apply Hgrow.
    destruct (decide (k < w)) as [?|Hge]; [assumption|].
    assert (k = w) by lia. subst k. exfalso.
    apply (quiet_placement t it key Hinv Hd Hpost Hnull); [| |exact Hexp].
    + rewrite Hc. exact large_limit_w.
    + rewrite Hc. lia.
Qed.

(** Enough fuel for a table of [2 ^ k] buckets: the capacity can double
    [w - k] times, and each doubling costs two levels of recursion. *)
Lemma growth_returns n :
  (forall fuel t key args k,
     table_inv t -> dense t -> element_count t < M ->
     bucket_count t = 2 ^ k -> 0 <= k <= w -> Z.to_nat (w - k) = n ->
     (2 * n + 1 <= fuel)%nat ->
     exists r, try_insert fuel t key args = Ok r
               /\ bucket_count (fst r) <= 2 ^ w)
  /\
  (forall fuel t key args k,
     table_inv t -> key ∉ (entries t).*1 -> element_count t < M ->
     bucket_count t = 2 ^ k -> 0 <= k < w -> Z.to_nat (w - k) = n ->
     (2 * n <= fuel)%nat ->
     exists r, resize_and_place fuel (bucket_count t + 1) t key args = Ok r
               /\ bucket_count (fst r) <= 2 ^ w).
Proof.
  induction n as [n IH] using lt_wf_ind.
  assert (Hrp := resize_and_place_returns n
                   (fun m Hm => proj1 (IH m Hm))
                   (fun m Hm => proj2 (IH m Hm))).
  split; [|exact Hrp].
  exact (try_insert_returns_from n Hrp).
Qed.

(** [try_insert] on an unallocated table continues as on a fresh table
    of 16 buckets. *)
Lemma try_insert_empty fuel key args :
  try_insert (S fuel) empty_map key args
  = try_insert (S fuel) (fresh_table 16) key args.
Proof. rewrite !try_insert_S. reflexivity. Qed.

Lemma try_insert_returns fuel t key args :
  table_ok t -> dense t -> element_count t < M ->
  bucket_count t <= 2 ^ w -> (2 * Z.to_nat w + 1 <= fuel)%nat ->
  exists r, try_insert fuel t key args = Ok r
            /\ insert_post t key args r /\ dense (fst r)
            /\ bucket_count (fst r) <= 2 ^ w.
Proof.
  intros Hok Hd Hcnt Hcap Hfuel.
  destruct (@try_insert_spec KeyType ValueType _ _ _ HashFunction
              sizeof_MainEntry fuel) as [Hspec _].
  assert (Hret : exists r, try_insert fuel t key args = Ok r
                           /\ bucket_count (fst r) <= 2 ^ w).
  { destruct Hok as [->|Hinv].
    - destruct fuel as [|f]; [lia|]. rewrite try_insert_empty.
      destruct (@fresh_inv KeyType ValueType _ _ HashFunction 4 ltac:(lia))
        as [Hfi Hfd].
      apply (proj1 (growth_returns (Z.to_nat (w - 4))) (S f) (fresh_table 16)
               key args 4); try assumption; try reflexivity; try lia.
    - destruct (inv_exponent t Hinv Hcap) as (k & Hk & Hc).
      apply (proj1 (growth_returns (Z.to_nat (w - k))) fuel t key args k);
        try assumption; try reflexivity; lia. }
  destruct Hret as (r & Hr & Hrw). exists r.
  destruct (Hspec t key args r Hok Hr) as [Hpost Hd'].
  split; [exact Hr|]. split; [exact Hpost|]. split; [exact (Hd' Hd) | exact Hrw].
Qed.
End bounded.
End termination.

(** ** Runs of insertions and of erasures *)

Section sequences.
Context {KeyType ValueType : Type}.
Context `{!EqDecision KeyType, !Inhabited KeyType, !Inhabited ValueType}.
Variable HashFunction : KeyType -> Z.
Variable sizeof_MainEntry : Z.
Local Abbreviation HashMap := (@HashMap KeyType ValueType).
Local Abbreviation table_inv := (table_inv HashFunction).
Local Abbreviation table_ok := (table_ok HashFunction).
Local Abbreviation find := (find HashFunction).
Local Abbreviation remove_key := (remove_key HashFunction).
Local Abbreviation try_insert := (try_insert HashFunction sizeof_MainEntry).
Local Abbreviation run := (run HashFunction sizeof_MainEntry).
Local Abbreviation empty_map := (@empty_map KeyType ValueType).
Local Abbreviation Insert := (@Insert KeyType ValueType).
Local Abbreviation Erase := (@Erase KeyType ValueType).
Implicit Types (t : HashMap) (key : KeyType) (it : iterator).

Lemma table_ok_count t :
  table_ok t -> element_count t = Z.of_nat (length (entries t)).
Proof. intros [->|Hinv]; [reflexivity | exact (inv_count _ _ Hinv)]. Qed.

Lemma dense_empty : dense empty_map.
Proof. intros b i Hb. cbn in Hb. lia. Qed.

Lemma uncurry_insert (kv : KeyType * ValueType) :
  (let '(k, v) := kv in Insert k v) = Insert kv.1 kv.2.
Proof. destruct kv. reflexivity. Qed.

Section bounded.
Variables (w M : Z).
Hypothesis Hw : 22 <= w <= 62.
Hypothesis HM : 4 * M <= 2 ^ w.

(** A run of insertions returns, and the table holds what was there
    before together with the first pair inserted under each new key. *)
Lemma insert_run fuel (kvs : list (KeyType * ValueType)) :
  (2 * Z.to_nat w + 1 <= fuel)%nat ->
  forall t,
    table_ok t -> dense t -> bucket_count t <= 2 ^ w ->
    element_count t + Z.of_nat (length kvs) <= M ->
    exists t',
      run fuel ((fun kv => Insert kv.1 kv.2) <$> kvs) t = Ok t'
      /\ table_ok t' /\ dense t' /\ bucket_count t' <= 2 ^ w
      /\ element_count t' <= element_count t + Z.of_nat (length kvs)
      /\ (forall k, k ∈ (entries t').*1 ->
                    k ∈ (entries t).*1 \/ k ∈ kvs.*1)
      /\ (NoDup kvs.*1 -> (forall k, k ∈ kvs.*1 -> k ∉ (entries t).*1) ->
          entries t' ≡ₚ kvs ++ entries t).
Proof.
  intros Hfuel. induction kvs as [|[key v] kvs IH]; intros t Hok Hd Hcap Hcnt.
  - exists t. split; [reflexivity|]. split; [exact Hok|]. split; [exact Hd|].
    split; [exact Hcap|]. split; [cbn; lia|]. split; [tauto|].
    intros _ _. reflexivity.
  - cbn [length] in Hcnt. rewrite fmap_cons. cbn [turbokit.run turbokit.apply_op fst snd].
    unfold insert, emplace. cbn [fst snd].
    pose proof (table_ok_count t Hok) as Hc0.
    destruct (try_insert_returns HashFunction sizeof_MainEntry w M Hw HM
                fuel t key v Hok Hd ltac:(lia) Hcap Hfuel)
      as (r & Hr & (Hi1 & Hc1 & _ & Hb) & Hd1 & Hw1).
    rewrite Hr. cbn [drop_result bind].
    assert (Hcnt1 : element_count (fst r) <= element_count t + 1
                    /\ (forall k, k ∈ (entries (fst r)).*1 ->
                                  k ∈ (entries t).*1 \/ k = key)
                    /\ (key ∉ (entries t).*1 ->
                        entries (fst r) ≡ₚ (key, v) :: entries t)).
    { destruct (snd (snd r)).
      - destruct Hb as [Hk Hp]. split; [|split].
        + rewrite (inv_count _ _ Hi1), Hp, Hc0. cbn [length]. lia.
        + intros k. rewrite Hp, fmap_cons, elem_of_cons. cbn [fst]. tauto.
        + intros _. exact Hp.
      - destruct Hb as [-> Hin]. split; [lia|]. split; [tauto|].
        intros Hn. destruct (Hn Hin). }
    destruct Hcnt1 as (Hcnt1 & Hkeys1 & Hperm1).
    destruct (IH (fst r) (or_intror Hi1) Hd1 Hw1 ltac:(lia))
      as (t' & Hrun & Hok' & Hd' & Hw' & Hcnt' & Hkeys' & Hperm').
    exists t'. split; [exact Hrun|]. split; [exact Hok'|]. split; [exact Hd'|].
    split; [exact Hw'|]. split; [cbn [length]; lia|]. split.
    + intros k Hk. rewrite fmap_cons, elem_of_cons. cbn [fst].
      destruct (Hkeys' k Hk) as [H1|H1]; [|tauto].
      destruct (Hkeys1 k H1); tauto.
    + intros Hnd Hfresh. rewrite fmap_cons in Hnd.
      apply NoDup_cons in Hnd as [Hk Hnd]. cbn [fst] in Hk.
      assert (Hkt : key ∉ (entries t).*1).
      { apply Hfresh. rewrite fmap_cons. left. }
      specialize (Hperm1 Hkt).
      rewrite Hperm'.
      * rewrite Hperm1. cbn [app]. symmetry. apply Permutation_middle.
      * exact Hnd.
      * intros k Hkin. rewrite Hperm1, fmap_cons. cbn [fst].
        rewrite not_elem_of_cons. split.
        -- intros ->. exact (Hk Hkin).
        -- apply Hfresh. rewrite fmap_cons. right. exact Hkin.
Qed.
End bounded.

(** A run of erasures always returns; it removes exactly the pairs whose
    keys it names. *)
Lemma erase_run fuel (order : list KeyType) :
  forall t,
    table_ok t ->
    exists t',
      run fuel (Erase <$> order) t = Ok t' /\ table_ok t'
      /\ bucket_count t' = bucket_count t
      /\ (forall kv, kv ∈ entries t' <-> kv ∈ entries t /\ kv.1 ∉ order).
Proof.
  induction order as [|key order IH]; intros t Hok.
  - exists t. split; [reflexivity|]. split; [exact Hok|]. split; [reflexivity|].
    intros kv. split; [|tauto]. intros H. split; [exact H | apply not_elem_of_nil].
  - rewrite fmap_cons. cbn [turbokit.run turbokit.apply_op].
    destruct (remove_key_spec HashFunction t key Hok)
      as (t1 & Hr & Hok1 & Hbc1 & _ & Hent1 & _).
    rewrite Hr. cbn [bind fst].
    destruct (IH t1 Hok1) as (t' & Hrun & Hok' & Hbc' & Hent').
    exists t'. split; [exact Hrun|]. split; [exact Hok'|]. split; [congruence|].
    intros kv. rewrite Hent', Hent1, not_elem_of_cons. tauto.
Qed.

Lemma first_index_all_false n i p :
  (forall y, p y = false) -> first_index n i p = None.
Proof. intros H. apply first_index_None. intros y _. apply H. Qed.

(** An empty table iterates over nothing. *)
Lemma begin_empty t : table_ok t -> entries t = [] -> begin t = end_ t.
Proof.
  intros [->|Hinv] Hnil; [reflexivity|].
  unfold begin. destruct (inv_main_alloc _ _ Hinv) as [ml ->].
  assert (Hm : first_index (Z.to_nat (bucket_count t)) 0
                 (fun i => negb (isInvalid (chain_length (main_at t i)))) = None).
  { apply first_index_None. intros y Hy.
    destruct (isInvalid (chain_length (main_at t y))) eqn:Hv; [reflexivity|].
    apply isInvalid_false in Hv. exfalso.
    assert (Hin : (main_key (main_at t y), main_value (main_at t y)) ∈ entries t).
    { apply elem_of_entries. left. exists y. rewrite (inv_main_len _ t Hinv).
      split; [lia|]. split; [exact Hv | reflexivity]. }
    rewrite Hnil in Hin. apply elem_of_nil in Hin. exact Hin. }
  assert (Hc : first_index (Z.to_nat (bucket_count t)) 0
                 (fun i => negb (isInvalid (main_index (coll_at t i)))) = None).
  { apply first_index_None. intros y Hy.
    destruct (isInvalid (main_index (coll_at t y))) eqn:Hv; [reflexivity|].
    apply isInvalid_false in Hv. exfalso.
    assert (Hin : (coll_key (coll_at t y), coll_value (coll_at t y)) ∈ entries t).
    { apply elem_of_entries. right. exists y. rewrite (inv_coll_len _ t Hinv).
      split; [lia|]. split; [exact Hv | reflexivity]. }
    rewrite Hnil in Hin. apply elem_of_nil in Hin. exact Hin. }
  rewrite Hm, Hc. reflexivity.
Qed.
End sequences.

(** A size that is neither zero nor a power of two shares a set bit with its
    predecessor. *)
Lemma land_pred_nonzero n :
  0 < n -> (forall k, 0 <= k -> n <> 2 ^ k) -> Z.land n (n - 1) <> 0.
Proof.
  intros Hn Hpow Hland.
  pose proof (Z.log2_nonneg n) as Hk.
  destruct (Z.log2_spec n Hn) as [Hlo Hhi].
  assert (Hlt : 2 ^ Z.log2 n < n).
  { specialize (Hpow (Z.log2 n) Hk). lia. }
  assert (Hlog : Z.log2 (n - 1) = Z.log2 n).
  { apply Z.log2_unique; [exact Hk | lia]. }
  assert (Hb1 : Z.testbit n (Z.log2 n) = true) by (apply Z.bit_log2; lia).
  assert (Hb2 : Z.testbit (n - 1) (Z.log2 n) = true).
  { rewrite <- Hlog. apply Z.bit_log2. pose proof (Z.pow_pos_nonneg 2 (Z.log2 n)). lia. }
  assert (Hb : Z.testbit (Z.land n (n - 1)) (Z.log2 n) = true).
  { rewrite Z.land_spec, Hb1, Hb2. reflexivity. }
  rewrite Hland, Z.bits_0 in Hb. discriminate.
Qed.

Section claims.
Context {KeyType ValueType : Type}.
Context `{!EqDecision KeyType, !Inhabited KeyType, !Inhabited ValueType}.
Variable HashFunction : KeyType -> Z.
Variable sizeof_MainEntry : Z.

Local Abbreviation HashMap := (@HashMap KeyType ValueType).
Local Abbreviation find := (find HashFunction).
Local Abbreviation try_insert := (try_insert HashFunction sizeof_MainEntry).
Local Abbreviation run := (run HashFunction sizeof_MainEntry).
Local Abbreviation table_inv := (table_inv HashFunction).
Local Abbreviation table_ok := (table_ok HashFunction).
Local Abbreviation empty_map := (@empty_map KeyType ValueType).
Local Abbreviation operation := (@operation KeyType ValueType).
Local Abbreviation choose_placement := (choose_placement sizeof_MainEntry).
Local Abbreviation place := (place sizeof_MainEntry).
Local Abbreviation reserve := (reserve HashFunction sizeof_MainEntry).
Local Abbreviation resize_table := (resize_table HashFunction sizeof_MainEntry).
Implicit Types (t : HashMap) (key : KeyType) (it : iterator).

Lemma table_ok_empty : table_ok empty_map.
Proof. left. reflexivity. Qed.

Lemma table_ok_inv (t : HashMap) :
  table_ok t -> entries t <> [] -> table_inv t.
Proof. intros [->|Hinv] Hne; [destruct Hne; reflexivity | exact Hinv]. Qed.

Lemma length_fmap_fst (kvs : list (KeyType * ValueType)) :
  length kvs.*1 = length kvs.
Proof. apply length_fmap. Qed.

(** C1: after inserting pairs with pairwise distinct keys into an empty
    table, however many growth rounds that takes, the run returns, [size]
    is the number of pairs, and [find] of every inserted key gives a
    cursor to the pair inserted with it. *)
Theorem C1_round_trip (fuel : nat) (kvs : list (KeyType * ValueType)) :
  NoDup kvs.*1 ->
  Z.of_nat (length kvs) <= 2 ^ 60 ->
  (125 <= fuel)%nat ->
  exists t, run fuel (insert_all kvs) empty_map = Ok t
    /\ size t = Z.of_nat (length kvs)
    /\ forall k v, (k, v) ∈ kvs ->
         exists it, find t k = Ok it /\ deref t it = Some (k, v).
Proof.
  intros Hnd Hlen Hfuel.
  destruct (insert_run HashFunction sizeof_MainEntry 62 (Z.of_nat (length kvs))
              ltac:(lia) ltac:(change (2 ^ 62) with (4 * 2 ^ 60); lia)
              fuel kvs ltac:(change (Z.to_nat 62) with 62%nat; lia)
              empty_map table_ok_empty (@dense_empty KeyType ValueType _ _)
              ltac:(cbn; lia) ltac:(cbn; lia))
    as (t & Hrun & Hok & _ & _ & _ & _ & Hperm).
  specialize (Hperm Hnd ltac:(intros k _ Hk; cbn in Hk; apply elem_of_nil in Hk; exact Hk)).
  rewrite app_nil_r in Hperm.
  exists t. split; [exact Hrun|]. split.
  - unfold size. rewrite (table_ok_count HashFunction t Hok), Hperm. reflexivity.
  - intros k v Hin.
    assert (Hin' : (k, v) ∈ entries t) by (rewrite Hperm; exact Hin).
    assert (Hinv : table_inv t).
    { apply table_ok_inv; [exact Hok|]. intros Hnil. rewrite Hnil in Hin'.
      apply elem_of_nil in Hin'. exact Hin'. }
    destruct (find_present HashFunction t k v Hinv Hin') as (it & Hfind & _ & _ & Hd).
    exists it. split; assumption.
Qed.

(** C2: a table reached from the empty one by insertions and erasures has
    capacity 0 or a power of two, and for each occupied bucket [b] the
    slots owned by [b] among the [span] slots probed from [b] are exactly
    the overflow slots owned by [b]. *)
Theorem C2_invariant_preservation (fuel : nat) (ops : list operation)
        (t : HashMap) :
  run fuel ops empty_map = Ok t ->
  capacity_ok t /\ span_exact t.
Proof.
  intros Hrun.
  destruct (run_ok HashFunction sizeof_MainEntry fuel ops _ _ table_ok_empty Hrun)
    as [->|Hinv].
  - split; [left; reflexivity|]. intros b Hb. cbn in Hb. lia.
  - split.
    + right. destruct (inv_capacity _ _ Hinv) as (k & Hk & Hc).
      exists k. split; [lia | exact Hc].
    + intros b Hb Hlive j. unfold span_scan, owned_slots, probe_visits.
      rewrite !list_elem_of_filter, list_elem_of_fmap, elem_of_seqZ.
      split.
      * intros (Hown & i & -> & Hi). split; [exact Hown|].
        rewrite elem_of_seqZ in Hi.
        pose proof (cap_slot_range t b i (inv_capacity _ _ Hinv)). lia.
      * intros (Hown & Hj). split; [exact Hown|].
        unfold owned_by in Hown.
        assert (Hcl : coll_live t j).
        { unfold coll_live. rewrite Hown. apply valid_index_not_marker with (t := t).
          - exact (inv_capacity _ _ Hinv).
          - lia. }
        destruct (inv_owner _ _ Hinv j ltac:(lia) Hcl) as (_ & _ & i & Hi & Hji).
        rewrite Hown in Hi, Hji. exists i. split; [exact Hji|].
        apply elem_of_seqZ. lia.
Qed.

(** C3: build a table by any insertions, then erase keys in any order that
    covers every inserted key: both runs return, [size] is 0, [find] of
    every erased key compares equal to [end()], and [begin() == end()].
    The hash function is arbitrary, so this holds when every key falls
    into one bucket. *)
Theorem C3_deletion_completeness (fuel : nat)
        (kvs : list (KeyType * ValueType)) (order : list KeyType) :
  (125 <= fuel)%nat ->
  Z.of_nat (length kvs) <= 2 ^ 60 ->
  (forall k, k ∈ kvs.*1 -> k ∈ order) ->
  exists t t',
    run fuel (insert_all kvs) empty_map = Ok t
    /\ run fuel (erase_all order) t = Ok t'
    /\ size t' = 0
    /\ (forall k, k ∈ order ->
          exists it, find t' k = Ok it /\ iterator_eq it (end_ t') = true)
    /\ iterator_eq (begin t') (end_ t') = true.
Proof.
  intros Hfuel Hlen Hcover.
  destruct (insert_run HashFunction sizeof_MainEntry 62 (Z.of_nat (length kvs))
              ltac:(lia) ltac:(change (2 ^ 62) with (4 * 2 ^ 60); lia)
              fuel kvs ltac:(change (Z.to_nat 62) with 62%nat; lia)
              empty_map table_ok_empty (@dense_empty KeyType ValueType _ _)
              ltac:(cbn; lia) ltac:(cbn; lia))
    as (t & Hrun & Hok & _ & _ & _ & Hkeys & _).
  destruct (erase_run HashFunction sizeof_MainEntry fuel order t Hok)
    as (t' & Hrun' & Hok' & _ & Hleft).
  assert (Hnil : entries t' = []).
  { destruct (entries t') as [|kv l]; [reflexivity|]. exfalso.
    destruct (proj1 (Hleft kv) ltac:(left)) as [Hin Hnot].
    apply Hnot, Hcover.
    destruct (Hkeys kv.1 ltac:(apply list_elem_of_fmap; exists kv; split; [reflexivity | exact Hin]))
      as [Hk|Hk]; [|exact Hk].
    cbn in Hk. apply elem_of_nil in Hk. destruct Hk. }
  exists t, t'. split; [exact Hrun|]. split; [exact Hrun'|]. split.
  { unfold size. rewrite (table_ok_count HashFunction t' Hok'), Hnil. reflexivity. }
  split.
  - intros k _.
    destruct (find_absent HashFunction t' k Hok'
                ltac:(rewrite Hnil; cbn; apply not_elem_of_nil))
      as (it & Hfind & Hnull).
    exists it. split; [exact Hfind|].
    unfold iterator_eq. rewrite Hnull. reflexivity.
  - rewrite (begin_empty HashFunction t' Hok' Hnil). reflexivity.
Qed.

(** C6: inserting a key that is present with value [v] returns the cursor
    [find] gives for it, which stands on the pair [(key, v)], together
    with [false], and the table it returns is the table it was given. *)
Theorem C6_insert_present (fuel : nat) t key (v args : ValueType) :
  table_ok t ->
  (key, v) ∈ entries t ->
  exists it, find t key = Ok it
    /\ deref t it = Some (key, v)
    /\ try_insert (S fuel) t key args = Ok (t, (it, false)).
Proof.
  intros Hok Hin.
  assert (Hinv : table_inv t).
  { apply table_ok_inv; [exact Hok|]. intros Hnil. rewrite Hnil in Hin.
    apply elem_of_nil in Hin. exact Hin. }
  destruct (find_present HashFunction t key v Hinv Hin)
    as (it & Hfind & Hnn & _ & Hd).
  exists it. split; [exact Hfind|]. split; [exact Hd|].
  rewrite try_insert_S. cbv zeta.
  destruct (inv_main_alloc _ _ Hinv) as [ml ->]. cbn [bind].
  rewrite Hfind. cbn [bind].
  rewrite (bool_decide_eq_false_2 _ Hnn). reflexivity.
Qed.

(** C8: [resize_table] aborts when handed a size that is neither zero nor
    a power of two; [reserve] of a size from half the largest [size_t] on
    throws [std::range_error], which is not an abort. *)
Theorem C8_contract_violation (fuel : nat) (n m : Z) t :
  0 < n < size_modulus ->
  (forall k, 0 <= k -> n <> 2 ^ k) ->
  size_max / 2 <= m ->
  fatal (resize_table fuel n t)
  /\ reserve fuel m t = RangeError
  /\ ~ fatal (reserve fuel m t).
Proof.
  intros Hn Hpow Hm.
  assert (Hre : reserve fuel m t = RangeError).
  { unfold turbokit.reserve, reserve_with.
    destruct (Z.geb_spec m (size_max / 2)) as [_|?]; [reflexivity | lia]. }
  split; [|split; [exact Hre|]].
  - unfold fatal, turbokit.resize_table, resize_table_with.
    rewrite (wrap_small (n - 1)) by lia.
    destruct (Z.eqb_spec (Z.land n (n - 1)) 0) as [Hz|_]; [|reflexivity].
    destruct (land_pred_nonzero n ltac:(lia) Hpow Hz).
  - unfold fatal. rewrite Hre. discriminate.
Qed.

(** C10: in a table reached from the empty one by insertions and
    erasures, the last slot of the span of every occupied bucket with a
    non-zero span is owned by that bucket. *)
Theorem C10_true_tail (fuel : nat) (ops : list operation) t :
  run fuel ops empty_map = Ok t ->
  true_tail t.
Proof.
  intros Hrun b Hb Hlive Hspan.
  destruct (run_ok HashFunction sizeof_MainEntry fuel ops _ _ table_ok_empty Hrun)
    as [->|Hinv].
  - cbn in Hb. lia.
  - exact (inv_tail _ _ Hinv b Hb Hlive Hspan).
Qed.
End claims.

(** ** The claims on integer tables *)

Ltac decide_by_compute :=
  match goal with
  | |- ?P => apply (bool_decide_unpack P); vm_compute; exact I
  end.

Lemma crowded_run : IntMap.run_ops IntMap.crowded_ops = Ok IntMap.crowded.
Proof. vm_compute. reflexivity. Qed.

Lemma two_pairs_run : IntMap.run_ops IntMap.two_pairs_ops = Ok IntMap.two_pairs.
Proof. vm_compute. reflexivity. Qed.

Lemma run_ops_ok ops t :
  IntMap.run_ops ops = Ok t -> table_ok IntMap.hash t.
Proof.
  intros Hrun.
  exact (run_ok IntMap.hash IntMap.sizeof_entry 8 ops _ t
           (table_ok_empty IntMap.hash) Hrun).
Qed.

(** C1 on twelve pairs whose insertion grows the table from 16 to 64
    buckets. *)
Lemma C1_round_trip_witness :
  exists t,
    run IntMap.hash IntMap.sizeof_entry 125 (insert_all IntMap.growing_pairs)
        IntMap.new = Ok t
    /\ size t = Z.of_nat (length IntMap.growing_pairs)
    /\ forall k v, (k, v) ∈ IntMap.growing_pairs ->
         exists it, find IntMap.hash t k = Ok it /\ deref t it = Some (k, v).
Proof.
  apply (C1_round_trip IntMap.hash IntMap.sizeof_entry 125 IntMap.growing_pairs).
  - decide_by_compute.
  - vm_compute. discriminate.
  - lia.
Defined.

(** C2 on a table reached by six insertions and two erasures. *)
Lemma C2_invariant_preservation_witness :
  run IntMap.hash IntMap.sizeof_entry 8 IntMap.mixed_ops IntMap.new
  = Ok IntMap.mixed
  /\ capacity_ok IntMap.mixed /\ span_exact IntMap.mixed.
Proof.
  split; [vm_compute; reflexivity|].
  apply (C2_invariant_preservation IntMap.hash IntMap.sizeof_entry 8
           IntMap.mixed_ops IntMap.mixed).
  vm_compute. reflexivity.
Defined.

(** C3 with every key hashed to bucket 0: ten pairs inserted, then erased in
    a shuffled order. *)
Lemma C3_deletion_completeness_witness :
  exists t t',
    run IntMap.zero_hash IntMap.sizeof_entry 125 (insert_all IntMap.ten_pairs)
        IntMap.new = Ok t
    /\ run IntMap.zero_hash IntMap.sizeof_entry 125
           (erase_all IntMap.ten_keys_shuffled) t = Ok t'
    /\ size t' = 0
    /\ (forall k, k ∈ IntMap.ten_keys_shuffled ->
          exists it, find IntMap.zero_hash t' k = Ok it
                     /\ iterator_eq it (end_ t') = true)
    /\ iterator_eq (begin t') (end_ t') = true.
Proof.
  apply (C3_deletion_completeness IntMap.zero_hash IntMap.sizeof_entry 125
           IntMap.ten_pairs IntMap.ten_keys_shuffled).
  - lia.
  - vm_compute. discriminate.
  - apply Forall_forall. decide_by_compute.
Defined.

(** C5: the cursor that [find(16)] returns, advanced once, stands on the
    pair (17, 40) in overflow slot 1 but still carries bucket 0.  Erasing
    through it moves the pair (16, 20) of bucket 0 into slot 1, which stays
    owned by bucket 1, and [find(16)] no longer finds it. *)
Lemma C5_erase_cursor_after_increment :
  exists it c t' c',
    IntMap.run_ops IntMap.two_chains_ops = Ok IntMap.two_chains
    /\ find IntMap.hash IntMap.two_chains 16 = Ok it
    /\ increment IntMap.two_chains it = Ok c
    /\ c = mk_iterator 0 1 (collision_value_ptr 1)
    /\ deref IntMap.two_chains c = Some (17, 40)
    /\ remove IntMap.two_chains c = Ok (t', c')
    /\ entries t' = [(0, 10); (1, 30); (16, 20)]
    /\ coll_key (coll_at t' 1) = 16 /\ main_index (coll_at t' 1) = 1
    /\ find IntMap.hash t' 16 = Ok (mk_iterator 0 0 nullptr).
Proof.
  do 4 eexists. repeat split; vm_compute; reflexivity.
Qed.

(** C6 on the table holding 1 and 2, inserting key 1 again with another
    value. *)
Lemma C6_insert_present_witness :
  exists it, find IntMap.hash IntMap.two_pairs 1 = Ok it
    /\ deref IntMap.two_pairs it = Some (1, 100)
    /\ try_insert IntMap.hash IntMap.sizeof_entry 1 IntMap.two_pairs 1 999
       = Ok (IntMap.two_pairs, (it, false)).
Proof.
  apply (C6_insert_present IntMap.hash IntMap.sizeof_entry 0 IntMap.two_pairs
           1 100 999).
  - exact (run_ops_ok _ _ two_pairs_run).
  - decide_by_compute.
Defined.

(** C7: [remove(key)] has no result to return, for a present key as for an
    absent one. *)
Lemma C7_erase_key_returns_nothing :
  exists t',
    IntMap.run_ops IntMap.two_pairs_ops = Ok IntMap.two_pairs
    /\ remove_key IntMap.hash IntMap.two_pairs 1 = Ok (t', RVoid)
    /\ entries t' = [(2, 200)]
    /\ remove_key IntMap.hash IntMap.two_pairs 7 = Ok (IntMap.two_pairs, RVoid).
Proof.
  eexists. repeat split; vm_compute; reflexivity.
Qed.

Lemma three_not_pow2 k : 0 <= k -> 3 <> 2 ^ k.
Proof.
  intros Hk. destruct (Z_lt_le_dec k 2) as [Hlt|Hge].
  - assert (Hc : k = 0 \/ k = 1) by lia. destruct Hc as [->| ->]; discriminate.
  - pose proof (Z.pow_le_mono_r 2 2 k ltac:(lia) Hge) as Hle.
    change (2 ^ 2) with 4 in Hle. lia.
Qed.

(** C8 at the sizes 3 and 2^63. *)
Lemma C8_contract_violation_witness :
  fatal (resize_table IntMap.hash IntMap.sizeof_entry 0 3 IntMap.new)
  /\ reserve IntMap.hash IntMap.sizeof_entry 0 (2 ^ 63) IntMap.new = RangeError
  /\ ~ fatal (reserve IntMap.hash IntMap.sizeof_entry 0 (2 ^ 63) IntMap.new).
Proof.
  apply (C8_contract_violation IntMap.hash IntMap.sizeof_entry 0 3 (2 ^ 63)
           IntMap.new).
  - rewrite size_modulus_eq. lia.
  - exact three_not_pow2.
  - vm_compute. discriminate.
Defined.

(** C8, as the specification words it, fails: a request for 2^63 buckets
    makes [reserve] throw [std::range_error]; the process is not aborted.
    Nor does [resize_table] abort on the size 0, which passes its test. *)
Lemma C8_contract_violation_counterexample :
  reserve IntMap.hash IntMap.sizeof_entry 0 (2 ^ 63) IntMap.new = RangeError
  /\ ~ fatal (reserve IntMap.hash IntMap.sizeof_entry 0 (2 ^ 63) IntMap.new)
  /\ ~ fatal (resize_table IntMap.hash IntMap.sizeof_entry 0 0 IntMap.new).
Proof.
  split; [vm_compute; reflexivity|].
  split; unfold fatal; vm_compute; discriminate.
Qed.

(** C9: constructing from [std::move(original)] copies pair by pair and
    leaves [original] as it was, with both pairs. *)
Lemma C9_move_construct_copies :
  exists moved,
    IntMap.run_ops IntMap.two_pairs_ops = Ok IntMap.two_pairs
    /\ move_construct IntMap.hash IntMap.sizeof_entry 8 IntMap.two_pairs
       = Ok (moved, IntMap.two_pairs)
    /\ entries moved = [(1, 100); (2, 200)]
    /\ size IntMap.two_pairs = 2.
Proof.
  eexists. repeat split; vm_compute; reflexivity.
Qed.

(** C10 on a table reached by six insertions and two erasures. *)
Lemma C10_true_tail_witness :
  run IntMap.hash IntMap.sizeof_entry 8 IntMap.mixed_ops IntMap.new
  = Ok IntMap.mixed
  /\ true_tail IntMap.mixed.
Proof.
  split; [vm_compute; reflexivity|].
  apply (C10_true_tail IntMap.hash IntMap.sizeof_entry 8 IntMap.mixed_ops
           IntMap.mixed).
  vm_compute. reflexivity.
Defined.

(** ** What a user of the container can rely on *)

Section usage.
Context {KeyType ValueType : Type}.
Context `{!EqDecision KeyType, !Inhabited KeyType, !Inhabited ValueType}.
Variable HashFunction : KeyType -> Z.
Variable sizeof_MainEntry : Z.
Local Abbreviation HashMap := (@HashMap KeyType ValueType).
Local Abbreviation table_inv := (table_inv HashFunction).
Local Abbreviation table_ok := (table_ok HashFunction).
Local Abbreviation find := (find HashFunction).
Local Abbreviation finds := (finds HashFunction).
Local Abbreviation remove_key := (remove_key HashFunction).
Local Abbreviation try_insert := (try_insert HashFunction sizeof_MainEntry).
Local Abbreviation run := (run HashFunction sizeof_MainEntry).
Local Abbreviation apply_op := (apply_op HashFunction sizeof_MainEntry).
Local Abbreviation empty_map := (@empty_map KeyType ValueType).
Local Abbreviation operation := (@operation KeyType ValueType).
Local Abbreviation reference_map := (@reference_map KeyType ValueType).
Implicit Types (t : HashMap) (key : KeyType) (it : iterator).

Lemma reachable_ok fuel ops t : run fuel ops empty_map = Ok t -> table_ok t.
Proof.
  apply (run_ok HashFunction sizeof_MainEntry fuel ops).
  apply table_ok_empty.
Qed.

Lemma table_ok_keys t : table_ok t -> NoDup (entries t).*1.
Proof. intros [->|Hinv]; [constructor | exact (inv_keys _ _ Hinv)]. Qed.

Lemma entry_unique t key v v' :
  table_ok t -> (key, v) ∈ entries t -> (key, v') ∈ entries t -> v = v'.
Proof.
  intros Hok H1 H2.
  exact (NoDup_fst_unique (entries t) key v v' (table_ok_keys t Hok) H1 H2).
Qed.

Lemma finds_present t key v :
  table_ok t -> (key, v) ∈ entries t -> finds t key (Some v).
Proof.
  intros Hok Hin.
  assert (Hinv : table_inv t).
  { apply table_ok_inv; [exact Hok|]. intros Hnil. rewrite Hnil in Hin.
    apply elem_of_nil in Hin. exact Hin. }
  destruct (find_present HashFunction t key v Hinv Hin) as (it & Hfind & _ & _ & Hd).
  exists it. split; [exact Hfind|]. rewrite Hd. reflexivity.
Qed.

Lemma finds_absent t key :
  table_ok t -> key ∉ (entries t).*1 -> finds t key None.
Proof.
  intros Hok Hnot.
  destruct (find_absent HashFunction t key Hok Hnot) as (it & Hfind & Hnull).
  exists it. split; [exact Hfind|]. unfold deref. rewrite Hnull. reflexivity.
Qed.

Lemma try_insert_post fuel t key args r :
  table_ok t -> try_insert fuel t key args = Ok r -> insert_post HashFunction t key args r.
Proof.
  intros Hok Hr.
  destruct (@try_insert_spec KeyType ValueType _ _ _ HashFunction
              sizeof_MainEntry fuel) as [Hti _].
  exact (proj1 (Hti t key args r Hok Hr)).
Qed.

Lemma apply_op_reference fuel t op t' (m : reference_map) :
  table_ok t ->
  (forall k v, (k, v) ∈ entries t <-> m k = Some v) ->
  apply_op fuel t op = Ok t' ->
  forall k v, (k, v) ∈ entries t' <-> reference_apply m op k = Some v.
Proof.
  intros Hok Hrep Hop k v. destruct op as [key value|key]; cbn [turbokit.apply_op] in Hop.
  - apply drop_result_Ok in Hop as (r & Hr & <-).
    destruct (try_insert_post fuel t key value r Hok Hr) as (_ & _ & _ & Hcase).
    cbn [reference_apply].
    destruct (snd (snd r)).
    + destruct Hcase as [Hnew Hperm].
      assert (Hnone : m key = None).
      { destruct (m key) as [v0|] eqn:Hm; [|reflexivity].
        destruct Hnew. apply (key_of_entry t key v0), Hrep, Hm. }
      rewrite Hperm, Hnone, elem_of_cons.
      destruct (decide (k = key)) as [->|Hne].
      * split.
        -- intros [Heq|Hin]; [congruence|].
           destruct Hnew. exact (key_of_entry t key v Hin).
        -- intros Heq. left. congruence.
      * rewrite Hrep. split; [intros [Heq|Hm]; [congruence | exact Hm] | intros Hm; right; exact Hm].
    + destruct Hcase as [-> Hold].
      apply list_elem_of_fmap in Hold as ([k0 v0] & Hk0 & Hin0). cbn in Hk0. subst k0.
      pose proof (proj1 (Hrep key v0) Hin0) as Hm0.
      destruct (decide (k = key)) as [->|Hne]; [|apply Hrep].
      rewrite Hm0. rewrite Hrep, Hm0. reflexivity.
  - destruct (remove_key_spec HashFunction t key Hok) as (t1 & Hr & _ & _ & _ & Hleft & _).
    rewrite Hr in Hop. cbn in Hop. injection Hop as <-.
    cbn [reference_apply]. rewrite (Hleft (k, v)). cbn [fst].
    destruct (decide (k = key)) as [->|Hne].
    + split; [intros [_ Hc]; destruct Hc; reflexivity | discriminate].
    + rewrite Hrep. split; [intros [Hm _]; exact Hm | intros Hm; split; assumption].
Qed.

Lemma run_reference fuel ops : forall t t' (m : reference_map),
  table_ok t ->
  (forall k v, (k, v) ∈ entries t <-> m k = Some v) ->
  run fuel ops t = Ok t' ->
  forall k v, (k, v) ∈ entries t' <-> fold_left reference_apply ops m k = Some v.
Proof.
  induction ops as [|op ops IH]; intros t t' m Hok Hrep Hrun.
  - injection Hrun as <-. exact Hrep.
  - cbn [turbokit.run] in Hrun. apply bind_Ok in Hrun as (t1 & H1 & Hrun).
    cbn [fold_left].
    apply (IH t1 t' (reference_apply m op)
             (apply_op_ok HashFunction sizeof_MainEntry fuel t op t1 Hok H1)
             (apply_op_reference fuel t op t1 m Hok Hrep H1) Hrun).
Qed.

Lemma finds_of_entries t key (o : option ValueType) :
  table_ok t ->
  (forall v, (key, v) ∈ entries t <-> o = Some v) ->
  finds t key o.
Proof.
  intros Hok Hrep. destruct o as [v|].
  - apply finds_present; [exact Hok|]. apply Hrep. reflexivity.
  - apply finds_absent; [exact Hok|]. intros Hin.
    apply list_elem_of_fmap in Hin as ([k0 v0] & Hk0 & Hin0). cbn in Hk0. subst k0.
    pose proof (proj1 (Hrep v0) Hin0). discriminate.
Qed.

(** X1: after any run of insertions and erasures from the empty table,
    [find] answers every key as the reference map does: it reads the
    value of the first insertion of the key since its last erasure, and
    finds nothing for a key that was never inserted or was erased last. *)
Theorem X1_find_refines_reference_map (fuel : nat) (ops : list operation) t :
  run fuel ops empty_map = Ok t ->
  forall key, finds t key (reference_run ops key).
Proof.
  intros Hrun key.
  apply finds_of_entries; [exact (reachable_ok fuel ops t Hrun)|].
  intros v.
  apply (run_reference fuel ops empty_map t reference_empty
           (table_ok_empty HashFunction)); [|exact Hrun].
  intros k v0. cbn. split; [intros Hin; apply elem_of_nil in Hin; destruct Hin | discriminate].
Qed.

(** X2: on a table reached from the empty one, [remove(key)] always
    returns; for a stored key it drops exactly that pair and lowers
    [size()] by one, for any other key it returns the table as it was;
    the bucket count stays, the key is no longer found and every other
    stored pair still is. *)
Theorem X2_remove_key_effect (fuel : nat) (ops : list operation) t key :
  run fuel ops empty_map = Ok t ->
  exists t',
    remove_key t key = Ok (t', RVoid)
    /\ get_bucket_count t' = get_bucket_count t
    /\ (forall kv, kv ∈ entries t' <-> kv ∈ entries t /\ kv.1 <> key)
    /\ size t' = (if decide (key ∈ (entries t).*1) then size t - 1 else size t)
    /\ (key ∉ (entries t).*1 -> t' = t)
    /\ finds t' key None
    /\ (forall k v, (k, v) ∈ entries t -> k <> key -> finds t' k (Some v)).
Proof.
  intros Hrun. pose proof (reachable_ok fuel ops t Hrun) as Hok.
  destruct (remove_key_spec HashFunction t key Hok)
    as (t' & Hr & Hok' & Hcap & Hgone & Hleft & Hsame).
  exists t'. split; [exact Hr|]. split; [exact Hcap|]. split; [exact Hleft|].
  split; [|split; [exact Hsame|split]].
  - destruct (decide (key ∈ (entries t).*1)) as [Hin|Hnin].
    + apply list_elem_of_fmap in Hin as ([k v] & Hk & Hin). cbn in Hk. subst k.
      assert (Hinv : table_inv t).
      { apply table_ok_inv; [exact Hok|]. intros Hnil. rewrite Hnil in Hin.
        apply elem_of_nil in Hin. exact Hin. }
      destruct (remove_key_present HashFunction t key v Hinv Hin)
        as (t2 & Hr2 & Hinv2 & Hperm & _).
      rewrite Hr in Hr2. injection Hr2 as <-.
      unfold size. rewrite (inv_count _ _ Hinv), (inv_count _ _ Hinv2), Hperm.
      cbn [length]. lia.
    + rewrite (Hsame Hnin). reflexivity.
  - apply finds_absent; assumption.
  - intros k v Hin Hne. apply finds_present; [exact Hok'|].
    apply Hleft. split; [exact Hin | exact Hne].
Qed.

(** X3: on a table reached from the empty one, [remove] through the cursor
    that [find] returns for a stored key succeeds, drops exactly the pair
    under the cursor, lowers [size()] by one and keeps the bucket count;
    afterwards the key is not found and every other stored pair is. *)
Theorem X3_remove_found_cursor (fuel : nat) (ops : list operation) t key v :
  run fuel ops empty_map = Ok t ->
  (key, v) ∈ entries t ->
  exists it t' it',
    find t key = Ok it
    /\ deref t it = Some (key, v)
    /\ remove t it = Ok (t', it')
    /\ entries t ≡ₚ (key, v) :: entries t'
    /\ size t' = size t - 1
    /\ get_bucket_count t' = get_bucket_count t
    /\ finds t' key None
    /\ (forall k v', (k, v') ∈ entries t -> k <> key -> finds t' k (Some v')).
Proof.
  intros Hrun Hin. pose proof (reachable_ok fuel ops t Hrun) as Hok.
  assert (Hinv : table_inv t).
  { apply table_ok_inv; [exact Hok|]. intros Hnil. rewrite Hnil in Hin.
    apply elem_of_nil in Hin. exact Hin. }
  destruct (find_present HashFunction t key v Hinv Hin)
    as (it & Hfind & Hnn & Hpost & Hd).
  destruct (remove_ok HashFunction t key it Hinv Hpost Hnn)
    as (t' & it' & v0 & Hrem & Hd0 & Hinv' & Hperm & Hcap).
  rewrite Hd in Hd0. injection Hd0 as <-.
  pose proof (inv_keys _ _ Hinv) as Hnd. rewrite Hperm in Hnd.
  cbn [fmap list_fmap fst] in Hnd. apply NoDup_cons in Hnd as [Hfresh _].
  exists it, t', it'. repeat split; try assumption.
  - unfold size. rewrite (inv_count _ _ Hinv), (inv_count _ _ Hinv'), Hperm.
    cbn [length]. lia.
  - apply finds_absent; [right; exact Hinv' | exact Hfresh].
  - intros k v' Hin' Hne. apply finds_present; [right; exact Hinv'|].
    rewrite Hperm in Hin'. apply elem_of_cons in Hin' as [Heq|Hin']; [congruence | exact Hin'].
Qed.

Lemma apply_op_capacity fuel t op t' :
  table_ok t -> apply_op fuel t op = Ok t' -> bucket_count t <= bucket_count t'.
Proof.
  intros Hok Hop. destruct op as [key value|key]; cbn [turbokit.apply_op] in Hop.
  - apply drop_result_Ok in Hop as (r & Hr & <-).
    destruct (try_insert_post fuel t key value r Hok Hr) as (_ & Hle & _). exact Hle.
  - destruct (remove_key_spec HashFunction t key Hok) as (t1 & Hr & _ & Hcap & _).
    rewrite Hr in Hop. cbn in Hop. injection Hop as <-. lia.
Qed.

Lemma run_capacity fuel ops : forall t t',
  table_ok t -> run fuel ops t = Ok t' -> bucket_count t <= bucket_count t'.
Proof.
  induction ops as [|op ops IH]; intros t t' Hok Hrun.
  - injection Hrun as <-. lia.
  - cbn [turbokit.run] in Hrun. apply bind_Ok in Hrun as (t1 & H1 & Hrun).
    pose proof (apply_op_ok HashFunction sizeof_MainEntry fuel t op t1 Hok H1) as Hok1.
    pose proof (apply_op_capacity fuel t op t1 Hok H1) as Hle.
    specialize (IH t1 t' Hok1 Hrun). lia.
Qed.

(** X4: the bucket count never goes down: a run of insertions and
    erasures continued from a reached table ends with at least as many
    buckets, and with exactly as many when it only erases. *)
Theorem X4_bucket_count_monotone (fuel fuel' : nat) (ops ops' : list operation)
        t t' :
  run fuel ops empty_map = Ok t ->
  run fuel' ops' t = Ok t' ->
  get_bucket_count t <= get_bucket_count t'
  /\ ((forall op, op ∈ ops' -> exists key, op = Erase key) ->
      get_bucket_count t' = get_bucket_count t).
Proof.
  intros Hrun Hrun'. pose proof (reachable_ok fuel ops t Hrun) as Hok.
  clear Hrun. unfold get_bucket_count. revert t Hok Hrun'.
  induction ops' as [|op ops' IH]; intros t Hok Hrun'.
  - injection Hrun' as <-. split; [lia | reflexivity].
  - cbn [turbokit.run] in Hrun'. apply bind_Ok in Hrun' as (t1 & H1 & Hrun').
    pose proof (apply_op_ok HashFunction sizeof_MainEntry fuel' t op t1 Hok H1) as Hok1.
    pose proof (apply_op_capacity fuel' t op t1 Hok H1) as Hle.
    destruct (IH t1 Hok1 Hrun') as [Hmono Herase]. split; [lia|].
    intros Hall. rewrite Herase.
    + destruct (Hall op ltac:(left)) as [key ->]. cbn [turbokit.apply_op] in H1.
      destruct (remove_key_spec HashFunction t key Hok) as (t2 & Hr & _ & Hcap & _).
      rewrite Hr in H1. cbn in H1. injection H1 as <-. exact Hcap.
    + intros op' Hin. apply Hall. right. exact Hin.
Qed.

(** X5: in a table reached from the empty one, [size()] is the number of
    live slots of the two arrays, no key sits in two live slots, there
    are at most as many pairs as buckets, every stored pair is found
    under its key and a key that is not stored is not found. *)
Theorem X5_reached_table_consistent (fuel : nat) (ops : list operation) t :
  run fuel ops empty_map = Ok t ->
  size t = Z.of_nat (length (entries t))
  /\ NoDup (entries t).*1
  /\ size t <= get_bucket_count t
  /\ (forall k v, (k, v) ∈ entries t -> finds t k (Some v))
  /\ (forall k, k ∉ (entries t).*1 -> finds t k None).
Proof.
  intros Hrun. pose proof (reachable_ok fuel ops t Hrun) as Hok.
  split; [exact (table_ok_count HashFunction t Hok)|].
  split; [exact (table_ok_keys t Hok)|]. split.
  - destruct Hok as [->|Hinv]; [cbn; lia | exact (inv_room _ _ Hinv)].
  - split.
    + intros k v. apply finds_present. exact Hok.
    + intros k. apply finds_absent. exact Hok.
Qed.

Lemma try_insert_new_key_post fuel' t key value t' it (inserted : bool) :
  table_ok t ->
  key ∉ (entries t).*1 ->
  try_insert fuel' t key value = Ok (t', (it, inserted)) ->
  inserted = true
  /\ deref t' it = Some (key, value)
  /\ entries t' ≡ₚ (key, value) :: entries t
  /\ size t' = size t + 1
  /\ get_bucket_count t <= get_bucket_count t'
  /\ (forall k v, (k, v) ∈ entries t -> finds t' k (Some v))
  /\ finds t' key (Some value).
Proof.
  intros Hok Hnew Hins.
  destruct (try_insert_post fuel' t key value _ Hok Hins)
    as (Hinv' & Hcap & (v & Hd & Hv) & Hcase).
  cbn [fst snd] in Hinv', Hcap, Hd, Hv, Hcase.
  destruct inserted.
  2:{ destruct Hcase as [_ Hold]. destruct (Hnew Hold). }
  destruct Hcase as [_ Hperm].
  assert (Hvv : v = value).
  { apply (entry_unique t' key v value); [right; exact Hinv' | exact Hv|].
    rewrite Hperm. left. }
  subst v.
  split; [reflexivity|]. split; [exact Hd|]. split; [exact Hperm|]. split.
  { unfold size. rewrite (inv_count _ _ Hinv'), (table_ok_count HashFunction t Hok), Hperm.
    cbn [length]. lia. }
  split; [exact Hcap|]. split.
  - intros k v Hin. apply finds_present; [right; exact Hinv'|].
    rewrite Hperm. right. exact Hin.
  - apply finds_present; [right; exact Hinv' | exact Hv].
Qed.
End usage.

(** ** Traversal *)

(** The first index from [n] on at which [p] holds splits the live elements
    of the rest of an array. *)
Lemma omap_drop_first {A B} (f : A -> option B) (l : list A) (p : Z -> bool) :
  (forall (i : nat) x, l !! i = Some x -> p (Z.of_nat i) = true <-> is_Some (f x)) ->
  forall (m n : nat), (m + n = length l)%nat ->
    match first_index m (Z.of_nat n) p with
    | Some x =>
        exists a y, l !! Z.to_nat x = Some a /\ f a = Some y
                    /\ omap f (drop n l) = y :: omap f (drop (S (Z.to_nat x)) l)
    | None => omap f (drop n l) = []
    end.
Proof.
  intros Hp. induction m as [|m IH]; intros n Hlen.
  - cbn [first_index]. rewrite drop_ge by lia. reflexivity.
  - cbn [first_index].
    destruct (lookup_lt_is_Some_2 l n ltac:(lia)) as [a Ha].
    rewrite (drop_S l a n Ha). cbn [omap list_omap].
    destruct (p (Z.of_nat n)) eqn:Hpn.
    + destruct (proj1 (Hp n a Ha) Hpn) as [y Hy].
      exists a, y. rewrite Nat2Z.id. rewrite Hy. repeat split; assumption.
    + assert (Hnone : f a = None).
      { destruct (f a) eqn:Hf; [|reflexivity].
        rewrite (proj2 (Hp n a Ha) (ex_intro _ _ Hf)) in Hpn. discriminate. }
      rewrite Hnone. replace (Z.of_nat n + 1) with (Z.of_nat (S n)) by lia.
      apply IH. lia.
Qed.

Lemma omap_drop_live {A B} (f : A -> option B) (l : list A) (x : nat) a y :
  l !! x = Some a -> f a = Some y ->
  omap f (drop x l) = y :: omap f (drop (S x) l).
Proof. intros Ha Hy. rewrite (drop_S l a x Ha). cbn. rewrite Hy. reflexivity. Qed.

Lemma omap_length_le {A B} (f : A -> option B) (l : list A) :
  (length (omap f l) <= length l)%nat.
Proof.
  induction l as [|a l IH]; [reflexivity|]. cbn. destruct (f a); cbn; lia.
Qed.

Section traversal.
Context {KeyType ValueType : Type}.
Context `{!EqDecision KeyType, !Inhabited KeyType, !Inhabited ValueType}.
Context `{!SlotLayout KeyType ValueType}.
Local Abbreviation HashMap := (@HashMap KeyType ValueType).
Implicit Types (t : HashMap) (it : iterator).

Local Abbreviation main_live_b t :=
  (fun i => negb (isInvalid (chain_length (main_at t i)))).
Local Abbreviation coll_live_b t :=
  (fun i => negb (isInvalid (main_index (coll_at t i)))).

(** Where [operator++] stops in the collision table. *)
Lemma next_collision_spec t :
  pow2_capacity t ->
  forall fuel bi j p,
    0 <= j < bucket_count t ->
    (Z.to_nat (bucket_count t - j) <= fuel)%nat ->
    next_collision fuel t (mk_iterator bi j p)
    = Ok match first_index (Z.to_nat (bucket_count t - 1 - j)) (j + 1)
                 (coll_live_b t) with
         | Some j' => mk_iterator bi j' (collision_value_ptr j')
         | None => mk_iterator bi (bucket_count t - 1) nullptr
         end.
Proof.
  intros Hcap. pose proof (cap_bounds t Hcap) as Hc.
  induction fuel as [|fuel IH]; intros bi j p Hj Hfuel; [lia|].
  cbn [next_collision bucket_index collision_index].
  rewrite (wrap_small (bucket_count t - 1)) by (rewrite size_modulus_eq; lia).
  destruct (Z.eqb_spec j (bucket_count t - 1)) as [->|Hne].
  { replace (bucket_count t - 1 - (bucket_count t - 1)) with 0 by lia.
    reflexivity. }
  rewrite wrap_small by (rewrite size_modulus_eq; lia).
  rewrite (first_index_step (bucket_count t - 1 - j)) by lia.
  destruct (isInvalid (main_index (coll_at t (j + 1)))) eqn:Hv; cbn [negb].
  - rewrite IH by lia.
    replace (bucket_count t - 1 - (j + 1)) with (bucket_count t - 1 - j - 1) by lia.
    reflexivity.
  - reflexivity.
Qed.

(** Where [operator++] stops from a cursor in the main table. *)
Lemma next_main_spec t :
  pow2_capacity t ->
  forall fuel b ci p,
    0 <= b < bucket_count t ->
    (Z.to_nat (bucket_count t - b) <= fuel)%nat ->
    next_main fuel t (mk_iterator b ci p)
    = Ok match first_index (Z.to_nat (bucket_count t - 1 - b)) (b + 1)
                 (main_live_b t) with
         | Some b' => mk_iterator b' ci (main_value_ptr b')
         | None =>
             match first_index (Z.to_nat (bucket_count t)) 0 (coll_live_b t) with
             | Some j => mk_iterator invalid_marker j (collision_value_ptr j)
             | None => mk_iterator invalid_marker (bucket_count t - 1) nullptr
             end
         end.
Proof.
  intros Hcap. pose proof (cap_bounds t Hcap) as Hc.
  induction fuel as [|fuel IH]; intros b ci p Hb Hfuel; [lia|].
  cbn [next_main bucket_index collision_index].
  rewrite (wrap_small (bucket_count t - 1)) by (rewrite size_modulus_eq; lia).
  destruct (Z.eqb_spec b (bucket_count t - 1)) as [->|Hne].
  { replace (bucket_count t - 1 - (bucket_count t - 1)) with 0 by lia.
    cbn [Z.to_nat first_index].
    rewrite (first_index_step (bucket_count t)) by lia.
    destruct (isInvalid (main_index (coll_at t 0))) eqn:Hv; cbn [negb]; [|reflexivity].
    rewrite (next_collision_spec t Hcap) by lia.
    replace (bucket_count t - 1 - 0) with (bucket_count t - 1) by lia.
    reflexivity. }
  rewrite wrap_small by (rewrite size_modulus_eq; lia).
  rewrite (first_index_step (bucket_count t - 1 - b)) by lia.
  destruct (isInvalid (chain_length (main_at t (b + 1)))) eqn:Hv; cbn [negb].
  - rewrite IH by lia.
    replace (bucket_count t - 1 - (b + 1)) with (bucket_count t - 1 - b - 1) by lia.
    reflexivity.
  - reflexivity.
Qed.

Lemma main_live_b_spec t (i : nat) x :
  mains t !! i = Some x ->
  main_live_b t (Z.of_nat i) = true <-> is_Some (live_main x).
Proof.
  intros Hx. unfold main_at. rewrite Nat2Z.id.
  rewrite (list_lookup_total_correct _ _ _ Hx). unfold live_main.
  destruct (isInvalid (chain_length x)); cbn.
  - split; [discriminate | intros [? ?]; discriminate].
  - split; [intros _; eexists; reflexivity | reflexivity].
Qed.

Lemma coll_live_b_spec t (i : nat) x :
  colls t !! i = Some x ->
  coll_live_b t (Z.of_nat i) = true <-> is_Some (live_coll x).
Proof.
  intros Hx. unfold coll_at. rewrite Nat2Z.id.
  rewrite (list_lookup_total_correct _ _ _ Hx). unfold live_coll.
  destruct (isInvalid (main_index x)); cbn.
  - split; [discriminate | intros [? ?]; discriminate].
  - split; [intros _; eexists; reflexivity | reflexivity].
Qed.

Lemma live_main_at t b :
  isInvalid (chain_length (main_at t b)) = false ->
  live_main (main_at t b) = Some (main_key (main_at t b), main_value (main_at t b)).
Proof. intros H. unfold live_main. rewrite H. reflexivity. Qed.

Lemma live_coll_at t j :
  isInvalid (main_index (coll_at t j)) = false ->
  live_coll (coll_at t j) = Some (coll_key (coll_at t j), coll_value (coll_at t j)).
Proof. intros H. unfold live_coll. rewrite H. reflexivity. Qed.

(** With the value right behind the key, [operator*] reads the members
    of the slot. *)
Lemma operator_star_adjacent t it :
  offsetof_value = sizeof_KeyType -> operator_star t it = deref t it.
Proof.
  intros Hadj. unfold operator_star, deref, key_before_value.
  rewrite (proj2 (Z.eqb_eq _ _) Hadj). reflexivity.
Qed.

Section arrays_in_place.
Variable t : HashMap.
Hypothesis Hadj : offsetof_value = sizeof_KeyType.
Hypothesis Hcap : pow2_capacity t.
Hypothesis Hml : length (mains t) = Z.to_nat (bucket_count t).
Hypothesis Hcl : length (colls t) = Z.to_nat (bucket_count t).

(** From a cursor on a live collision slot the loop reads that slot and
    the live collision slots after it. *)
Lemma visits_coll (n : nat) : forall j bi,
  0 <= j < bucket_count t -> Z.to_nat (bucket_count t - j) = n ->
  isInvalid (main_index (coll_at t j)) = false ->
  visits t (mk_iterator bi j (collision_value_ptr j))
         (omap live_coll (drop (Z.to_nat j) (colls t))).
Proof.
  pose proof (cap_bounds t Hcap) as Hc.
  induction n as [n IH] using lt_wf_ind. intros j bi Hj Hn Hlive.
  rewrite (omap_drop_live live_coll (colls t) (Z.to_nat j) _ _
             (coll_lookup t j ltac:(lia)) (live_coll_at t j Hlive)).
  eapply visits_next.
  - discriminate.
  - rewrite (operator_star_adjacent _ _ Hadj). reflexivity.
  - unfold increment. cbn [collision_index].
    assert (Hnm : isInvalid j = false).
    { apply isInvalid_false. apply (valid_index_not_marker t j Hcap Hj). }
    rewrite Hnm. apply (next_collision_spec t Hcap); lia.
  - pose proof (omap_drop_first live_coll (colls t) (coll_live_b t)
                  (coll_live_b_spec t)
                  (Z.to_nat (bucket_count t - 1 - j)) (S (Z.to_nat j))
                  ltac:(lia)) as Hsplit.
    replace (Z.of_nat (S (Z.to_nat j))) with (j + 1) in Hsplit by lia.
    destruct (first_index (Z.to_nat (bucket_count t - 1 - j)) (j + 1) (coll_live_b t))
      as [j'|] eqn:Hfi.
    + destruct Hsplit as (a & y & Ha & Hy & ->).
      apply first_index_Some in Hfi as (Hr & Hp & _).
      rewrite <- (omap_drop_live live_coll (colls t) (Z.to_nat j') a y Ha Hy).
      apply (IH (Z.to_nat (bucket_count t - j'))); [lia | lia | reflexivity|].
      apply negb_true_iff. exact Hp.
    + rewrite Hsplit. apply visits_end. reflexivity.
Qed.

(** From a cursor on a live main slot the loop reads that slot, the
    live main slots after it, and then the live collision slots. *)
Lemma visits_main (n : nat) : forall b,
  0 <= b < bucket_count t -> Z.to_nat (bucket_count t - b) = n ->
  isInvalid (chain_length (main_at t b)) = false ->
  visits t (mk_iterator b invalid_marker (main_value_ptr b))
         (omap live_main (drop (Z.to_nat b) (mains t))
          ++ omap live_coll (colls t)).
Proof.
  pose proof (cap_bounds t Hcap) as Hc.
  induction n as [n IH] using lt_wf_ind. intros b Hb Hn Hlive.
  rewrite (omap_drop_live live_main (mains t) (Z.to_nat b) _ _
             (main_lookup t b ltac:(lia)) (live_main_at t b Hlive)).
  cbn [app]. eapply visits_next.
  - discriminate.
  - rewrite (operator_star_adjacent _ _ Hadj). reflexivity.
  - unfold increment. cbn [collision_index].
    change (isInvalid invalid_marker) with true. cbn match.
    apply (next_main_spec t Hcap); lia.
  - pose proof (omap_drop_first live_main (mains t) (main_live_b t)
                  (main_live_b_spec t)
                  (Z.to_nat (bucket_count t - 1 - b)) (S (Z.to_nat b))
                  ltac:(lia)) as Hsplit.
    replace (Z.of_nat (S (Z.to_nat b))) with (b + 1) in Hsplit by lia.
    destruct (first_index (Z.to_nat (bucket_count t - 1 - b)) (b + 1) (main_live_b t))
      as [b'|] eqn:Hfi.
    + destruct Hsplit as (a & y & Ha & Hy & ->).
      apply first_index_Some in Hfi as (Hr & Hp & _).
      rewrite <- (omap_drop_live live_main (mains t) (Z.to_nat b') a y Ha Hy).
      apply (IH (Z.to_nat (bucket_count t - b'))); [lia | lia | reflexivity|].
      apply negb_true_iff. exact Hp.
    + rewrite Hsplit. cbn [app].
      pose proof (omap_drop_first live_coll (colls t) (coll_live_b t)
                    (coll_live_b_spec t) (Z.to_nat (bucket_count t)) 0%nat
                    ltac:(lia)) as Hsplit'.
      change (Z.of_nat 0) with 0 in Hsplit'. rewrite drop_0 in Hsplit'.
      destruct (first_index (Z.to_nat (bucket_count t)) 0 (coll_live_b t))
        as [j|] eqn:Hfj.
      * destruct Hsplit' as (a & y & Ha & Hy & ->).
        apply first_index_Some in Hfj as (Hr & Hp & _).
        rewrite <- (omap_drop_live live_coll (colls t) (Z.to_nat j) a y Ha Hy).
        apply (visits_coll (Z.to_nat (bucket_count t - j))); [lia | reflexivity|].
        apply negb_true_iff. exact Hp.
      * rewrite Hsplit'. apply visits_end. reflexivity.
Qed.

Lemma visits_begin_allocated :
  is_Some (main_table t) -> visits t (begin t) (entries t).
Proof.
  pose proof (cap_bounds t Hcap) as Hc.
  intros [ml Hm]. unfold begin, entries. rewrite Hm.
  pose proof (omap_drop_first live_main (mains t) (main_live_b t)
                (main_live_b_spec t) (Z.to_nat (bucket_count t)) 0%nat
                ltac:(lia)) as Hsplit.
  change (Z.of_nat 0) with 0 in Hsplit. rewrite drop_0 in Hsplit.
  destruct (first_index (Z.to_nat (bucket_count t)) 0 (main_live_b t))
    as [b|] eqn:Hfi.
  - destruct Hsplit as (a & y & Ha & Hy & ->).
    apply first_index_Some in Hfi as (Hr & Hp & _).
    rewrite <- (omap_drop_live live_main (mains t) (Z.to_nat b) a y Ha Hy).
    apply (visits_main (Z.to_nat (bucket_count t - b))); [lia | reflexivity|].
    apply negb_true_iff. exact Hp.
  - rewrite Hsplit. cbn [app].
    pose proof (omap_drop_first live_coll (colls t) (coll_live_b t)
                  (coll_live_b_spec t) (Z.to_nat (bucket_count t)) 0%nat
                  ltac:(lia)) as Hsplit'.
    change (Z.of_nat 0) with 0 in Hsplit'. rewrite drop_0 in Hsplit'.
    destruct (first_index (Z.to_nat (bucket_count t)) 0 (coll_live_b t))
      as [j|] eqn:Hfj.
    + destruct Hsplit' as (a & y & Ha & Hy & ->).
      apply first_index_Some in Hfj as (Hr & Hp & _).
      rewrite <- (omap_drop_live live_coll (colls t) (Z.to_nat j) a y Ha Hy).
      apply (visits_coll (Z.to_nat (bucket_count t - j))); [lia | reflexivity|].
      apply negb_true_iff. exact Hp.
    + rewrite Hsplit'. apply visits_end. reflexivity.
Qed.
End arrays_in_place.
End traversal.

Section loops.
Context {KeyType ValueType : Type}.
Context `{!EqDecision KeyType, !Inhabited KeyType, !Inhabited ValueType}.
Context `{!SlotLayout KeyType ValueType}.
Variable HashFunction : KeyType -> Z.
Variable sizeof_MainEntry : Z.
Local Abbreviation HashMap := (@HashMap KeyType ValueType).
Local Abbreviation table_inv := (table_inv HashFunction).
Local Abbreviation table_ok := (table_ok HashFunction).
Local Abbreviation finds := (finds HashFunction).
Local Abbreviation run := (run HashFunction sizeof_MainEntry).
Local Abbreviation copy_loop := (copy_loop HashFunction sizeof_MainEntry).
Local Abbreviation copy_construct := (copy_construct HashFunction sizeof_MainEntry).
Local Abbreviation empty_map := (@empty_map KeyType ValueType).
Local Abbreviation operation := (@operation KeyType ValueType).
Implicit Types (t : HashMap) (it : iterator).

Lemma visits_begin t :
  offsetof_value = sizeof_KeyType -> table_ok t ->
  visits t (begin t) (entries t).
Proof.
  intros Hadj [->|Hinv].
  - apply visits_end. reflexivity.
  - apply visits_begin_allocated.
    + exact Hadj.
    + exact (inv_capacity _ _ Hinv).
    + exact (inv_main_length _ _ Hinv).
    + exact (inv_coll_length _ _ Hinv).
    + exact (inv_main_alloc _ _ Hinv).
Qed.

Lemma entries_length_le t :
  table_ok t -> (length (entries t) <= 2 * Z.to_nat (bucket_count t))%nat.
Proof.
  intros [->|Hinv]; [cbn; lia|].
  unfold entries. rewrite length_app.
  pose proof (omap_length_le live_main (mains t)).
  pose proof (omap_length_le live_coll (colls t)).
  rewrite (inv_main_length _ _ Hinv) in *. rewrite (inv_coll_length _ _ Hinv) in *.
  lia.
Qed.

(** The loop of [operator=] inserts what the range-for reads. *)
Lemma copy_loop_visits fuel (other : HashMap) it
      (l : list (KeyType * ValueType)) :
  visits other it l ->
  forall rounds this, (length l < rounds)%nat ->
    copy_loop rounds fuel this other it = run fuel (insert_all l) this.
Proof.
  induction 1 as [it Hnull|it kv it' l Hnn Hd Hinc Hv IH];
    intros rounds this Hr; (destruct rounds as [|rounds]; [cbn in Hr; lia|]).
  - cbn [turbokit.copy_loop]. unfold iterator_eq. rewrite Hnull. reflexivity.
  - cbn [turbokit.copy_loop]. unfold iterator_eq.
    rewrite bool_decide_eq_false_2 by exact Hnn.
    rewrite Hd. destruct kv as [k v].
    cbn [insert_all fmap list_fmap turbokit.run turbokit.apply_op fst snd].
    unfold drop_result.
    destruct (insert HashFunction sizeof_MainEntry fuel this (k, v)) as [r| | |];
      cbn [bind]; try reflexivity.
    rewrite Hinc. cbn [bind]. apply IH. cbn in Hr. lia.
Qed.

(** X7: when the value member lies right behind the key member, the
    range-for loop from [begin()] over a table reached from the empty one
    reads, through [operator*], every stored pair exactly once: the live
    main slots in ascending order, then the live collision slots in
    ascending order; the number of rounds is [size()]. *)
Theorem X7_iteration_visits_entries (fuel : nat) (ops : list operation) t :
  offsetof_value = sizeof_KeyType ->
  run fuel ops empty_map = Ok t ->
  visits t (begin t) (entries t)
  /\ Z.of_nat (length (entries t)) = size t
  /\ NoDup (entries t).*1.
Proof.
  intros Hadj Hrun.
  pose proof (reachable_ok HashFunction sizeof_MainEntry fuel ops t Hrun) as Hok.
  split; [exact (visits_begin t Hadj Hok)|]. split.
  - symmetry. exact (table_ok_count HashFunction t Hok).
  - exact (table_ok_keys HashFunction t Hok).
Qed.

(** X8: when the value member lies right behind the key member, copy
    construction from a table reached from the empty one returns a table
    that stores the same pairs: the same [size()], every pair of the
    source found under its key, and no other key found. *)
Theorem X8_copy_construct_same_pairs (fuel fuel' : nat) (ops : list operation)
        (other : HashMap) :
  offsetof_value = sizeof_KeyType ->
  run fuel ops empty_map = Ok other ->
  size other <= 2 ^ 60 ->
  (125 <= fuel')%nat ->
  exists copy,
    copy_construct fuel' other = Ok copy
    /\ entries copy ≡ₚ entries other
    /\ size copy = size other
    /\ (forall k v, (k, v) ∈ entries other -> finds copy k (Some v))
    /\ (forall k, k ∉ (entries other).*1 -> finds copy k None).
Proof.
  intros Hadj Hrun Hsize Hfuel.
  pose proof (reachable_ok HashFunction sizeof_MainEntry fuel ops other Hrun) as Hok.
  pose proof (table_ok_count HashFunction other Hok) as Hcount.
  unfold size in Hsize.
  destruct (insert_run HashFunction sizeof_MainEntry 62
              (Z.of_nat (length (entries other)))
              ltac:(lia) ltac:(change (2 ^ 62) with (4 * 2 ^ 60); lia)
              fuel' (entries other) ltac:(change (Z.to_nat 62) with 62%nat; lia)
              empty_map (table_ok_empty HashFunction)
              (@dense_empty KeyType ValueType _ _)
              ltac:(cbn; lia) ltac:(cbn; lia))
    as (copy & Hcopy & Hok' & _ & _ & _ & _ & Hperm).
  specialize (Hperm (table_ok_keys HashFunction other Hok)
                ltac:(intros k _ Hk; cbn in Hk; apply elem_of_nil in Hk; exact Hk)).
  rewrite app_nil_r in Hperm.
  exists copy. split.
  { unfold turbokit.copy_construct, assign. cbn [bind clear].
    change (clear empty_map) with (Ok empty_map). cbn [bind].
    rewrite (copy_loop_visits fuel' other (begin other) (entries other)
               (visits_begin other Hadj Hok)).
    - exact Hcopy.
    - pose proof (entries_length_le other Hok). lia. }
  split; [exact Hperm|]. split.
  { unfold size. rewrite (table_ok_count HashFunction copy Hok'), Hcount, Hperm.
    reflexivity. }
  split.
  - intros k v Hin. apply (finds_present HashFunction); [exact Hok'|].
    rewrite Hperm. exact Hin.
  - intros k Hnin. apply (finds_absent HashFunction); [exact Hok'|].
    rewrite Hperm. exact Hnin.
Qed.
End loops.

Section writing.
Context {KeyType ValueType : Type}.
Context `{!EqDecision KeyType, !Inhabited KeyType, !Inhabited ValueType}.
Context `{!SlotLayout KeyType ValueType}.
Context {Context_ : Type}.
Variable HashFunction : KeyType -> Z.
Variable sizeof_MainEntry : Z.
Variable write_size : Context_ -> Z -> Context_.
Variable write_pair : Context_ -> KeyType -> ValueType -> Context_.
Local Abbreviation HashMap := (@HashMap KeyType ValueType).
Local Abbreviation run := (run HashFunction sizeof_MainEntry).
Local Abbreviation empty_map := (@empty_map KeyType ValueType).
Local Abbreviation operation := (@operation KeyType ValueType).
Local Abbreviation serialize_loop := (serialize_loop write_pair).
Local Abbreviation serialize_map := (serialize_map write_size write_pair).

Lemma serialize_loop_visits (map : HashMap) it
      (l : list (KeyType * ValueType)) :
  visits map it l ->
  forall rounds context, (length l < rounds)%nat ->
    serialize_loop rounds context map it
    = Ok (fold_left (fun c kv => write_pair c kv.1 kv.2) l context).
Proof.
  induction 1 as [it Hnull|it kv it' l Hnn Hd Hinc Hv IH];
    intros rounds context Hr; (destruct rounds as [|rounds]; [cbn in Hr; lia|]).
  - cbn [turbokit.serialize_loop]. unfold iterator_eq. rewrite Hnull. reflexivity.
  - cbn [turbokit.serialize_loop]. unfold iterator_eq.
    rewrite bool_decide_eq_false_2 by exact Hnn.
    rewrite Hd, Hinc. cbn [bind fold_left]. apply IH. cbn in Hr. lia.
Qed.

(** X9: when the value member lies right behind the key member, writing
    out a table reached from the empty one hands the context [size()] and
    then each stored pair once, main slots first and collision slots
    after, so the count written is the number of pairs that follow. *)
Theorem X9_serialize_map_writes_entries (fuel : nat) (ops : list operation)
        (map : HashMap) (context : Context_) :
  offsetof_value = sizeof_KeyType ->
  run fuel ops empty_map = Ok map ->
  serialize_map context map
  = Ok (fold_left (fun c kv => write_pair c kv.1 kv.2) (entries map)
                  (write_size context (size map)))
  /\ size map = Z.of_nat (length (entries map)).
Proof.
  intros Hadj Hrun.
  pose proof (reachable_ok HashFunction sizeof_MainEntry fuel ops map Hrun) as Hok.
  split; [|exact (table_ok_count HashFunction map Hok)].
  unfold turbokit.serialize_map.
  apply (serialize_loop_visits map (begin map) (entries map)
           (visits_begin HashFunction map Hadj Hok)).
  pose proof (entries_length_le HashFunction map Hok). lia.
Qed.
End writing.

(** ** [clear] *)

Section clearing.
Context {KeyType ValueType : Type}.
Context `{!EqDecision KeyType, !Inhabited KeyType, !Inhabited ValueType}.
Variable HashFunction : KeyType -> Z.
Variable sizeof_MainEntry : Z.
Local Abbreviation HashMap := (@HashMap KeyType ValueType).
Local Abbreviation table_inv := (table_inv HashFunction).
Local Abbreviation table_ok := (table_ok HashFunction).
Local Abbreviation finds := (finds HashFunction).
Local Abbreviation run := (run HashFunction sizeof_MainEntry).
Local Abbreviation empty_map := (@empty_map KeyType ValueType).
Local Abbreviation operation := (@operation KeyType ValueType).
Implicit Types (t : HashMap) (it : iterator).

(** A live collision slot has a live owner with a non-empty span. *)
Lemma coll_owner_live t j :
  table_inv t -> 0 <= j < bucket_count t -> coll_live t j ->
  exists o, 0 <= o < bucket_count t /\ main_live t o
            /\ 0 < chain_length (main_at t o).
Proof.
  intros Hinv Hj Hlive.
  destruct (inv_owner _ _ Hinv j Hj Hlive) as (Ho & Hol & i & Hi & _).
  eexists. split; [exact Ho|]. split; [exact Hol | lia].
Qed.

Lemma no_main_no_entries t :
  table_inv t -> (forall b, 0 <= b < bucket_count t -> ~ main_live t b) ->
  entries t = [].
Proof.
  intros Hinv Hdead.
  destruct (entries t) as [|kv l] eqn:He; [reflexivity|]. exfalso.
  assert (Hin : kv ∈ entries t) by (rewrite He; left).
  apply elem_of_entries in Hin as [(b & Hb & Hl & _)|(j & Hj & Hl & _)].
  - rewrite (inv_main_len _ t Hinv) in Hb. exact (Hdead b Hb Hl).
  - rewrite (inv_coll_len _ t Hinv) in Hj.
    destruct (coll_owner_live t j Hinv Hj Hl) as (o & Ho & Hol & _).
    exact (Hdead o Ho Hol).
Qed.

(** One round of [clear]: the cursor stays on the first live main slot,
    or the table is empty and the cursor is [end()]. *)
Lemma remove_first_main t it :
  table_inv t -> first_main_cursor t it ->
  exists t' it',
    remove t it = Ok (t', it')
    /\ table_inv t'
    /\ bucket_count t' = bucket_count t
    /\ element_count t' = element_count t - 1
    /\ (first_main_cursor t' it' \/ (value_ptr it' = nullptr /\ entries t' = [])).
Proof.
  intros Hinv (b & Hb & -> & Hlive & Hbefore).
  pose proof (inv_cap_bounds _ t Hinv) as Hc.
  pose proof (inv_capacity _ _ Hinv) as Hcap.
  pose proof (inv_main_hash _ _ Hinv b Hb Hlive) as Hhash.
  assert (Hpost : find_post HashFunction t (main_key (main_at t b))
                    (mk_iterator b invalid_marker (main_value_ptr b))).
  { apply found_main; rewrite Hhash; [exact Hlive | reflexivity | reflexivity]. }
  destruct (remove_ok HashFunction t _ _ Hinv Hpost ltac:(discriminate))
    as (t' & it' & v & Hrem & _ & Hinv' & Hperm & Hcap').
  exists t', it'. split; [exact Hrem|]. split; [exact Hinv'|]. split; [exact Hcap'|].
  split.
  { rewrite (inv_count _ _ Hinv), (inv_count _ _ Hinv'), Hperm. cbn [length]. lia. }
  pose proof (inv_span _ _ Hinv _ Hb Hlive) as Hspan.
  pose proof (inv_main_len _ t Hinv) as Hml.
  unfold remove in Hrem. cbv zeta in Hrem. cbn [bucket_index collision_index] in Hrem.
  change (isInvalid invalid_marker) with true in Hrem. cbv iota in Hrem.
  change (main_at (set_count t (wrap (element_count t - 1))) b)
    with (main_at t b) in Hrem.
  destruct (Z.eqb_spec (chain_length (main_at t b)) 0) as [Hz|Hnz]; cbn [negb] in Hrem.
  - unfold increment in Hrem. cbn [collision_index] in Hrem.
    change (isInvalid invalid_marker) with true in Hrem. cbv iota in Hrem.
    rewrite (next_main_spec (set_count t (wrap (element_count t - 1))) Hcap) in Hrem
      by (cbn [bucket_count set_count]; lia).
    cbn [bind] in Hrem. injection Hrem as <- <-.
    set (t1 := set_count t (wrap (element_count t - 1))).
    set (t' := set_main t1 b (set_chain_length (main_at t b) invalid_marker)) in *.
    assert (Hat : forall b', 0 <= b' -> b' <> b -> main_at t' b' = main_at t b').
    { intros b' Hb' Hne. unfold t'. rewrite main_at_set_main_ne by lia. reflexivity. }
    assert (Hatb : ~ main_live t' b).
    { unfold main_live, t'. rewrite main_at_set_main_eq.
      - intros Hx. apply Hx. reflexivity.
      - change (mains t1) with (mains t). lia. }
    change (bucket_count t1) with (bucket_count t).
    destruct (first_index (Z.to_nat (bucket_count t - 1 - b)) (b + 1)
                (fun i => negb (isInvalid (chain_length (main_at t1 i)))))
      as [b''|] eqn:Hfi.
    + left. apply first_index_Some in Hfi as (Hr & Hp & Hq).
      exists b''. split; [change (bucket_count t') with (bucket_count t); lia|].
      split; [reflexivity|]. split.
      * unfold main_live. rewrite Hat by lia.
        apply isInvalid_false. apply negb_true_iff. exact Hp.
      * intros b' Hb'. destruct (decide (b' = b)) as [->|Hne]; [exact Hatb|].
        unfold main_live. rewrite Hat by lia.
        destruct (decide (b' < b)) as [Hlt|Hge]; [apply Hbefore; lia|].
        intros Hx. apply isInvalid_false in Hx.
        specialize (Hq b' ltac:(lia)).
        change (main_at t1 b') with (main_at t b') in Hq.
        rewrite Hx in Hq. discriminate.
    + right. rewrite first_index_None in Hfi.
      assert (Hdead : forall b', 0 <= b' < bucket_count t -> b' <> b -> ~ main_live t b').
      { intros b' Hb' Hne. destruct (decide (b' < b)) as [Hlt|Hge]; [apply Hbefore; lia|].
        intros Hx. apply isInvalid_false in Hx.
        specialize (Hfi b' ltac:(lia)).
        change (main_at t1 b') with (main_at t b') in Hfi.
        rewrite Hx in Hfi. discriminate. }
      assert (Hnocoll : forall j, 0 <= j < bucket_count t -> ~ coll_live t j).
      { intros j Hj Hl.
        destruct (coll_owner_live t j Hinv Hj Hl) as (o & Ho & Hol & Hspan').
        destruct (decide (o = b)) as [->|Hne]; [lia|].
        exact (Hdead o Ho Hne Hol). }
      assert (Hfc : first_index (Z.to_nat (bucket_count t)) 0
                      (fun i => negb (isInvalid (main_index (coll_at t1 i)))) = None).
      { apply first_index_None. intros j Hj.
        change (coll_at t1 j) with (coll_at t j).
        destruct (isInvalid (main_index (coll_at t j))) eqn:Hv; [reflexivity|].
        apply isInvalid_false in Hv. destruct (Hnocoll j ltac:(lia) Hv). }
      rewrite Hfc. split; [reflexivity|].
      apply no_main_no_entries; [exact Hinv'|].
      intros b' Hb'. change (bucket_count t') with (bucket_count t) in Hb'.
      destruct (decide (b' = b)) as [->|Hne]; [exact Hatb|].
      unfold main_live. rewrite Hat by lia. exact (Hdead b' Hb' Hne).
  - left. injection Hrem as <- <-.
    exists b. split; [cbn; lia|]. split; [reflexivity|].
    rewrite (wrap_small (chain_length (main_at t b) - 1)) by (rewrite size_modulus_eq; lia).
    match goal with
    | |- context [set_main ?t3 b (set_chain_length ?e ?cl')] =>
        set (T3 := t3); set (CL := cl')
    end.
    assert (Hl3 : Z.of_nat (length (mains T3)) = bucket_count t).
    { unfold T3. rewrite mains_set_main, length_insert.
      change (mains (set_coll _ _ _)) with (mains t). lia. }
    split.
    + unfold main_live. rewrite main_at_set_main_eq by lia.
      change (CL <> invalid_marker).
      assert (HCL : 0 <= CL <= chain_length (main_at t b) - 1).
      { assert (Hr1 : 0 <= chain_length (main_at t b) - 1 < bucket_count T3).
        { change (bucket_count T3) with (bucket_count t). lia. }
        pose proof (walk_back_spec T3 b Hcap Hb
                      (Z.to_nat (chain_length (main_at t b) - 1))
                      (chain_length (main_at t b) - 1) Hr1 (Nat.le_refl _)) as Hwb.
        cbv zeta in Hwb. destruct Hwb as [Hr _]. exact Hr. }
      rewrite invalid_marker_eq. lia.
    + intros b' Hb'. unfold main_live.
      rewrite main_at_set_main_ne by lia.
      unfold T3. rewrite main_at_set_main_ne by lia.
      rewrite main_at_set_coll. apply Hbefore. exact Hb'.
Qed.

Lemma clear_loop_spec (n : nat) : forall fuel t it,
  table_inv t -> Z.to_nat (element_count t) = n -> (n < fuel)%nat ->
  first_main_cursor t it \/ (value_ptr it = nullptr /\ entries t = []) ->
  exists t', clear_loop fuel t it = Ok t'
             /\ table_inv t' /\ entries t' = []
             /\ bucket_count t' = bucket_count t.
Proof.
  induction n as [n IH] using lt_wf_ind.
  intros fuel t it Hinv Hn Hfuel Hcur.
  destruct fuel as [|fuel]; [lia|]. cbn [clear_loop]. unfold iterator_eq.
  destruct Hcur as [Hcur|[Hnull Hnil]].
  - destruct (remove_first_main t it Hinv Hcur)
      as (t1 & it1 & Hrem & Hinv1 & Hcap1 & Hcount1 & Hcur1).
    destruct Hcur as (b & _ & -> & _). cbn [value_ptr end_].
    rewrite bool_decide_eq_false_2 by discriminate.
    rewrite Hrem. cbn [bind fst snd].
    pose proof (inv_count_nonneg HashFunction t1 Hinv1) as Hnn.
    destruct (IH (Z.to_nat (element_count t1)) ltac:(lia) fuel t1 it1 Hinv1
                eq_refl ltac:(lia) Hcur1) as (t' & Hloop & Hinv' & Hnil' & Hcap').
    exists t'. split; [exact Hloop|]. split; [exact Hinv'|]. split; [exact Hnil'|].
    lia.
  - rewrite Hnull. cbn [value_ptr end_].
    rewrite bool_decide_eq_true_2 by reflexivity.
    exists t. split; [reflexivity|]. split; [exact Hinv|].
    split; [exact Hnil | reflexivity].
Qed.

Lemma begin_cursor t :
  table_inv t ->
  first_main_cursor t (begin t) \/ (value_ptr (begin t) = nullptr /\ entries t = []).
Proof.
  intros Hinv.
  destruct (entries t) as [|kv l] eqn:He.
  - right. split; [|reflexivity].
    rewrite (begin_empty HashFunction t (or_intror Hinv) He). reflexivity.
  - left. unfold begin. destruct (inv_main_alloc _ _ Hinv) as [ml ->].
    destruct (first_index (Z.to_nat (bucket_count t)) 0
                (fun i => negb (isInvalid (chain_length (main_at t i)))))
      as [b|] eqn:Hfi.
    + apply first_index_Some in Hfi as (Hr & Hp & Hq).
      exists b. split; [lia|]. split; [reflexivity|]. split.
      * apply isInvalid_false. apply negb_true_iff. exact Hp.
      * intros b' Hb' Hx. apply isInvalid_false in Hx.
        specialize (Hq b' ltac:(lia)). rewrite Hx in Hq. discriminate.
    + exfalso. rewrite first_index_None in Hfi.
      assert (Hnil : entries t = []).
      { apply no_main_no_entries; [exact Hinv|]. intros b Hb Hx.
        apply isInvalid_false in Hx.
        specialize (Hfi b ltac:(lia)). rewrite Hx in Hfi. discriminate. }
      rewrite Hnil in He. discriminate.
Qed.

Lemma clear_spec t :
  table_ok t ->
  exists t', clear t = Ok t' /\ table_ok t' /\ entries t' = []
             /\ bucket_count t' = bucket_count t.
Proof.
  intros [->|Hinv].
  - exists empty_map. split; [reflexivity|]. split; [left; reflexivity|].
    split; reflexivity.
  - pose proof (inv_room _ _ Hinv) as Hroom.
    pose proof (inv_count_nonneg HashFunction t Hinv) as Hnn.
    destruct (clear_loop_spec (Z.to_nat (element_count t))
                (S (2 * Z.to_nat (bucket_count t))) t (begin t) Hinv eq_refl
                ltac:(lia) (begin_cursor t Hinv))
      as (t' & Hloop & Hinv' & Hnil & Hcap).
    exists t'. split; [exact Hloop|]. split; [right; exact Hinv'|].
    split; [exact Hnil | exact Hcap].
Qed.
End clearing.

(** ** The remaining members *)

Section members.
Context {KeyType ValueType : Type}.
Context `{!EqDecision KeyType, !Inhabited KeyType, !Inhabited ValueType}.
Context `{!SlotLayout KeyType ValueType}.
Variable HashFunction : KeyType -> Z.
Variable sizeof_MainEntry : Z.
Local Abbreviation HashMap := (@HashMap KeyType ValueType).
Local Abbreviation table_inv := (table_inv HashFunction).
Local Abbreviation table_ok := (table_ok HashFunction).
Local Abbreviation find := (find HashFunction).
Local Abbreviation finds := (finds HashFunction).
Local Abbreviation try_insert := (try_insert HashFunction sizeof_MainEntry).
Local Abbreviation run := (run HashFunction sizeof_MainEntry).
Local Abbreviation assign := (assign HashFunction sizeof_MainEntry).
Local Abbreviation reserve := (reserve HashFunction sizeof_MainEntry).
Local Abbreviation subscript := (subscript HashFunction sizeof_MainEntry).
Local Abbreviation empty_map := (@empty_map KeyType ValueType).
Local Abbreviation operation := (@operation KeyType ValueType).
Implicit Types (t : HashMap) (key : KeyType) (it : iterator).

Local Abbreviation reached := (reachable_ok HashFunction sizeof_MainEntry).

Lemma no_entries_dense t : table_inv t -> entries t = [] -> dense t.
Proof.
  intros Hinv Hnil b i Hb Hlive _. exfalso.
  assert (Hin : (main_key (main_at t b), main_value (main_at t b)) ∈ entries t).
  { apply elem_of_entries. left. exists b. rewrite (inv_main_len _ t Hinv).
    split; [lia|]. split; [exact Hlive | reflexivity]. }
  rewrite Hnil in Hin. apply elem_of_nil in Hin. exact Hin.
Qed.

Lemma table_ok_dense_empty t : table_ok t -> entries t = [] -> dense t.
Proof.
  intros [->|Hinv] Hnil; [apply dense_empty | exact (no_entries_dense t Hinv Hnil)].
Qed.

(** X10: [clear()] on a table reached from the empty one always returns;
    afterwards [size()] is 0, [empty()] holds, no slot is live,
    [begin() == end()], no key is found, and the bucket count is what it
    was. *)
Theorem X10_clear_empties (fuel : nat) (ops : list operation) t :
  run fuel ops empty_map = Ok t ->
  exists t',
    clear t = Ok t'
    /\ size t' = 0
    /\ empty t' = true
    /\ entries t' = []
    /\ iterator_eq (begin t') (end_ t') = true
    /\ get_bucket_count t' = get_bucket_count t
    /\ forall key, finds t' key None.
Proof.
  intros Hrun. pose proof (reached fuel ops t Hrun) as Hok.
  destruct (clear_spec HashFunction t Hok) as (t' & Hclear & Hok' & Hnil & Hcap).
  assert (Hsize : size t' = 0).
  { unfold size. rewrite (table_ok_count HashFunction t' Hok'), Hnil. reflexivity. }
  exists t'. split; [exact Hclear|]. split; [exact Hsize|]. split.
  { unfold empty. unfold size in Hsize. rewrite Hsize. reflexivity. }
  split; [exact Hnil|]. split.
  { rewrite (begin_empty HashFunction t' Hok' Hnil). reflexivity. }
  split; [exact Hcap|].
  intros key. apply (finds_absent HashFunction); [exact Hok'|].
  rewrite Hnil. apply not_elem_of_nil.
Qed.

(** X11: when the value member lies right behind the key member, copy
    assignment [this = other] between two distinct tables, each reached
    from the empty one, returns a table that stores exactly the pairs of
    [other], whatever [this] stored before, and has at least the buckets
    [this] had. *)
Theorem X11_assign_same_pairs (fuel fuel' fuel'' : nat)
        (ops ops' : list operation) (this other : HashMap) :
  offsetof_value = sizeof_KeyType ->
  run fuel ops empty_map = Ok this ->
  run fuel' ops' empty_map = Ok other ->
  get_bucket_count this <= 2 ^ 62 ->
  size other <= 2 ^ 60 ->
  (125 <= fuel'')%nat ->
  exists t',
    assign fuel'' this other = Ok t'
    /\ entries t' ≡ₚ entries other
    /\ size t' = size other
    /\ get_bucket_count this <= get_bucket_count t'
    /\ (forall k v, (k, v) ∈ entries other -> finds t' k (Some v))
    /\ (forall k, k ∉ (entries other).*1 -> finds t' k None).
Proof.
  intros Hadj Hthis Hother Hcap Hsize Hfuel.
  pose proof (reached fuel ops this Hthis) as Hok.
  pose proof (reached fuel' ops' other Hother) as Hoko.
  pose proof (table_ok_count HashFunction other Hoko) as Hcount.
  unfold size in Hsize. unfold get_bucket_count in *.
  destruct (clear_spec HashFunction this Hok) as (t0 & Hclear & Hok0 & Hnil & Hcap0).
  assert (Hcount0 : element_count t0 = 0).
  { rewrite (table_ok_count HashFunction t0 Hok0), Hnil. reflexivity. }
  destruct (insert_run HashFunction sizeof_MainEntry 62
              (Z.of_nat (length (entries other)))
              ltac:(lia) ltac:(change (2 ^ 62) with (4 * 2 ^ 60); lia)
              fuel'' (entries other) ltac:(change (Z.to_nat 62) with 62%nat; lia)
              t0 Hok0 (table_ok_dense_empty t0 Hok0 Hnil)
              ltac:(lia) ltac:(lia))
    as (t' & Hrun & Hok' & _ & _ & _ & _ & Hperm).
  specialize (Hperm (table_ok_keys HashFunction other Hoko)).
  rewrite Hnil, app_nil_r in Hperm.
  specialize (Hperm ltac:(intros k _ Hk; cbn in Hk; apply elem_of_nil in Hk; exact Hk)).
  exists t'. split.
  { unfold turbokit.assign. rewrite Hclear. cbn [bind].
    rewrite (copy_loop_visits HashFunction sizeof_MainEntry fuel'' other
               (begin other) (entries other)
               (visits_begin HashFunction other Hadj Hoko)).
    - exact Hrun.
    - pose proof (entries_length_le HashFunction other Hoko). lia. }
  split; [exact Hperm|]. split.
  { unfold size. rewrite (table_ok_count HashFunction t' Hok'), Hcount, Hperm.
    reflexivity. }
  split.
  { rewrite <- Hcap0.
    exact (run_capacity HashFunction sizeof_MainEntry fuel'' _ t0 t' Hok0 Hrun). }
  split.
  - intros k v Hin. apply (finds_present HashFunction); [exact Hok'|].
    rewrite Hperm. exact Hin.
  - intros k Hnin. apply (finds_absent HashFunction); [exact Hok'|].
    rewrite Hperm. exact Hnin.
Qed.

(** [try_insert] returns on every consistent table that leaves room for
    one doubling below 2^62 buckets. *)
Lemma try_insert_returns_slack fuel t key args :
  table_ok t -> bucket_count t <= 2 ^ 61 -> element_count t < 2 ^ 60 ->
  (125 <= fuel)%nat ->
  exists r, try_insert fuel t key args = Ok r.
Proof.
  intros Hok Hcap Hcnt Hfuel.
  assert (Hw : 22 <= 62 <= 62) by lia.
  assert (HM : 4 * 2 ^ 60 <= 2 ^ 62) by (change (2 ^ 62) with (4 * 2 ^ 60); lia).
  destruct Hok as [->|Hinv].
  { destruct (try_insert_returns HashFunction sizeof_MainEntry 62 (2 ^ 60) Hw HM
                fuel empty_map key args (table_ok_empty HashFunction)
                (@dense_empty KeyType ValueType _ _) Hcnt ltac:(cbn; lia)
                ltac:(change (Z.to_nat 62) with 62%nat; lia)) as (r & Hr & _).
    exists r. exact Hr. }
  destruct (inv_capacity _ _ Hinv) as (k & Hk & Hc).
  assert (Hk61 : k <= 61).
  { rewrite Hc in Hcap. apply pow2_le_exp; lia. }
  destruct fuel as [|f]; [lia|].
  pose proof (inv_cap_bounds _ t Hinv) as Hcb.
  pose proof (inv_room _ _ Hinv) as Hroom.
  pose proof (inv_count_nonneg HashFunction t Hinv) as Hnn.
  rewrite try_insert_S. cbv zeta.
  destruct (inv_main_alloc _ _ Hinv) as [ml ->]. cbn [bind].
  destruct (find_ok HashFunction t key Hinv) as (it & Hfind & Hpost).
  rewrite Hfind. cbn [bind].
  destruct (decide (value_ptr it = nullptr)) as [Hnull|Hnn'].
  2:{ rewrite bool_decide_eq_false_2 by exact Hnn'. cbn [negb].
      eexists. reflexivity. }
  rewrite bool_decide_eq_true_2 by exact Hnull. cbn [negb].
  rewrite wrap_small by (rewrite size_modulus_eq; lia).
  destruct (absent_cursor HashFunction t key it Hinv Hpost Hnull) as (Hkey & _ & _).
  destruct (proj2 (growth_returns HashFunction sizeof_MainEntry 62 (2 ^ 60) Hw HM
                     (Z.to_nat (62 - k)))
              f t key args k Hinv Hkey Hcnt Hc ltac:(lia) eq_refl ltac:(lia))
    as (r & Hr & Hrb).
  destruct (Z.ltb_spec (bucket_count t) (element_count t + 1)) as [Hfull|Hfit].
  - replace (element_count t + 1) with (bucket_count t + 1) by lia.
    exists r. exact Hr.
  - destruct (place_returns HashFunction sizeof_MainEntry f t it key args (2 ^ 62)
                Hinv Hpost Hnull ltac:(lia)
                ltac:(intros _; exists r; split; assumption)) as (r' & Hr' & _).
    exists r'. exact Hr'.
Qed.

(** X6: [try_insert] of a key that is not stored, on a table reached from
    the empty one with at most 2^61 buckets and fewer than 2^60 pairs,
    returns, however the table is grown on the way; it reports [true],
    its cursor stands on the new pair, the stored pairs are the old ones
    and the new one, every one of them is found, [size()] went up by one
    and the bucket count did not go down. *)
Theorem X6_try_insert_new_key (fuel fuel' : nat) (ops : list operation)
        t key value :
  run fuel ops empty_map = Ok t ->
  key ∉ (entries t).*1 ->
  get_bucket_count t <= 2 ^ 61 ->
  size t < 2 ^ 60 ->
  (125 <= fuel')%nat ->
  exists t' it,
    try_insert fuel' t key value = Ok (t', (it, true))
    /\ deref t' it = Some (key, value)
    /\ entries t' ≡ₚ (key, value) :: entries t
    /\ size t' = size t + 1
    /\ get_bucket_count t <= get_bucket_count t'
    /\ (forall k v, (k, v) ∈ entries t -> finds t' k (Some v))
    /\ finds t' key (Some value).
Proof.
  intros Hrun Hnew Hcap Hsize Hfuel. pose proof (reached fuel ops t Hrun) as Hok.
  destruct (try_insert_returns_slack fuel' t key value Hok Hcap Hsize Hfuel)
    as ([t' [it inserted]] & Hins).
  destruct (try_insert_new_key_post HashFunction sizeof_MainEntry fuel'
              t key value t' it inserted Hok Hnew Hins) as (-> & Hrest).
  exists t', it. split; [exact Hins | exact Hrest].
Qed.

Lemma load_deref t it : load t (value_ptr it) = snd <$> deref t it.
Proof. unfold load, deref. destruct (value_ptr it); reflexivity. Qed.

(** X12: [operator[]] on a table reached from the empty one with at most
    2^61 buckets and fewer than 2^60 pairs returns a reference that reads
    the stored value when the key is stored, leaving the table as it was,
    and otherwise reads the value-initialised value, which is then stored
    under the key beside the old pairs. *)
Theorem X12_subscript (fuel fuel' : nat) (ops : list operation) t key
        (value_init : ValueType) :
  run fuel ops empty_map = Ok t ->
  get_bucket_count t <= 2 ^ 61 ->
  size t < 2 ^ 60 ->
  (125 <= fuel')%nat ->
  exists t' p,
    subscript value_init fuel' t key = Ok (t', p)
    /\ (forall v, (key, v) ∈ entries t -> t' = t /\ load t' p = Some v)
    /\ (key ∉ (entries t).*1 ->
        load t' p = Some value_init
        /\ entries t' ≡ₚ (key, value_init) :: entries t
        /\ size t' = size t + 1).
Proof.
  intros Hrun Hcap Hsize Hfuel. pose proof (reached fuel ops t Hrun) as Hok.
  destruct (try_insert_returns_slack fuel' t key value_init Hok Hcap Hsize Hfuel)
    as ([t' [it inserted]] & Hins).
  exists t', (value_ptr it). split.
  { unfold turbokit.subscript. rewrite Hins. reflexivity. }
  pose proof (try_insert_post HashFunction sizeof_MainEntry fuel' t key value_init
                _ Hok Hins) as (Hinv' & _ & (v0 & Hd & Hv0) & Hcase).
  cbn [fst snd] in Hinv', Hd, Hv0, Hcase.
  rewrite load_deref, Hd. cbn [fmap option_fmap option_map snd].
  split.
  - intros v Hin. destruct inserted.
    + destruct Hcase as [Hnew _]. destruct Hnew.
      exact (key_of_entry t key v Hin).
    + destruct Hcase as [-> _]. split; [reflexivity|]. f_equal.
      exact (entry_unique HashFunction t key v0 v Hok Hv0 Hin).
  - intros Hnew. destruct inserted.
    2:{ destruct Hcase as [_ Hold]. destruct (Hnew Hold). }
    destruct Hcase as [_ Hperm].
    assert (Hvv : v0 = value_init).
    { apply (entry_unique HashFunction t' key v0 value_init);
        [right; exact Hinv' | exact Hv0|]. rewrite Hperm. left. }
    subst v0. split; [reflexivity|]. split; [exact Hperm|].
    unfold size. rewrite (inv_count _ _ Hinv'), (table_ok_count HashFunction t Hok), Hperm.
    cbn [length]. lia.
Qed.

(** X13: on a table reached from the empty one, [begin() == end()] holds
    exactly when [empty()] does, and otherwise [begin()] stands on a
    stored pair. *)
Theorem X13_begin_end_empty (fuel : nat) (ops : list operation) t :
  run fuel ops empty_map = Ok t ->
  iterator_eq (begin t) (end_ t) = empty t
  /\ (empty t = false ->
      exists kv, deref t (begin t) = Some kv /\ kv ∈ entries t).
Proof.
  intros Hrun. destruct (reached fuel ops t Hrun) as [->|Hinv].
  { split; [reflexivity | discriminate]. }
  unfold empty. rewrite (inv_count _ _ Hinv).
  destruct (begin_cursor HashFunction t Hinv)
    as [(b & Hb & Hbegin & Hlive & _)|[Hnull Hnil]].
  - assert (Hin : (main_key (main_at t b), main_value (main_at t b)) ∈ entries t).
    { apply elem_of_entries. left. exists b. rewrite (inv_main_len _ t Hinv).
      split; [lia|]. split; [exact Hlive | reflexivity]. }
    rewrite Hbegin. split.
    + unfold iterator_eq. cbn [value_ptr end_].
      rewrite bool_decide_eq_false_2 by discriminate.
      symmetry. apply Z.eqb_neq. destruct (entries t); [|discriminate].
      apply elem_of_nil in Hin. destruct Hin.
    + intros _. eexists. split; [reflexivity | exact Hin].
  - rewrite Hnil. split.
    + unfold iterator_eq. rewrite Hnull. reflexivity.
    + discriminate.
Qed.

(** X14: on a table reached from the empty one, the unrolled search of
    the span of an occupied bucket [b] returns what a plain scan of the
    span does: the cursor of the first of the [span] slots from [b] that
    is owned by [b] and holds the key, and the not-found cursor at
    [b + span] when there is none. *)
Theorem X14_find_in_collision_chain_scan (fuel : nat) (ops : list operation)
        t (b : Z) key :
  run fuel ops empty_map = Ok t ->
  0 <= b < bucket_count t ->
  main_live t b ->
  0 < chain_length (main_at t b) ->
  find_in_collision_chain t b key
  = Ok match first_index (Z.to_nat (chain_length (main_at t b))) 0
               (fun off => chain_equal t (slot t b off) b key) with
       | Some off => mk_iterator b (slot t b off)
                                 (collision_value_ptr (slot t b off))
       | None => mk_iterator b (slot t b (chain_length (main_at t b))) nullptr
       end.
Proof.
  intros Hrun Hb Hlive Hspan0.
  destruct (reached fuel ops t Hrun) as [->|Hinv]; [cbn in Hb; lia|].
  pose proof (inv_cap_bounds _ t Hinv) as Hc.
  pose proof (inv_span _ _ Hinv _ Hb Hlive) as Hspan.
  unfold find_in_collision_chain.
  rewrite (slot_land_eq HashFunction) by (try exact Hinv; lia).
  assert (Hloop := fun H1 H2 H3 =>
            chain_loop_spec HashFunction t b key (chain_length (main_at t b))
              Hinv Hb H1 (S (Z.to_nat (bucket_count t))) 0 H2 H3).
  specialize (Hloop ltac:(lia) ltac:(lia) ltac:(lia)).
  rewrite slot_0, Z.add_0_r, Z.sub_0_r in Hloop by exact Hb.
  rewrite Hloop. unfold chain_scan, chain_test, chain_found.
  rewrite Z.add_0_l. reflexivity.
Qed.

(** X15: whenever [reserve(n)] on a table reached from the empty one
    returns a table whose arrays stay below the 2^63 bytes an allocator
    can hand out, that table has a power-of-two bucket count that is at
    least [n] and at least the old one, and stores the same pairs, each
    still found.  Nothing is said of a call that does not return: one
    whose size is refused, or whose arrays cannot be allocated. *)
Theorem X15_reserve_keeps_pairs (fuel fuel' : nat) (ops : list operation)
        t (n : Z) t' :
  run fuel ops empty_map = Ok t ->
  reserve fuel' n t = Ok t' ->
  get_bucket_count t' * sizeof_MainEntry < 2 ^ 63 ->
  n <= get_bucket_count t'
  /\ get_bucket_count t <= get_bucket_count t'
  /\ (exists k, 0 <= k /\ get_bucket_count t' = 2 ^ k)
  /\ entries t' ≡ₚ entries t
  /\ size t' = size t
  /\ (forall k v, (k, v) ∈ entries t -> finds t' k (Some v))
  /\ (forall k, k ∉ (entries t).*1 -> finds t' k None).
Proof.
  intros Hrun Hre _. pose proof (reached fuel ops t Hrun) as Hok.
  unfold get_bucket_count, size in *.
  pose proof (table_ok_count HashFunction t Hok) as Hcount.
  destruct (reserve_spec HashFunction _ n t t'
              (ins_ok_of_try_insert HashFunction sizeof_MainEntry fuel'
                 (proj1 (@try_insert_spec KeyType ValueType _ _ _ HashFunction
                           sizeof_MainEntry fuel')))
              Hok Hre) as (Hinv' & Hperm & Hnle & Hmono & _).
  split; [exact Hnle|]. split; [exact Hmono|]. split.
  { destruct (inv_capacity _ _ Hinv') as (k & Hk & Hc). exists k. split; [lia | exact Hc]. }
  split; [exact Hperm|]. split.
  { rewrite (inv_count _ _ Hinv'), Hcount, Hperm. reflexivity. }
  split.
  - intros k v Hin. apply (finds_present HashFunction); [right; exact Hinv'|].
    rewrite Hperm. exact Hin.
  - intros k Hnin. apply (finds_absent HashFunction); [right; exact Hinv'|].
    rewrite Hperm. exact Hnin.
Qed.

(** X16: the first insertion into a default-constructed map allocates
    exactly 16 buckets and puts the pair into the main slot of its
    bucket: the result is [true] with a main-table cursor on the pair,
    [size()] is 1 and the pair is the only one stored. *)
Theorem X16_first_insert (fuel : nat) key (value : ValueType) :
  exists t',
    try_insert (S fuel) empty_map key value
    = Ok (t', (mk_iterator (Z.land (HashFunction key) 15) invalid_marker
                           (main_value_ptr (Z.land (HashFunction key) 15)),
               true))
    /\ get_bucket_count t' = 16
    /\ size t' = 1
    /\ entries t' = [(key, value)]
    /\ finds t' key (Some value).
Proof.
  set (b := Z.land (HashFunction key) 15).
  assert (Hb : 0 <= b < 16).
  { unfold b. change 15 with (Z.ones 4). rewrite Z.land_ones by lia.
    apply Z.mod_pos_bound. reflexivity. }
  destruct (@fresh_inv KeyType ValueType _ _ HashFunction 4 ltac:(lia)) as [Hfi _].
  change (2 ^ 4) with 16 in Hfi.
  assert (Hnew : key ∉ (entries (@fresh_table KeyType ValueType _ _ 16)).*1).
  { rewrite entries_fresh. apply not_elem_of_nil. }
  assert (Hdead : ~ main_live (@fresh_table KeyType ValueType _ _ 16)
                    (bucket_of HashFunction
                       (@fresh_table KeyType ValueType _ _ 16) key)).
  { unfold main_live. rewrite fresh_main_at. intros Hx. apply Hx. reflexivity. }
  destruct (place_main_inv HashFunction
              (@fresh_table KeyType ValueType _ _ 16) key value Hfi Hdead Hnew
              ltac:(cbn; lia)) as (Hinv' & Hperm & _).
  cbv zeta in Hinv', Hperm.
  change (bucket_of HashFunction (@fresh_table KeyType ValueType _ _ 16) key)
    with b in Hinv', Hperm.
  rewrite entries_fresh in Hperm.
  apply Permutation_sym, Permutation_singleton_l in Hperm.
  eexists. split; [|split; [|split; [|split]]].
  - rewrite try_insert_S. cbv zeta.
    change (reserve_with _ 16 empty_map)
      with (Ok (@fresh_table KeyType ValueType _ _ 16)).
    cbn [main_table turbokit.empty_map bind].
    unfold turbokit.find. cbn [main_table fresh_table].
    change (mask_of (@fresh_table KeyType ValueType _ _ 16)) with 15. fold b.
    rewrite fresh_main_at.
    change (isInvalid (chain_length
              (@mk_main KeyType ValueType inhabitant inhabitant invalid_marker)))
      with true. cbv iota. cbn [bind value_ptr].
    rewrite bool_decide_eq_true_2 by reflexivity. cbn [negb].
    change (bucket_count (@fresh_table KeyType ValueType _ _ 16)
            <? wrap (element_count (@fresh_table KeyType ValueType _ _ 16) + 1))
      with false. cbv iota.
    unfold place, choose_placement. cbn [collision_index bucket_index].
    change (isInvalid invalid_marker) with true. cbv iota.
    reflexivity.
  - reflexivity.
  - reflexivity.
  - symmetry. exact Hperm.
  - apply (finds_present HashFunction); [right; exact Hinv'|].
    rewrite <- Hperm. left.
Qed.
End members.

(** ** The length of spans *)

Section spans.
Context {KeyType ValueType : Type}.
Context `{!EqDecision KeyType, !Inhabited KeyType, !Inhabited ValueType}.
Variable HashFunction : KeyType -> Z.
Variable sizeof_MainEntry : Z.
Local Abbreviation HashMap := (@HashMap KeyType ValueType).
Local Abbreviation table_inv := (table_inv HashFunction).
Local Abbreviation table_ok := (table_ok HashFunction).
Local Abbreviation find := (find HashFunction).
Local Abbreviation try_insert := (try_insert HashFunction sizeof_MainEntry).
Local Abbreviation resize_and_place := (resize_and_place HashFunction sizeof_MainEntry).
Local Abbreviation run := (run HashFunction sizeof_MainEntry).
Local Abbreviation span_limited := (span_limited sizeof_MainEntry).
Local Abbreviation place := (place sizeof_MainEntry).
Local Abbreviation choose_placement := (choose_placement sizeof_MainEntry).
Local Abbreviation empty_map := (@empty_map KeyType ValueType).
Local Abbreviation operation := (@operation KeyType ValueType).
Implicit Types (t : HashMap) (key : KeyType) (it : iterator).

(** A table whose spans did not grow and whose bucket count is the same
    keeps the limit. *)
Lemma span_limited_shrink t t' :
  bucket_count t' = bucket_count t ->
  (forall b, 0 <= b < bucket_count t -> main_live t' b ->
     main_live t b
     /\ 0 <= chain_length (main_at t' b) <= chain_length (main_at t b)) ->
  span_limited t -> span_limited t'.
Proof.
  intros Hcap Hle Hq b Hb Hlive. rewrite Hcap in *.
  destruct (Hle b Hb Hlive) as [Hl Hcl].
  destruct (Hq b Hb Hl) as [H0|[Hhalf Hfour]]; [left; lia|].
  right. split; [lia|]. destruct Hfour; [left; lia | right; assumption].
Qed.

Lemma span_limited_fresh n :
  span_limited (@fresh_table KeyType ValueType _ _ n).
Proof.
  intros b _ Hlive. unfold main_live in Hlive. rewrite fresh_main_at in Hlive.
  destruct Hlive. reflexivity.
Qed.

Lemma span_limited_empty : span_limited empty_map.
Proof. intros b Hb. cbn in Hb. lia. Qed.

(** [place], when it does not expand, stores a span within the limit. *)
Lemma place_span resize t it key args r :
  table_inv t -> find_post HashFunction t key it -> value_ptr it = nullptr ->
  choose_placement t it <> Expand ->
  place resize t it key args = Ok r ->
  span_limited t -> span_limited (fst r).
Proof.
  intros Hinv Hpost Hnull Hne Hplace Hq.
  pose proof (inv_cap_bounds _ t Hinv) as Hc.
  pose proof (bucket_of_range _ t key Hinv) as Hb.
  pose proof (inv_main_len _ t Hinv) as Hlen.
  destruct (absent_cursor HashFunction t key it Hinv Hpost Hnull) as (_ & Hbi & _).
  unfold turbokit.place in Hplace.
  destruct (choose_placement t it) as [| |idx ns|] eqn:Hch;
    [|congruence| |discriminate].
  - injection Hplace as <-. cbn [fst]. rewrite Hbi.
    intros b Hb' Hlive. change (bucket_count _) with (bucket_count t) in *.
    destruct (decide (b = bucket_of HashFunction t key)) as [->|Hneq].
    + left. rewrite main_at_set_main_eq by (rewrite mains_set_count; lia).
      reflexivity.
    + unfold main_live in Hlive.
      rewrite main_at_set_main_ne in * by lia.
      exact (Hq b Hb' Hlive).
  - injection Hplace as <-. cbn [fst]. rewrite Hbi.
    unfold turbokit.choose_placement in Hch.
    destruct (isInvalid (collision_index it)); [discriminate|].
    destruct ((bucket_count t <? small_limit sizeof_MainEntry)
              && (bucket_count t <? wrap (element_count t * 4)));
      [discriminate|].
    destruct (probe _ t _ _) as [[idx' ns']|]; [|discriminate].
    destruct (((ns' >=? 4) && (bucket_count t <? large_limit sizeof_MainEntry))
              || (ns' >=? bucket_count t / 2)) eqn:Hgrow; [discriminate|].
    injection Hch as -> ->.
    apply orb_false_iff in Hgrow as [Hfour Hhalf].
    intros b Hb' Hlive. change (bucket_count _) with (bucket_count t) in *.
    destruct (decide (b = bucket_of HashFunction t key)) as [->|Hneq].
    + right. rewrite main_at_set_coll.
      rewrite main_at_set_main_eq by (rewrite mains_set_count; lia).
      cbn [chain_length set_chain_length].
      destruct (Z.geb_spec ns (bucket_count t / 2)); [discriminate|].
      split; [lia|].
      destruct (Z.geb_spec ns 4); [|left; lia].
      destruct (Z.ltb_spec (bucket_count t) (large_limit sizeof_MainEntry));
        [discriminate | right; lia].
    + unfold main_live in Hlive. rewrite main_at_set_coll in *.
      rewrite main_at_set_main_ne in * by lia.
      exact (Hq b Hb' Hlive).
Qed.

(** Removal through a cursor of [find] lengthens no span and revives no
    bucket. *)
Lemma remove_spans t key it t' it' :
  table_inv t -> find_post HashFunction t key it -> value_ptr it <> nullptr ->
  remove t it = Ok (t', it') ->
  bucket_count t' = bucket_count t
  /\ forall b, 0 <= b < bucket_count t -> main_live t' b ->
       main_live t b
       /\ 0 <= chain_length (main_at t' b) <= chain_length (main_at t b).
Proof.
  intros Hinv Hpost Hnn Hrem.
  pose proof (inv_cap_bounds _ t Hinv) as Hc.
  pose proof (bucket_of_range _ t key Hinv) as Hb.
  pose proof (inv_capacity _ _ Hinv) as Hcap.
  pose proof (inv_main_len _ t Hinv) as Hml.
  assert (Hsame : forall b, 0 <= b < bucket_count t -> main_live t b ->
            main_live t b
            /\ 0 <= chain_length (main_at t b) <= chain_length (main_at t b)).
  { intros b Hb' Hl. split; [exact Hl|].
    pose proof (inv_span _ _ Hinv b Hb' Hl). lia. }
  destruct Hpost as [Hlive Hk ->|j Hj Hlive Hk Ho Hkj ->|? ? ->|? ? ->];
    try (exfalso; apply Hnn; reflexivity).
  - pose proof (inv_span _ _ Hinv _ Hb Hlive) as Hspan.
    unfold remove in Hrem. cbv zeta in Hrem.
    cbn [bucket_index collision_index] in Hrem.
    change (isInvalid invalid_marker) with true in Hrem. cbv iota in Hrem.
    change (main_at (set_count t (wrap (element_count t - 1))) (bucket_of HashFunction t key))
      with (main_at t (bucket_of HashFunction t key)) in Hrem.
    set (B := bucket_of HashFunction t key) in *.
    destruct (Z.eqb_spec (chain_length (main_at t B)) 0) as [Hz|Hnz];
      cbn [negb] in Hrem.
    + apply bind_Ok in Hrem as (it1 & _ & Hrem). injection Hrem as <- _.
      split; [reflexivity|]. intros b Hb' Hl.
      destruct (decide (b = B)) as [->|Hneq].
      * exfalso. unfold main_live in Hl.
        rewrite main_at_set_main_eq in Hl by (rewrite mains_set_count; lia).
        apply Hl. reflexivity.
      * unfold main_live in Hl. rewrite main_at_set_main_ne in * by lia.
        exact (Hsame b Hb' Hl).
    + injection Hrem as <- _. split; [reflexivity|].
      rewrite (wrap_small (chain_length (main_at t B) - 1))
        by (rewrite size_modulus_eq; lia).
      match goal with
      | |- context [set_main ?t3 B (set_chain_length ?e ?cl')] =>
          set (T3 := t3); set (CL := cl')
      end.
      assert (Hl3 : Z.of_nat (length (mains T3)) = bucket_count t).
      { unfold T3. rewrite mains_set_main, length_insert.
        change (mains (set_coll _ _ _)) with (mains t). lia. }
      assert (HCL : 0 <= CL <= chain_length (main_at t B) - 1).
      { assert (Hr1 : 0 <= chain_length (main_at t B) - 1 < bucket_count T3).
        { change (bucket_count T3) with (bucket_count t). lia. }
        pose proof (walk_back_spec T3 B Hcap Hb
                      (Z.to_nat (chain_length (main_at t B) - 1))
                      (chain_length (main_at t B) - 1) Hr1 (Nat.le_refl _)) as Hwb.
        cbv zeta in Hwb. destruct Hwb as [Hr _]. exact Hr. }
      intros b Hb' Hl. destruct (decide (b = B)) as [->|Hneq].
      * split; [exact Hlive|]. rewrite main_at_set_main_eq by lia.
        change (0 <= CL <= chain_length (main_at t B)). lia.
      * unfold main_live in Hl. rewrite main_at_set_main_ne in * by lia.
        unfold T3 in *. rewrite main_at_set_main_ne in * by lia.
        rewrite main_at_set_coll in *. exact (Hsame b Hb' Hl).
  - pose proof (inv_span _ _ Hinv _ Hb Hlive) as Hspan.
    assert (Hjlive : coll_live t j).
    { unfold coll_live. rewrite Ho. apply (valid_index_not_marker t); assumption. }
    destruct (inv_owner _ _ Hinv j Hj Hjlive) as (_ & _ & i & Hi & _).
    cbv zeta in Hi. rewrite Ho in Hi.
    unfold remove in Hrem. cbv zeta in Hrem.
    cbn [bucket_index collision_index] in Hrem.
    assert (Hvj : isInvalid j = false).
    { apply isInvalid_false. apply (valid_index_not_marker t); assumption. }
    assert (Hvb : isInvalid (bucket_of HashFunction t key) = false).
    { apply isInvalid_false. apply (valid_index_not_marker t); assumption. }
    rewrite Hvj, Hvb in Hrem.
    change (main_at (set_count t (wrap (element_count t - 1))) (bucket_of HashFunction t key))
      with (main_at t (bucket_of HashFunction t key)) in Hrem.
    set (B := bucket_of HashFunction t key) in *.
    rewrite (wrap_small (chain_length (main_at t B) - 1)) in Hrem
      by (rewrite size_modulus_eq; lia).
    apply bind_Ok in Hrem as (it1 & _ & Hrem). injection Hrem as <- _.
    split; [cbn [bucket_count set_main set_coll]; destruct (_ =? j); reflexivity|].
    match goal with
    | |- context [set_main ?t3 B (set_chain_length ?e ?cl')] =>
        set (T3 := t3); set (CL := cl')
    end.
    assert (Hm3 : forall b, main_at T3 b = main_at t b).
    { intros b. unfold T3. destruct (_ =? j); reflexivity. }
    assert (Hl3 : Z.of_nat (length (mains T3)) = bucket_count t).
    { rewrite <- Hml. unfold T3. destruct (_ =? j); reflexivity. }
    assert (HCL : 0 <= CL <= chain_length (main_at t B) - 1).
    { assert (Hr1 : 0 <= chain_length (main_at t B) - 1 < bucket_count T3).
      { replace (bucket_count T3) with (bucket_count t)
          by (unfold T3; destruct (_ =? j); reflexivity). lia. }
      assert (Hcap3 : pow2_capacity T3).
      { unfold T3. destruct (_ =? j); exact Hcap. }
      assert (Hb3 : 0 <= B < bucket_count T3).
      { replace (bucket_count T3) with (bucket_count t)
          by (unfold T3; destruct (_ =? j); reflexivity). exact Hb. }
      pose proof (walk_back_spec T3 B Hcap3 Hb3
                    (Z.to_nat (chain_length (main_at t B) - 1))
                    (chain_length (main_at t B) - 1) Hr1 (Nat.le_refl _)) as Hwb.
      cbv zeta in Hwb. destruct Hwb as [Hr _]. exact Hr. }
    intros b Hb' Hl. destruct (decide (b = B)) as [->|Hneq].
    + split; [exact Hlive|]. rewrite main_at_set_main_eq by lia.
      change (0 <= CL <= chain_length (main_at t B)). lia.
    + unfold main_live in Hl. rewrite main_at_set_main_ne in * by lia.
      rewrite Hm3 in *. exact (Hsame b Hb' Hl).
Qed.

Lemma remove_key_span t key t' ret :
  table_ok t -> span_limited t ->
  remove_key HashFunction t key = Ok (t', ret) -> span_limited t'.
Proof.
  intros Hok Hq Hrem.
  destruct Hok as [->|Hinv].
  { cbn in Hrem. injection Hrem as <- _. exact Hq. }
  destruct (find_ok HashFunction t key Hinv) as (it & Hfind & Hpost).
  unfold remove_key in Hrem. rewrite Hfind in Hrem. cbn [bind] in Hrem.
  unfold iterator_eq in Hrem. cbn [value_ptr end_] in Hrem.
  destruct (decide (value_ptr it = nullptr)) as [Hnull|Hnn].
  - rewrite bool_decide_eq_true_2 in Hrem by exact Hnull. cbn [negb] in Hrem.
    injection Hrem as <- _. exact Hq.
  - rewrite bool_decide_eq_false_2 in Hrem by exact Hnn. cbn [negb] in Hrem.
    apply bind_Ok in Hrem as ([t1 it1] & Hrem & Heq). injection Heq as <- _.
    destruct (remove_spans t key it t1 it1 Hinv Hpost Hnn Hrem) as [Hcap Hle].
    exact (span_limited_shrink t t1 Hcap Hle Hq).
Qed.

Lemma reinsert_span (ins : HashMap -> KeyType -> ValueType -> outcome HashMap) :
  ins_ok HashFunction ins ->
  (forall t k v t', table_inv t -> span_limited t -> ins t k v = Ok t' ->
                    span_limited t') ->
  forall (l : list (KeyType * ValueType)) t0 t',
    table_inv t0 -> NoDup l.*1 ->
    (forall k, k ∈ l.*1 -> k ∉ (entries t0).*1) ->
    span_limited t0 ->
    reinsert ins l t0 = Ok t' -> span_limited t'.
Proof.
  intros Hins Hkeep. induction l as [|[k v] l IH]; intros t0 t' Hinv Hnd Hfresh Hq Hre.
  - injection Hre as <-. exact Hq.
  - cbn [reinsert] in Hre. apply bind_Ok in Hre as (t1 & H1 & Hre).
    rewrite fmap_cons in Hnd. apply NoDup_cons in Hnd as [Hk Hnd].
    destruct (Hins t0 k v t1 Hinv) as (Hinv1 & Hp1 & _).
    { apply Hfresh. rewrite fmap_cons. left. }
    { exact H1. }
    apply (IH t1 t' Hinv1 Hnd); [|exact (Hkeep t0 k v t1 Hinv Hq H1) | exact Hre].
    intros k' Hk'. rewrite Hp1, fmap_cons. cbn [fst].
    rewrite not_elem_of_cons. split.
    + intros ->. exact (Hk Hk').
    + apply Hfresh. rewrite fmap_cons. right. exact Hk'.
Qed.

Lemma reserve_span (ins : HashMap -> KeyType -> ValueType -> outcome HashMap)
      n t t1 :
  ins_ok HashFunction ins ->
  (forall t k v t', table_inv t -> span_limited t -> ins t k v = Ok t' ->
                    span_limited t') ->
  table_ok t -> reserve_with ins n t = Ok t1 -> span_limited t1.
Proof.
  intros Hins Hkeep Hok Hre. unfold reserve_with in Hre.
  destruct (Z.geb_spec n (size_max / 2)) as [?|Hn]; [discriminate|].
  rewrite size_max_half in Hn.
  destruct (table_ok_capacity HashFunction t Hok) as (k & Hk & Hbl & Hle).
  rewrite Hbl in Hre.
  destruct (grow_limit_spec n ltac:(lia) 65 k Hk ltac:(lia))
    as (k' & Hk' & Hg & _).
  rewrite Hg in Hre. unfold resize_table_with in Hre.
  rewrite (pow2_check k' ltac:(lia)) in Hre. cbn [negb Z.eqb] in Hre.
  destruct (table_ok_cases HashFunction t Hok) as [[-> Hnone]|[Hinv [ml Hs]]].
  - cbn in Hre. injection Hre as <-. apply span_limited_fresh.
  - rewrite Hs in Hre. apply noexcept_Ok in Hre.
    destruct (@fresh_inv KeyType ValueType _ _ HashFunction k' ltac:(lia)) as [Hfi _].
    apply (reinsert_span ins Hins Hkeep (entries t) (fresh_table (2 ^ k')) t1 Hfi
             (inv_keys _ _ Hinv)); [|apply span_limited_fresh | exact Hre].
    intros k0 _. rewrite entries_fresh. apply not_elem_of_nil.
Qed.

Lemma place_step_span fuel t it key args r :
  (forall nbc t key args r,
      table_inv t -> key ∉ (entries t).*1 -> element_count t < nbc ->
      resize_and_place fuel nbc t key args = Ok r -> span_limited (fst r)) ->
  table_inv t -> find_post HashFunction t key it -> value_ptr it = nullptr ->
  span_limited t ->
  place (resize_and_place fuel) t it key args = Ok r ->
  span_limited (fst r).
Proof.
  intros IHr Hinv Hpost Hnull Hq Hplace.
  pose proof (inv_cap_bounds _ t Hinv) as Hc.
  pose proof (inv_room _ _ Hinv) as Hroom.
  destruct (absent_cursor HashFunction t key it Hinv Hpost Hnull) as (Hkey & _ & _).
  assert (Hdec : choose_placement t it = Expand \/ choose_placement t it <> Expand).
  { destruct (choose_placement t it); (left; reflexivity) || (right; discriminate). }
  destruct Hdec as [Hch|Hch].
  - unfold turbokit.place in Hplace. rewrite Hch in Hplace.
    rewrite wrap_small in Hplace by (rewrite size_modulus_eq; lia).
    apply (IHr (bucket_count t + 1) t key args r Hinv Hkey ltac:(lia) Hplace).
  - exact (place_span (resize_and_place fuel) t it key args r Hinv Hpost Hnull
             Hch Hplace Hq).
Qed.

Lemma try_insert_span fuel :
  (forall t key args r,
      table_ok t -> span_limited t -> try_insert fuel t key args = Ok r ->
      span_limited (fst r))
  /\ (forall nbc t key args r,
        table_inv t -> key ∉ (entries t).*1 -> element_count t < nbc ->
        resize_and_place fuel nbc t key args = Ok r -> span_limited (fst r)).
Proof.
  induction fuel as [|fuel [IHt IHr]].
  { split.
    - intros t key args r _ _ H. discriminate.
    - intros nbc t key args r _ _ _ H. discriminate. }
  pose proof (ins_ok_of_try_insert HashFunction sizeof_MainEntry fuel
                (proj1 (@try_insert_spec KeyType ValueType _ _ _ HashFunction
                          sizeof_MainEntry fuel))) as Hins.
  assert (Hkeep : forall t k v t', table_inv t -> span_limited t ->
            drop_result (try_insert fuel t k v) = Ok t' -> span_limited t').
  { intros t k v t' Hinv Hq Hd. apply drop_result_Ok in Hd as (r & Hr & <-).
    exact (IHt t k v r (or_intror Hinv) Hq Hr). }
  split.
  - intros t key args r Hok Hq Hti. rewrite try_insert_S in Hti. cbv zeta in Hti.
    apply bind_Ok in Hti as (t1 & H1 & Hti).
    assert (Ht1 : table_inv t1 /\ span_limited t1).
    { destruct (table_ok_cases HashFunction t Hok) as [[-> Hn]|[Hinv [ml Hs]]].
      - cbn in H1.
        destruct (reserve_spec HashFunction _ _ _ _ Hins (or_introl eq_refl) H1)
          as (Hi1 & _).
        split; [exact Hi1|].
        exact (reserve_span _ 16 empty_map t1 Hins Hkeep (or_introl eq_refl) H1).
      - rewrite Hs in H1. injection H1 as <-. split; assumption. }
    destruct Ht1 as (Hi1 & Hq1).
    destruct (find_ok HashFunction t1 key Hi1) as (it & Hfind & Hpost).
    rewrite Hfind in Hti. cbn [bind] in Hti.
    pose proof (inv_cap_bounds _ t1 Hi1) as Hcb.
    pose proof (inv_room _ _ Hi1) as Hroom.
    pose proof (inv_count_nonneg HashFunction t1 Hi1) as Hnn.
    destruct (decide (value_ptr it = nullptr)) as [Hnull|Hnn'].
    + rewrite bool_decide_eq_true_2 in Hti by exact Hnull. cbn [negb] in Hti.
      rewrite wrap_small in Hti by (rewrite size_modulus_eq; lia).
      destruct (absent_cursor HashFunction t1 key it Hi1 Hpost Hnull) as (Hkey & _ & _).
      destruct (Z.ltb_spec (bucket_count t1) (element_count t1 + 1)) as [Hlt|Hge].
      * exact (IHr (element_count t1 + 1) t1 key args r Hi1 Hkey ltac:(lia) Hti).
      * exact (place_step_span fuel t1 it key args r IHr Hi1 Hpost Hnull Hq1 Hti).
    + rewrite bool_decide_eq_false_2 in Hti by exact Hnn'. cbn [negb] in Hti.
      injection Hti as <-. exact Hq1.
  - intros nbc t key args r Hinv Hkey Hnbc Hrp.
    rewrite resize_and_place_S in Hrp. cbv zeta in Hrp.
    apply bind_Ok in Hrp as (t1 & H1 & Hrp).
    destruct (reserve_spec HashFunction _ _ _ _ Hins (or_intror Hinv) H1)
      as (Hi1 & Hp1 & _).
    pose proof (reserve_span _ nbc t t1 Hins Hkeep (or_intror Hinv) H1) as Hq1.
    destruct (find_ok HashFunction t1 key Hi1) as (it & Hfind & Hpost).
    rewrite Hfind in Hrp. cbn [bind] in Hrp.
    assert (Hkey1 : key ∉ (entries t1).*1) by (rewrite Hp1; exact Hkey).
    assert (Hnull : value_ptr it = nullptr).
    { destruct (decide (value_ptr it = nullptr)) as [?|Hnn]; [assumption|].
      destruct (found_cursor HashFunction t1 key it Hi1 Hpost Hnn) as (v & _ & Hin).
      destruct (Hkey1 (key_of_entry t1 key v Hin)). }
    exact (place_step_span fuel t1 it key args r IHr Hi1 Hpost Hnull Hq1 Hrp).
Qed.

Lemma run_span fuel (ops : list operation) : forall t t',
  table_ok t -> span_limited t -> run fuel ops t = Ok t' -> span_limited t'.
Proof.
  induction ops as [|op ops IH]; intros t t' Hok Hq Hrun.
  - injection Hrun as <-. exact Hq.
  - cbn [turbokit.run] in Hrun. apply bind_Ok in Hrun as (t1 & H1 & Hrun).
    apply (IH t1 t' (apply_op_ok HashFunction sizeof_MainEntry fuel t op t1 Hok H1));
      [|exact Hrun].
    destruct op as [key value|key]; cbn [turbokit.apply_op] in H1.
    + apply drop_result_Ok in H1 as (r & Hr & <-).
      exact (proj1 (try_insert_span fuel) t key value r Hok Hq Hr).
    + apply bind_Ok in H1 as ([t2 ret] & Hr & Heq). injection Heq as <-.
      exact (remove_key_span t key t2 ret Hok Hq Hr).
Qed.

(** X17: in a table reached from the empty one, the span of an occupied
    bucket, which is the number of collision slots [find] may have to
    look at, is 0 or less than half the bucket count, and is at most 3 as
    long as the bucket count is below the large limit
    4 * 2^20 / sizeof(MainEntry). *)
Theorem X17_spans_stay_short (fuel : nat) (ops : list operation) t (b : Z) :
  run fuel ops empty_map = Ok t ->
  0 <= b < bucket_count t ->
  main_live t b ->
  0 <= chain_length (main_at t b)
  /\ (chain_length (main_at t b) = 0
      \/ chain_length (main_at t b) < bucket_count t / 2)
  /\ (bucket_count t < large_limit sizeof_MainEntry ->
      chain_length (main_at t b) <= 3).
Proof.
  intros Hrun Hb Hlive.
  pose proof (run_span fuel ops empty_map t (table_ok_empty HashFunction)
                span_limited_empty Hrun b Hb Hlive) as Hq.
  destruct (reachable_ok HashFunction sizeof_MainEntry fuel ops t Hrun) as [->|Hinv];
    [cbn in Hb; lia|].
  pose proof (inv_span _ _ Hinv b Hb Hlive) as Hspan.
  split; [lia|]. split.
  - destruct Hq as [?|[? _]]; [left | right]; assumption.
  - intros Hlow. destruct Hq as [?|[_ [?|?]]]; lia.
Qed.
End spans.

(** ** Removing while iterating *)

Section erase_in_loop.
Context {KeyType ValueType : Type}.
Context `{!EqDecision KeyType, !Inhabited KeyType, !Inhabited ValueType}.
Variable HashFunction : KeyType -> Z.
Variable sizeof_MainEntry : Z.
Local Abbreviation HashMap := (@HashMap KeyType ValueType).
Local Abbreviation table_inv := (table_inv HashFunction).
Local Abbreviation table_ok := (table_ok HashFunction).
Local Abbreviation finds := (finds HashFunction).
Local Abbreviation run := (run HashFunction sizeof_MainEntry).
Local Abbreviation empty_map := (@empty_map KeyType ValueType).
Local Abbreviation operation := (@operation KeyType ValueType).
Implicit Types (t : HashMap) (it : iterator).

(** [operator++] takes a cursor of the loop to the next one or to the
    end. *)
Lemma increment_traversal t it :
  pow2_capacity t -> traversal_cursor t it ->
  exists it', increment t it = Ok it'
              /\ (value_ptr it' = nullptr
                  \/ (traversal_cursor t it' /\ value_ptr it' <> value_ptr it)).
Proof.
  intros Hcap Hcur. pose proof (cap_bounds t Hcap) as Hc.
  assert (Hcoll : forall bi n from p,
    0 <= from -> from + Z.of_nat n <= bucket_count t ->
    (forall j', from <= j' -> collision_value_ptr j' <> p) ->
    let it' := match first_index n from
                       (fun i => negb (isInvalid (main_index (coll_at t i)))) with
               | Some j' => mk_iterator invalid_marker j' (collision_value_ptr j')
               | None => mk_iterator bi (bucket_count t - 1) nullptr
               end in
    value_ptr it' = nullptr \/ (traversal_cursor t it' /\ value_ptr it' <> p)).
  { intros bi n from p Hfrom Hto Hp'.
    destruct (first_index n from _) as [j'|] eqn:Hfi; cbv zeta; [|left; reflexivity].
    apply first_index_Some in Hfi as (Hr & Hp & _).
    right. split; [|apply Hp'; lia].
    right. exists j'. split; [lia|]. split; [|reflexivity].
    apply isInvalid_false. apply negb_true_iff. exact Hp. }
  destruct Hcur as [(b & Hb & Hlive & ->)|(j & Hj & Hlive & ->)].
  - unfold increment. cbn [collision_index].
    change (isInvalid invalid_marker) with true. cbv iota.
    rewrite (next_main_spec t Hcap) by lia.
    eexists. split; [reflexivity|]. cbn [value_ptr].
    destruct (first_index (Z.to_nat (bucket_count t - 1 - b)) (b + 1) _)
      as [b'|] eqn:Hfi.
    + apply first_index_Some in Hfi as (Hr & Hp & _).
      right. split; [|cbn [value_ptr]; intros [= ?]; lia].
      left. exists b'. split; [lia|]. split; [|reflexivity].
      apply isInvalid_false. apply negb_true_iff. exact Hp.
    + apply (Hcoll invalid_marker (Z.to_nat (bucket_count t)) 0); [lia | lia|].
      intros j' _. discriminate.
  - unfold increment. cbn [collision_index].
    assert (Hnm : isInvalid j = false).
    { apply isInvalid_false. apply (valid_index_not_marker t j Hcap Hj). }
    rewrite Hnm. rewrite (next_collision_spec t Hcap) by lia.
    eexists. split; [reflexivity|]. cbn [value_ptr].
    apply (Hcoll invalid_marker (Z.to_nat (bucket_count t - 1 - j)) (j + 1));
      [lia | lia|].
    intros j' Hj' [= ?]. lia.
Qed.

(** Removal through a cursor of the loop that stands in the main table. *)
Lemma remove_main_cursor t b :
  table_inv t -> 0 <= b < bucket_count t -> main_live t b ->
  exists t' it',
    remove t (mk_iterator b invalid_marker (main_value_ptr b)) = Ok (t', it')
    /\ table_inv t'
    /\ entries t ≡ₚ (main_key (main_at t b), main_value (main_at t b)) :: entries t'
    /\ bucket_count t' = bucket_count t
    /\ (value_ptr it' = nullptr \/ traversal_cursor t' it').
Proof.
  intros Hinv Hb Hlive.
  pose proof (inv_cap_bounds _ t Hinv) as Hc.
  pose proof (inv_capacity _ _ Hinv) as Hcap.
  pose proof (inv_main_hash _ _ Hinv b Hb Hlive) as Hhash.
  assert (Hpost : find_post HashFunction t (main_key (main_at t b))
                    (mk_iterator b invalid_marker (main_value_ptr b))).
  { apply found_main; rewrite Hhash; [exact Hlive | reflexivity | reflexivity]. }
  destruct (remove_ok HashFunction t _ _ Hinv Hpost ltac:(discriminate))
    as (t' & it' & v & Hrem & Hd & Hinv' & Hperm & Hcap').
  cbn in Hd. injection Hd as <-.
  exists t', it'. split; [exact Hrem|]. split; [exact Hinv'|].
  split; [exact Hperm|]. split; [exact Hcap'|].
  pose proof (inv_span _ _ Hinv _ Hb Hlive) as Hspan.
  pose proof (inv_main_len _ t Hinv) as Hml.
  unfold remove in Hrem. cbv zeta in Hrem. cbn [bucket_index collision_index] in Hrem.
  change (isInvalid invalid_marker) with true in Hrem. cbv iota in Hrem.
  change (main_at (set_count t (wrap (element_count t - 1))) b)
    with (main_at t b) in Hrem.
  destruct (Z.eqb_spec (chain_length (main_at t b)) 0) as [Hz|Hnz]; cbn [negb] in Hrem.
  - set (t1 := set_count t (wrap (element_count t - 1))) in *.
    destruct (increment_traversal t1 (mk_iterator b invalid_marker (main_value_ptr b))
                Hcap) as (it1 & Hinc & Hshape).
    { left. exists b. split; [exact Hb|]. split; [exact Hlive | reflexivity]. }
    rewrite Hinc in Hrem. cbn [bind] in Hrem. injection Hrem as <- <-.
    destruct Hshape as [Hnull|[Hcur Hne]]; [left; exact Hnull|]. right.
    destruct Hcur as [(b' & Hb' & Hl' & ->)|(j & Hj & Hl' & ->)].
    + left. exists b'. split; [exact Hb'|]. split; [|reflexivity].
      unfold main_live. rewrite main_at_set_main_ne; [exact Hl' | lia | lia|].
      intros ->. apply Hne. reflexivity.
    + right. exists j. split; [exact Hj|]. split; [exact Hl' | reflexivity].
  - right. injection Hrem as <- <-. left.
    exists b. split; [cbn; lia|]. split; [|reflexivity].
    rewrite (wrap_small (chain_length (main_at t b) - 1)) by (rewrite size_modulus_eq; lia).
    match goal with
    | |- context [set_main ?t3 b (set_chain_length ?e ?cl')] =>
        set (T3 := t3); set (CL := cl')
    end.
    assert (Hl3 : Z.of_nat (length (mains T3)) = bucket_count t).
    { unfold T3. rewrite mains_set_main, length_insert.
      change (mains (set_coll _ _ _)) with (mains t). lia. }
    unfold main_live. rewrite main_at_set_main_eq by lia.
    change (CL <> invalid_marker).
    assert (HCL : 0 <= CL <= chain_length (main_at t b) - 1).
    { assert (Hr1 : 0 <= chain_length (main_at t b) - 1 < bucket_count T3).
      { change (bucket_count T3) with (bucket_count t). lia. }
      pose proof (walk_back_spec T3 b Hcap Hb
                    (Z.to_nat (chain_length (main_at t b) - 1))
                    (chain_length (main_at t b) - 1) Hr1 (Nat.le_refl _)) as Hwb.
      cbv zeta in Hwb. destruct Hwb as [Hr _]. exact Hr. }
    rewrite invalid_marker_eq. lia.
Qed.

Lemma increment_coll_cursor t bi j :
  pow2_capacity t -> 0 <= j < bucket_count t ->
  exists it', increment t (mk_iterator bi j (collision_value_ptr j)) = Ok it'
              /\ (value_ptr it' = nullptr
                  \/ exists j', j < j' < bucket_count t /\ coll_live t j'
                                /\ it' = mk_iterator bi j' (collision_value_ptr j')).
Proof.
  intros Hcap Hj. pose proof (cap_bounds t Hcap) as Hc.
  unfold increment. cbn [collision_index].
  assert (Hnm : isInvalid j = false).
  { apply isInvalid_false. apply (valid_index_not_marker t j Hcap Hj). }
  rewrite Hnm. rewrite (next_collision_spec t Hcap) by lia.
  eexists. split; [reflexivity|].
  destruct (first_index _ (j + 1) _) as [j'|] eqn:Hfi; [|left; reflexivity].
  apply first_index_Some in Hfi as (Hr & Hp & _).
  right. exists j'. split; [lia|]. split; [|reflexivity].
  apply isInvalid_false. apply negb_true_iff. exact Hp.
Qed.

(** Removal through a cursor of the loop that stands in the collision
    table: the bucket is read off the slot's owner tag. *)
Lemma remove_coll_cursor t j :
  table_inv t -> 0 <= j < bucket_count t -> coll_live t j ->
  exists t' it',
    remove t (mk_iterator invalid_marker j (collision_value_ptr j)) = Ok (t', it')
    /\ table_inv t'
    /\ entries t ≡ₚ (coll_key (coll_at t j), coll_value (coll_at t j)) :: entries t'
    /\ bucket_count t' = bucket_count t
    /\ (value_ptr it' = nullptr \/ traversal_cursor t' it').
Proof.
  intros Hinv Hj Hjlive.
  pose proof (inv_cap_bounds _ t Hinv) as Hc.
  pose proof (inv_capacity _ _ Hinv) as Hcap.
  pose proof (inv_main_len _ t Hinv) as Hml.
  pose proof (inv_coll_len _ t Hinv) as Hcl.
  destruct (inv_owner _ _ Hinv j Hj Hjlive) as (Hb & Hlive & i & Hi & Hji).
  cbv zeta in Hb, Hlive, Hi, Hji.
  set (B := main_index (coll_at t j)) in *.
  pose proof (inv_span _ _ Hinv _ Hb Hlive) as Hspan.
  pose proof (remove_coll_inv HashFunction t j Hinv Hj Hjlive) as Hrem.
  cbv zeta in Hrem. fold B in Hrem. destruct Hrem as [Hi' Hp'].
  unfold remove. cbv zeta. cbn [bucket_index collision_index].
  assert (Hvj : isInvalid j = false).
  { apply isInvalid_false. apply (valid_index_not_marker t); assumption. }
  rewrite Hvj. change (isInvalid invalid_marker) with true. cbv iota.
  change (coll_at (set_count t (wrap (element_count t - 1))) j) with (coll_at t j).
  fold B.
  change (main_at (set_count t (wrap (element_count t - 1))) B) with (main_at t B).
  rewrite (wrap_small (chain_length (main_at t B) - 1))
    by (rewrite size_modulus_eq; lia).
  rewrite (slot_land_eq HashFunction t B) by (try exact Hinv; lia).
  set (t1 := set_count t (wrap (element_count t - 1))) in *.
  set (tail := slot t B (chain_length (main_at t B) - 1)) in *.
  assert (Htail : 0 <= tail < bucket_count t) by (apply cap_slot_range, Hcap).
  destruct (Z.eqb_spec tail j) as [Heq|Hneq].
  - destruct (increment_coll_cursor t1 invalid_marker j Hcap Hj)
      as (it1 & Hinc & Hshape).
    rewrite Hinc. cbn [bind].
    eexists _, _. split; [reflexivity|]. split; [exact Hi'|].
    split; [exact Hp'|]. split; [reflexivity|].
    destruct Hshape as [Hnull|(j' & Hj' & Hl' & ->)]; [left; exact Hnull|].
    right. right. exists j'. split; [cbn [bucket_count set_main set_coll]; lia|].
    split; [|reflexivity].
    unfold coll_live. rewrite coll_at_set_main.
    rewrite coll_at_set_coll_ne by lia. exact Hl'.
  - cbn [bind].
    eexists _, _. split; [reflexivity|]. split; [exact Hi'|].
    split; [exact Hp'|]. split; [reflexivity|].
    right. right. exists j. split; [exact Hj|]. split; [|reflexivity].
    unfold coll_live. rewrite coll_at_set_main.
    rewrite coll_at_set_coll_ne by lia.
    rewrite coll_at_set_coll_eq by (change (colls t1) with (colls t); lia).
    cbn [main_index]. apply (valid_index_not_marker t); assumption.
Qed.

(** X18: in a loop over a map reached from the empty one that starts at
    [begin()] and at each round either steps with [++] or continues with
    the cursor [remove] returns, the cursor is always [end()] or a cursor
    of the loop; and [remove] through a cursor of the loop drops exactly
    the pair the cursor reads, lowers [size()] by one, keeps the bucket
    count, and leaves every other stored pair findable. *)
Theorem X18_remove_in_loop (fuel : nat) (ops : list operation) t it :
  run fuel ops empty_map = Ok t ->
  traversal_cursor t it ->
  (value_ptr (begin t) = nullptr \/ traversal_cursor t (begin t))
  /\ (exists it2, increment t it = Ok it2
                  /\ (value_ptr it2 = nullptr \/ traversal_cursor t it2))
  /\ exists kv t' it',
       deref t it = Some kv
       /\ remove t it = Ok (t', it')
       /\ entries t ≡ₚ kv :: entries t'
       /\ size t' = size t - 1
       /\ get_bucket_count t' = get_bucket_count t
       /\ finds t' kv.1 None
       /\ (forall k v, (k, v) ∈ entries t -> k <> kv.1 -> finds t' k (Some v))
       /\ (value_ptr it' = nullptr \/ traversal_cursor t' it').
Proof.
  intros Hrun Hcur.
  destruct (reachable_ok HashFunction sizeof_MainEntry fuel ops t Hrun) as [->|Hinv].
  { destruct Hcur as [(b & Hb & _)|(j & Hj & _)]; cbn in *; lia. }
  pose proof (inv_capacity _ _ Hinv) as Hcap.
  split.
  { destruct (begin_cursor HashFunction t Hinv)
      as [(b & Hb & Hbegin & Hlive & _)|[Hnull _]]; [|left; exact Hnull].
    right. left. exists b. split; [exact Hb|]. split; [exact Hlive | exact Hbegin]. }
  split.
  { destruct (increment_traversal t it Hcap Hcur) as (it2 & Hinc & Hshape).
    exists it2. split; [exact Hinc|].
    destruct Hshape as [?|[? _]]; [left | right]; assumption. }
  assert (Hrem : exists kv t' it',
    deref t it = Some kv /\ remove t it = Ok (t', it')
    /\ table_inv t' /\ entries t ≡ₚ kv :: entries t'
    /\ bucket_count t' = bucket_count t
    /\ (value_ptr it' = nullptr \/ traversal_cursor t' it')).
  { destruct Hcur as [(b & Hb & Hlive & ->)|(j & Hj & Hlive & ->)].
    - destruct (remove_main_cursor t b Hinv Hb Hlive)
        as (t' & it' & Hr & Hi' & Hp' & Hc' & Hs').
      eexists _, t', it'. split; [reflexivity|]. repeat (split; [assumption|]).
      exact Hs'.
    - destruct (remove_coll_cursor t j Hinv Hj Hlive)
        as (t' & it' & Hr & Hi' & Hp' & Hc' & Hs').
      eexists _, t', it'. split; [reflexivity|]. repeat (split; [assumption|]).
      exact Hs'. }
  destruct Hrem as ([k0 v0] & t' & it' & Hd & Hr & Hinv' & Hperm & Hcap' & Hshape).
  exists (k0, v0), t', it'. split; [exact Hd|]. split; [exact Hr|].
  split; [exact Hperm|]. split.
  { unfold size. rewrite (inv_count _ _ Hinv), (inv_count _ _ Hinv'), Hperm.
    cbn [length]. lia. }
  split; [exact Hcap'|].
  pose proof (inv_keys _ _ Hinv) as Hnd. rewrite Hperm in Hnd.
  cbn [fmap list_fmap fst] in Hnd. apply NoDup_cons in Hnd as [Hfresh _].
  split; [|split; [|exact Hshape]].
  - apply (finds_absent HashFunction); [right; exact Hinv' | exact Hfresh].
  - intros k v Hin Hne. apply (finds_present HashFunction); [right; exact Hinv'|].
    rewrite Hperm in Hin. apply elem_of_cons in Hin as [Heq|Hin]; [|exact Hin].
    injection Heq as -> ->. destruct Hne. reflexivity.
Qed.
End erase_in_loop.

(** ** When the table grows *)

Lemma first_index_ext n i (p q : Z -> bool) :
  (forall x, p x = q x) -> first_index n i p = first_index n i q.
Proof.
  intros Hpq. revert i. induction n as [|n IH]; intros i; [reflexivity|].
  cbn [first_index]. rewrite Hpq, IH. reflexivity.
Qed.

Lemma first_index_shift n i k (p : Z -> bool) :
  first_index n (i + k) p
  = (fun x => x + k) <$> first_index n i (fun d => p (d + k)).
Proof.
  revert i. induction n as [|n IH]; intros i; [reflexivity|].
  cbn [first_index]. destruct (p (i + k)); [reflexivity|].
  replace (i + k + 1) with (i + 1 + k) by lia. apply IH.
Qed.

Lemma pow2_double a b : 0 <= a -> 0 <= b -> 2 ^ a < 2 ^ b -> 2 * 2 ^ a <= 2 ^ b.
Proof.
  intros Ha Hb Hlt. pose proof (pow2_lt_exp a b Ha Hb Hlt) as Hab.
  rewrite <- Z.pow_succ_r by exact Ha.
  apply Z.pow_le_mono_r; lia.
Qed.

Section growth.
Context {KeyType ValueType : Type}.
Context `{!EqDecision KeyType, !Inhabited KeyType, !Inhabited ValueType}.
Variable HashFunction : KeyType -> Z.
Variable sizeof_MainEntry : Z.
Local Abbreviation HashMap := (@HashMap KeyType ValueType).
Local Abbreviation table_inv := (table_inv HashFunction).
Local Abbreviation table_ok := (table_ok HashFunction).
Local Abbreviation bucket_of := (bucket_of HashFunction).
Local Abbreviation find := (find HashFunction).
Local Abbreviation try_insert := (try_insert HashFunction sizeof_MainEntry).
Local Abbreviation resize_and_place := (resize_and_place HashFunction sizeof_MainEntry).
Local Abbreviation place := (place sizeof_MainEntry).
Local Abbreviation choose_placement := (choose_placement sizeof_MainEntry).
Local Abbreviation growth_rule := (growth_rule sizeof_MainEntry).
Local Abbreviation span_too_long := (span_too_long sizeof_MainEntry).
Implicit Types (t : HashMap) (key : KeyType) (it : iterator).

(** The loop of [try_insert] over the overflow slots counts what
    [skipped_slots] counts. *)
Lemma probe_counts t b :
  pow2_capacity t ->
  forall n off,
    0 <= off -> off + Z.of_nat n < size_modulus ->
    probe n t (slot t b off) (off + 1)
    = (fun d => (slot t b (off + d), off + 1 + d))
        <$> first_index n 0
              (fun d => isInvalid (main_index (coll_at t (slot t b (off + d))))).
Proof.
  intros Hcap. induction n as [|n IH]; intros off Hoff Hbound; [reflexivity|].
  cbn [probe first_index]. rewrite Z.add_0_r.
  destruct (isInvalid (main_index (coll_at t (slot t b off)))) eqn:Hv.
  { cbn. rewrite !Z.add_0_r. reflexivity. }
  rewrite (slot_succ t b off Hcap).
  destruct (decide (n = 0%nat)) as [->|Hn]; [reflexivity|].
  rewrite wrap_small by lia.
  rewrite (IH (off + 1)) by lia.
  rewrite (first_index_shift n 0 1).
  rewrite (first_index_ext n 0
             (fun d => isInvalid (main_index (coll_at t (slot t b (off + 1 + d)))))
             (fun d => isInvalid (main_index (coll_at t (slot t b (off + (d + 1)))))))
    by (intros x; do 4 f_equal; lia).
  destruct (first_index n 0 _) as [d|]; [|reflexivity].
  cbn. do 2 f_equal; [f_equal|]; lia.
Qed.

(** The new span exists for an occupied bucket, and it is counted as the
    specification says. *)
Lemma new_span_counted t b :
  table_inv t -> 0 <= b < bucket_count t -> main_live t b ->
  exists span,
    new_span t b = Some span
    /\ probe (Z.to_nat (bucket_count t)) t
             (slot t b (chain_length (main_at t b)))
             (chain_length (main_at t b) + 1)
       = Some (slot t b (span - 1), span)
    /\ chain_length (main_at t b) + 1 <= span
    /\ ~ coll_live t (slot t b (span - 1))
    /\ forall i, chain_length (main_at t b) <= i < span - 1 ->
                 coll_live t (slot t b i).
Proof.
  intros Hinv Hb Hlive.
  pose proof (inv_cap_bounds _ t Hinv) as Hc.
  pose proof (inv_span _ _ Hinv b Hb Hlive) as Hspan.
  assert (Hoff : 0 <= chain_length (main_at t b)) by lia.
  assert (Hbound : chain_length (main_at t b)
                   + Z.of_nat (Z.to_nat (bucket_count t)) < size_modulus)
    by (rewrite size_modulus_eq; lia).
  pose proof (probe_counts t b (inv_capacity _ _ Hinv)
                (Z.to_nat (bucket_count t)) (chain_length (main_at t b))
                Hoff Hbound) as Hprobe.
  destruct (probe_total HashFunction t b (chain_length (main_at t b)) Hinv Hb Hlive)
    as (idx & ns & Hp).
  unfold new_span, skipped_slots.
  destruct (first_index _ 0 _) as [d|] eqn:Hd;
    [|rewrite Hp in Hprobe; discriminate Hprobe].
  apply first_index_Some in Hd as (Hrange & Hfree & Hbusy).
  exists (chain_length (main_at t b) + 1 + d).
  replace (chain_length (main_at t b) + 1 + d - 1)
    with (chain_length (main_at t b) + d) by lia.
  split; [reflexivity|]. split; [exact Hprobe|]. split; [lia|]. split.
  - apply isInvalid_true in Hfree. unfold coll_live. tauto.
  - intros i Hi.
    assert (Hlt : 0 <= i - chain_length (main_at t b) < d) by lia.
    specialize (Hbusy (i - chain_length (main_at t b)) Hlt).
    apply isInvalid_false in Hbusy.
    replace (chain_length (main_at t b) + (i - chain_length (main_at t b)))
      with i in Hbusy by lia.
    exact Hbusy.
Qed.

(** What [resize:] is asked for, it provides: the table it returns has at
    least [new_bucket_count] buckets. *)
Lemma resize_and_place_capacity fuel :
  forall nbc t key args r,
    table_inv t -> key ∉ (entries t).*1 -> element_count t < nbc ->
    resize_and_place fuel nbc t key args = Ok r ->
    nbc <= bucket_count (fst r).
Proof.
  induction fuel as [|f IH]; intros nbc t key args r Hinv Hkey Hnbc Hr;
    [discriminate|].
  rewrite resize_and_place_S in Hr. cbv zeta in Hr.
  destruct (@try_insert_spec KeyType ValueType _ _ _ HashFunction
              sizeof_MainEntry f) as [Hti Hrp].
  apply bind_Ok in Hr as (t1 & Hres & Hr).
  destruct (reserve_spec HashFunction _ _ _ _
              (ins_ok_of_try_insert HashFunction sizeof_MainEntry f Hti)
              (or_intror Hinv) Hres) as (Hinv1 & Hperm1 & Hn1 & _ & _).
  assert (Hkey1 : key ∉ (entries t1).*1) by (rewrite Hperm1; exact Hkey).
  destruct (find_ok HashFunction t1 key Hinv1) as (it1 & Hfind1 & Hpost1).
  destruct (find_absent HashFunction t1 key (or_intror Hinv1) Hkey1)
    as (it1' & Hfind1' & Hnull1).
  rewrite Hfind1 in Hfind1'. injection Hfind1' as <-.
  rewrite Hfind1 in Hr. cbn [bind] in Hr.
  pose proof (inv_cap_bounds _ t1 Hinv1) as Hc1.
  pose proof (inv_room _ _ Hinv1) as Hroom1.
  assert (Hcount1 : element_count t1 = element_count t).
  { rewrite (inv_count _ _ Hinv1), (inv_count _ _ Hinv), Hperm1. reflexivity. }
  assert (Hdec : choose_placement t1 it1 = Expand
                 \/ choose_placement t1 it1 <> Expand).
  { destruct (choose_placement t1 it1);
      (left; reflexivity) || (right; discriminate). }
  destruct Hdec as [Hch|Hch].
  - unfold turbokit.place in Hr. rewrite Hch in Hr.
    rewrite wrap_small in Hr by (rewrite size_modulus_eq; lia).
    assert (Hlt : element_count t1 < bucket_count t1 + 1) by lia.
    pose proof (IH (bucket_count t1 + 1) t1 key args r Hinv1 Hkey1 Hlt Hr).
    lia.
  - assert (Hfit : element_count t1 + 1 <= bucket_count t1) by lia.
    destruct (place_ok HashFunction sizeof_MainEntry (resize_and_place f)
                t1 it1 key args r Hinv1 Hpost1 Hnull1 Hfit Hch Hr)
      as (_ & _ & Hbc & _).
    lia.
Qed.

(** C4: on a consistent table with at most 2^61 buckets and fewer than
    2^60 pairs, [try_insert] of a key that is not stored and whose bucket
    [b] is occupied, so that the pair needs an overflow slot, always
    returns with the pair stored.  It grows the table, to at least twice
    the buckets, exactly when [growth_rule] holds: the table has as many
    pairs as buckets, or it has fewer than 1024 * 1024 / sizeof(MainEntry)
    buckets and fewer buckets than four times the pairs, whatever the
    span of [b] is, or the new span is at least 4 with fewer than
    4 * 1024 * 1024 / sizeof(MainEntry) buckets, or the new span is at
    least half the buckets.  Otherwise the bucket count stays, the pair
    goes to overflow slot [b + span - 1] and the span of [b] becomes the
    new span.  The new span is counted from [b + old span] on: every
    overflow slot up to [b + span - 2] is occupied and counts, whichever
    bucket owns it, and slot [b + span - 1] is the first empty one. *)
Theorem C4_growth_policy (fuel : nat) t key (args : ValueType) :
  table_inv t ->
  key ∉ (entries t).*1 ->
  main_live t (bucket_of t key) ->
  bucket_count t <= 2 ^ 61 ->
  element_count t < 2 ^ 60 ->
  (125 <= fuel)%nat ->
  let b := bucket_of t key in
  let old_span := chain_length (main_at t b) in
  exists span t' it,
    new_span t b = Some span
    /\ old_span + 1 <= span
    /\ ~ coll_live t (slot t b (span - 1))
    /\ (forall i, old_span <= i < span - 1 -> coll_live t (slot t b i))
    /\ try_insert fuel t key args = Ok (t', (it, true))
    /\ entries t' ≡ₚ (key, args) :: entries t
    /\ ((growth_rule t b /\ 2 * bucket_count t <= bucket_count t')
        \/ (~ growth_rule t b
            /\ bucket_count t' = bucket_count t
            /\ chain_length (main_at t' b) = span
            /\ it = mk_iterator b (slot t b (span - 1))
                                (collision_value_ptr (slot t b (span - 1))))).
Proof.
  intros Hinv Hkey Hlive Hcap Hcnt Hfuel b old_span.
  pose proof (bucket_of_range HashFunction t key Hinv) as Hb.
  fold b in Hb, Hlive.
  destruct (new_span_counted t b Hinv Hb Hlive)
    as (span & Hns & Hprobe & Hle & Hfree & Hbusy).
  fold old_span in Hprobe, Hle, Hbusy.
  destruct (try_insert_returns_slack HashFunction sizeof_MainEntry fuel t key args
              (or_intror Hinv) Hcap Hcnt Hfuel) as ([t' [it ins]] & Hr).
  destruct (try_insert_new_key_post HashFunction sizeof_MainEntry fuel t key args
              t' it ins (or_intror Hinv) Hkey Hr) as (-> & _ & Hperm & _).
  destruct (@try_insert_spec KeyType ValueType _ _ _ HashFunction
              sizeof_MainEntry fuel) as [Hti _].
  destruct (Hti t key args _ (or_intror Hinv) Hr) as [(Hinv' & _) _].
  cbn [fst] in Hinv'.
  exists span, t', it.
  split; [exact Hns|]. split; [exact Hle|]. split; [exact Hfree|].
  split; [exact Hbusy|]. split; [exact Hr|]. split; [exact Hperm|].
  pose proof (inv_cap_bounds _ t Hinv) as Hcb.
  pose proof (inv_room _ _ Hinv) as Hroom.
  pose proof (inv_count_nonneg HashFunction t Hinv) as Hnn.
  pose proof (inv_span _ _ Hinv b Hb Hlive) as Hspan.
  fold old_span in Hspan.
  assert (Hdouble : bucket_count t < bucket_count t' ->
                    2 * bucket_count t <= bucket_count t').
  { destruct (inv_capacity _ _ Hinv) as (k & Hk & ->).
    destruct (inv_capacity _ _ Hinv') as (k' & Hk' & ->).
    apply pow2_double; lia. }
  destruct fuel as [|f]; [lia|].
  rewrite try_insert_S in Hr. cbv zeta in Hr.
  destruct (inv_main_alloc _ _ Hinv) as [ml Hml].
  rewrite Hml in Hr. cbn [bind] in Hr.
  destruct (find_ok HashFunction t key Hinv) as (it0 & Hfind & Hpost).
  destruct (find_absent HashFunction t key (or_intror Hinv) Hkey)
    as (it0' & Hfind' & Hnull).
  rewrite Hfind in Hfind'. injection Hfind' as <-.
  rewrite Hfind in Hr. cbn [bind] in Hr.
  rewrite bool_decide_eq_true_2 in Hr by exact Hnull. cbn [negb] in Hr.
  rewrite wrap_small in Hr by (rewrite size_modulus_eq; lia).
  destruct (absent_cursor HashFunction t key it0 Hinv Hpost Hnull)
    as (_ & Hbi & [[Hdead _]|[_ Hci]]); [contradiction|].
  fold b in Hbi, Hci. fold old_span in Hci.
  destruct (Z.ltb_spec (bucket_count t) (element_count t + 1)) as [Hfull|Hfit].
  { left. split; [left; exact Hfull|]. apply Hdouble.
    assert (Hlt : element_count t < element_count t + 1) by lia.
    pose proof (resize_and_place_capacity f _ t key args _ Hinv Hkey Hlt Hr) as Hge.
    cbn [fst] in Hge. lia. }
  unfold turbokit.place, turbokit.choose_placement in Hr.
  assert (Hvalid : isInvalid (collision_index it0) = false).
  { apply isInvalid_false. rewrite Hci.
    pose proof (slot_range HashFunction t b old_span Hinv).
    rewrite invalid_marker_eq. lia. }
  rewrite Hvalid in Hr.
  rewrite (wrap_small (element_count t * 4)) in Hr
    by (rewrite size_modulus_eq; lia).
  destruct (Z.ltb_spec (bucket_count t) (small_limit sizeof_MainEntry)) as [Hs|Hs];
    destruct (Z.ltb_spec (bucket_count t) (element_count t * 4)) as [Hq|Hq];
    cbn [andb] in Hr.
  1: { left. split; [right; left; split; assumption|]. apply Hdouble.
       rewrite wrap_small in Hr by (rewrite size_modulus_eq; lia).
       assert (Hlt : element_count t < bucket_count t + 1) by lia.
       pose proof (resize_and_place_capacity f _ t key args _ Hinv Hkey Hlt Hr)
         as Hge.
       cbn [fst] in Hge. lia. }
  all: rewrite Hbi, Hci in Hr.
  all: change (chain_length (main_at t b)) with old_span in Hr.
  all: rewrite (wrap_small (old_span + 1)) in Hr
      by (rewrite size_modulus_eq; lia).
  all: rewrite Hprobe in Hr.
  all: destruct (Z.geb_spec span 4) as [H4|H4];
    destruct (Z.ltb_spec (bucket_count t) (large_limit sizeof_MainEntry)) as [Hl|Hl];
    destruct (Z.geb_spec span (bucket_count t / 2)) as [Hh|Hh];
    cbn [andb orb] in Hr.
  all: try (left; split;
            [right; right; exists span; split; [exact Hns|];
             unfold turbokit.span_too_long; lia|];
            apply Hdouble;
            rewrite wrap_small in Hr by (rewrite size_modulus_eq; lia);
            assert (Hlt : element_count t < bucket_count t + 1) by lia;
            pose proof (resize_and_place_capacity f _ t key args _ Hinv Hkey
                          Hlt Hr) as Hge;
            cbn [fst] in Hge; lia).
  all: right; injection Hr as <- <-.
  all: split;
    [intros [Hg|[[Hg1 Hg2]|(s & Hs' & Hlong)]];
     [lia | lia
      | rewrite Hns in Hs'; injection Hs' as <-;
        unfold turbokit.span_too_long in Hlong; lia]|].
  all: split; [reflexivity|]. 
  all: split; [|reflexivity].
  all: rewrite main_at_set_coll, main_at_set_main_eq;
    [reflexivity|].
  all: rewrite mains_set_count, (inv_main_len HashFunction t Hinv); exact Hb.
Qed.
End growth.

(** C4 on the table with two chains: key 32 belongs to bucket 0, whose span
    is 1; overflow slot 1 belongs to bucket 1 and is counted, slot 2 is
    empty, the new span is 3 and the table keeps its 16 buckets. *)
Lemma C4_growth_policy_witness :
  let t := IntMap.two_chains in
  bucket_of IntMap.hash t 32 = 0
  /\ chain_length (main_at t 0) = 1
  /\ new_span t 0 = Some 3
  /\ ~ growth_rule IntMap.sizeof_entry t 0
  /\ let b := bucket_of IntMap.hash t 32 in
     let old_span := chain_length (main_at t b) in
     exists span t' it,
       new_span t b = Some span
       /\ old_span + 1 <= span
       /\ ~ coll_live t (slot t b (span - 1))
       /\ (forall i, old_span <= i < span - 1 -> coll_live t (slot t b i))
       /\ try_insert IntMap.hash IntMap.sizeof_entry 125 t 32 5
          = Ok (t', (it, true))
       /\ entries t' ≡ₚ (32, 5) :: entries t
       /\ ((growth_rule IntMap.sizeof_entry t b
            /\ 2 * bucket_count t <= bucket_count t')
           \/ (~ growth_rule IntMap.sizeof_entry t b
               /\ bucket_count t' = bucket_count t
               /\ chain_length (main_at t' b) = span
               /\ it = mk_iterator b (slot t b (span - 1))
                                   (collision_value_ptr (slot t b (span - 1))))).
Proof.
  intros t.
  assert (Hspan : new_span t 0 = Some 3) by (vm_compute; reflexivity).
  split; [vm_compute; reflexivity|]. split; [vm_compute; reflexivity|].
  split; [exact Hspan|]. split.
  { intros [Hfull|[[_ Hquarter]|(span & Hs & Hlong)]].
    - vm_compute in Hfull. discriminate.
    - vm_compute in Hquarter. discriminate.
    - rewrite Hspan in Hs. injection Hs as <-.
      destruct Hlong as [[Hfour _]|Hhalf].
      + lia.
      + vm_compute in Hhalf. apply Hhalf. reflexivity. }
  apply (C4_growth_policy IntMap.hash IntMap.sizeof_entry 125 t 32 5).
  - apply table_ok_inv.
    + apply (run_ops_ok IntMap.two_chains_ops). vm_compute. reflexivity.
    + vm_compute. discriminate.
  - decide_by_compute.
  - vm_compute. discriminate.
  - vm_compute. discriminate.
  - vm_compute. reflexivity.
  - lia.
Defined.

(** C4, as the specification words it, fails: bucket 0 of this table already
    has span 1 and the new span for key 32 is 2, in 16 buckets with 5 pairs,
    so that no clause of the stated rule holds; yet [try_insert] grows the
    table to 32 buckets, because 16 buckets are fewer than four times 5
    pairs. *)
Lemma C4_growth_policy_counterexample :
  IntMap.run_ops IntMap.crowded_ops = Ok IntMap.crowded
  /\ bucket_count IntMap.crowded = 16
  /\ element_count IntMap.crowded = 5
  /\ (32 ∉ (entries IntMap.crowded).*1)
  /\ bucket_of IntMap.hash IntMap.crowded 32 = 0
  /\ main_live IntMap.crowded 0
  /\ chain_length (main_at IntMap.crowded 0) = 1
  /\ new_span IntMap.crowded 0 = Some 2
  /\ ~ stated_growth_rule IntMap.sizeof_entry IntMap.crowded 0
  /\ exists t' it,
      try_insert IntMap.hash IntMap.sizeof_entry 8 IntMap.crowded 32 5
      = Ok (t', (it, true))
      /\ bucket_count t' = 32.
Proof.
  assert (Hspan : new_span IntMap.crowded 0 = Some 2)
    by (vm_compute; reflexivity).
  do 3 (split; [vm_compute; reflexivity|]).
  split; [decide_by_compute|].
  split; [vm_compute; reflexivity|].
  split; [vm_compute; discriminate|].
  split; [vm_compute; reflexivity|].
  split; [exact Hspan|]. split.
  - intros [(Hfirst & _)|(span & Hs & Hlong)].
    + vm_compute in Hfirst. discriminate.
    + rewrite Hspan in Hs. injection Hs as <-.
      destruct Hlong as [[Hfour _]|Hhalf].
      * lia.
      * vm_compute in Hhalf. apply Hhalf. reflexivity.
  - eexists _, _. split; vm_compute; reflexivity.
Qed.

(** A table with as many pairs as buckets grows although its bucket count
    is not below the small limit and the new span is short: 16 pairs take
    the 16 main slots, for key 16 bucket 0 is occupied with span 0 and the
    new span would be 1, and [try_insert] returns a table of 32 buckets. *)
Remark full_table_grows :
  run IntMap.hash IntMap.sizeof_large_entry 8 IntMap.full_ops IntMap.new
  = Ok IntMap.full
  /\ bucket_count IntMap.full = 16
  /\ element_count IntMap.full = 16
  /\ small_limit IntMap.sizeof_large_entry = 16
  /\ (16 ∉ (entries IntMap.full).*1)
  /\ bucket_of IntMap.hash IntMap.full 16 = 0
  /\ main_live IntMap.full 0
  /\ chain_length (main_at IntMap.full 0) = 0
  /\ new_span IntMap.full 0 = Some 1
  /\ ~ span_too_long IntMap.sizeof_large_entry IntMap.full 1
  /\ exists t' it,
      try_insert IntMap.hash IntMap.sizeof_large_entry 8 IntMap.full 16 16
      = Ok (t', (it, true))
      /\ bucket_count t' = 32.
Proof.
  do 4 (split; [vm_compute; reflexivity|]).
  split; [decide_by_compute|].
  split; [vm_compute; reflexivity|].
  split; [vm_compute; discriminate|].
  do 2 (split; [vm_compute; reflexivity|]).
  split.
  - intros [[Hfour _]|Hhalf].
    + lia.
    + vm_compute in Hhalf. apply Hhalf. reflexivity.
  - eexists _, _. split; vm_compute; reflexivity.
Qed.

(** ** The further properties on integer tables *)

(** X1 on a table reached by six insertions and three erasures. *)
Lemma X1_find_refines_reference_map_witness :
  run IntMap.hash IntMap.sizeof_entry 8 IntMap.mixed_ops empty_map
  = Ok IntMap.mixed
  /\ forall key,
       finds IntMap.hash IntMap.mixed key (reference_run IntMap.mixed_ops key).
Proof.
  split; [vm_compute; reflexivity|].
  apply (X1_find_refines_reference_map IntMap.hash IntMap.sizeof_entry 8
           IntMap.mixed_ops IntMap.mixed).
  vm_compute. reflexivity.
Defined.

(** X2 on the same table, removing the stored key 16. *)
Lemma X2_remove_key_effect_witness :
  exists t',
    remove_key IntMap.hash IntMap.mixed 16 = Ok (t', RVoid)
    /\ get_bucket_count t' = get_bucket_count IntMap.mixed
    /\ (forall kv, kv ∈ entries t' <-> kv ∈ entries IntMap.mixed /\ kv.1 <> 16)
    /\ size t' = (if decide (16 ∈ (entries IntMap.mixed).*1)
                  then size IntMap.mixed - 1 else size IntMap.mixed)
    /\ (16 ∉ (entries IntMap.mixed).*1 -> t' = IntMap.mixed)
    /\ finds IntMap.hash t' 16 None
    /\ (forall k v, (k, v) ∈ entries IntMap.mixed -> k <> 16 ->
          finds IntMap.hash t' k (Some v)).
Proof.
  apply (X2_remove_key_effect IntMap.hash IntMap.sizeof_entry 8
           IntMap.mixed_ops IntMap.mixed 16).
  vm_compute. reflexivity.
Defined.

(** X3 on the same table, at the pair (16, 20), which sits in main slot 16
    while (48, 7) sits in the collision slot of that bucket. *)
Lemma X3_remove_found_cursor_witness :
  exists it t' it',
    find IntMap.hash IntMap.mixed 16 = Ok it
    /\ deref IntMap.mixed it = Some (16, 20)
    /\ remove IntMap.mixed it = Ok (t', it')
    /\ entries IntMap.mixed ≡ₚ (16, 20) :: entries t'
    /\ size t' = size IntMap.mixed - 1
    /\ get_bucket_count t' = get_bucket_count IntMap.mixed
    /\ finds IntMap.hash t' 16 None
    /\ (forall k v', (k, v') ∈ entries IntMap.mixed -> k <> 16 ->
          finds IntMap.hash t' k (Some v')).
Proof.
  apply (X3_remove_found_cursor IntMap.hash IntMap.sizeof_entry 8
           IntMap.mixed_ops IntMap.mixed 16 20).
  - vm_compute. reflexivity.
  - decide_by_compute.
Defined.

(** X4 from the table with two chains, continued by an erasure and two
    insertions. *)
Lemma X4_bucket_count_monotone_witness :
  get_bucket_count IntMap.two_chains <= get_bucket_count IntMap.two_chains_later
  /\ ((forall op, op ∈ IntMap.later_ops -> exists key, op = Erase key) ->
      get_bucket_count IntMap.two_chains_later
      = get_bucket_count IntMap.two_chains).
Proof.
  apply (X4_bucket_count_monotone IntMap.hash IntMap.sizeof_entry 8 8
           IntMap.two_chains_ops IntMap.later_ops).
  - vm_compute. reflexivity.
  - vm_compute. reflexivity.
Defined.

(** X5 on a table reached by six insertions and three erasures. *)
Lemma X5_reached_table_consistent_witness :
  size IntMap.mixed = Z.of_nat (length (entries IntMap.mixed))
  /\ NoDup (entries IntMap.mixed).*1
  /\ size IntMap.mixed <= get_bucket_count IntMap.mixed
  /\ (forall k v, (k, v) ∈ entries IntMap.mixed ->
        finds IntMap.hash IntMap.mixed k (Some v))
  /\ (forall k, k ∉ (entries IntMap.mixed).*1 ->
        finds IntMap.hash IntMap.mixed k None).
Proof.
  apply (X5_reached_table_consistent IntMap.hash IntMap.sizeof_entry 8
           IntMap.mixed_ops IntMap.mixed).
  vm_compute. reflexivity.
Defined.

(** X6 on the crowded table, where inserting key 32 makes the table grow. *)
Lemma X6_try_insert_new_key_witness :
  exists t' it,
    try_insert IntMap.hash IntMap.sizeof_entry 125 IntMap.crowded 32 7
    = Ok (t', (it, true))
    /\ deref t' it = Some (32, 7)
    /\ entries t' ≡ₚ (32, 7) :: entries IntMap.crowded
    /\ size t' = size IntMap.crowded + 1
    /\ get_bucket_count IntMap.crowded <= get_bucket_count t'
    /\ (forall k v, (k, v) ∈ entries IntMap.crowded ->
          finds IntMap.hash t' k (Some v))
    /\ finds IntMap.hash t' 32 (Some 7).
Proof.
  apply (X6_try_insert_new_key IntMap.hash IntMap.sizeof_entry 8 125
           IntMap.crowded_ops IntMap.crowded 32 7).
  - vm_compute. reflexivity.
  - decide_by_compute.
  - vm_compute. discriminate.
  - vm_compute. reflexivity.
  - lia.
Defined.

(** X7 on a table reached by six insertions and three erasures. *)
Lemma X7_iteration_visits_entries_witness :
  visits IntMap.mixed (begin IntMap.mixed) (entries IntMap.mixed)
  /\ Z.of_nat (length (entries IntMap.mixed)) = size IntMap.mixed
  /\ NoDup (entries IntMap.mixed).*1.
Proof.
  apply (X7_iteration_visits_entries IntMap.hash IntMap.sizeof_entry 8
           IntMap.mixed_ops IntMap.mixed).
  - reflexivity.
  - vm_compute. reflexivity.
Defined.

(** X8 on the same table. *)
Lemma X8_copy_construct_same_pairs_witness :
  exists copy,
    copy_construct IntMap.hash IntMap.sizeof_entry 125 IntMap.mixed = Ok copy
    /\ entries copy ≡ₚ entries IntMap.mixed
    /\ size copy = size IntMap.mixed
    /\ (forall k v, (k, v) ∈ entries IntMap.mixed ->
          finds IntMap.hash copy k (Some v))
    /\ (forall k, k ∉ (entries IntMap.mixed).*1 -> finds IntMap.hash copy k None).
Proof.
  apply (X8_copy_construct_same_pairs IntMap.hash IntMap.sizeof_entry 8 125
           IntMap.mixed_ops IntMap.mixed).
  - reflexivity.
  - vm_compute. reflexivity.
  - vm_compute. discriminate.
  - lia.
Defined.

(** X9 on the same table, with a context that records what it is handed. *)
Lemma X9_serialize_map_writes_entries_witness :
  serialize_map IntMap.recorded_size IntMap.recorded_pair [] IntMap.mixed
  = Ok (fold_left (fun c kv => IntMap.recorded_pair c kv.1 kv.2)
                  (entries IntMap.mixed)
                  (IntMap.recorded_size [] (size IntMap.mixed)))
  /\ size IntMap.mixed = Z.of_nat (length (entries IntMap.mixed)).
Proof.
  apply (X9_serialize_map_writes_entries IntMap.hash IntMap.sizeof_entry
           IntMap.recorded_size IntMap.recorded_pair 8 IntMap.mixed_ops
           IntMap.mixed []).
  - reflexivity.
  - vm_compute. reflexivity.
Defined.

(** X10 on the same table. *)
Lemma X10_clear_empties_witness :
  exists t',
    clear IntMap.mixed = Ok t'
    /\ size t' = 0
    /\ empty t' = true
    /\ entries t' = []
    /\ iterator_eq (begin t') (end_ t') = true
    /\ get_bucket_count t' = get_bucket_count IntMap.mixed
    /\ forall key, finds IntMap.hash t' key None.
Proof.
  apply (X10_clear_empties IntMap.hash IntMap.sizeof_entry 8 IntMap.mixed_ops
           IntMap.mixed).
  vm_compute. reflexivity.
Defined.

(** X11, assigning the table of the mixed run to the crowded table. *)
Lemma X11_assign_same_pairs_witness :
  exists t',
    assign IntMap.hash IntMap.sizeof_entry 125 IntMap.crowded IntMap.mixed = Ok t'
    /\ entries t' ≡ₚ entries IntMap.mixed
    /\ size t' = size IntMap.mixed
    /\ get_bucket_count IntMap.crowded <= get_bucket_count t'
    /\ (forall k v, (k, v) ∈ entries IntMap.mixed ->
          finds IntMap.hash t' k (Some v))
    /\ (forall k, k ∉ (entries IntMap.mixed).*1 -> finds IntMap.hash t' k None).
Proof.
  apply (X11_assign_same_pairs IntMap.hash IntMap.sizeof_entry 8 8 125
           IntMap.crowded_ops IntMap.mixed_ops IntMap.crowded IntMap.mixed).
  - reflexivity.
  - vm_compute. reflexivity.
  - vm_compute. reflexivity.
  - vm_compute. discriminate.
  - vm_compute. discriminate.
  - lia.
Defined.

(** X12 on the table of the mixed run, at the stored key 16. *)
Lemma X12_subscript_witness :
  exists t' p,
    subscript IntMap.hash IntMap.sizeof_entry 0 125 IntMap.mixed 16 = Ok (t', p)
    /\ (forall v, (16, v) ∈ entries IntMap.mixed ->
          t' = IntMap.mixed /\ load t' p = Some v)
    /\ (16 ∉ (entries IntMap.mixed).*1 ->
        load t' p = Some 0
        /\ entries t' ≡ₚ (16, 0) :: entries IntMap.mixed
        /\ size t' = size IntMap.mixed + 1).
Proof.
  apply (X12_subscript IntMap.hash IntMap.sizeof_entry 8 125 IntMap.mixed_ops
           IntMap.mixed 16 0).
  - vm_compute. reflexivity.
  - vm_compute. discriminate.
  - vm_compute. reflexivity.
  - lia.
Defined.

(** X13 on the same table. *)
Lemma X13_begin_end_empty_witness :
  iterator_eq (begin IntMap.mixed) (end_ IntMap.mixed) = empty IntMap.mixed
  /\ (empty IntMap.mixed = false ->
      exists kv, deref IntMap.mixed (begin IntMap.mixed) = Some kv
                 /\ kv ∈ entries IntMap.mixed).
Proof.
  apply (X13_begin_end_empty IntMap.hash IntMap.sizeof_entry 8 IntMap.mixed_ops
           IntMap.mixed).
  vm_compute. reflexivity.
Defined.

(** X14 on bucket 0 of the table with two chains, looking for key 16. *)
Lemma X14_find_in_collision_chain_scan_witness :
  find_in_collision_chain IntMap.two_chains 0 16
  = Ok match first_index
               (Z.to_nat (chain_length (main_at IntMap.two_chains 0))) 0
               (fun off => chain_equal IntMap.two_chains
                             (slot IntMap.two_chains 0 off) 0 16) with
       | Some off => mk_iterator 0 (slot IntMap.two_chains 0 off)
                       (collision_value_ptr (slot IntMap.two_chains 0 off))
       | None => mk_iterator 0
                   (slot IntMap.two_chains 0
                         (chain_length (main_at IntMap.two_chains 0))) nullptr
       end.
Proof.
  apply (X14_find_in_collision_chain_scan IntMap.hash IntMap.sizeof_entry 8
           IntMap.two_chains_ops IntMap.two_chains 0 16).
  - vm_compute. reflexivity.
  - vm_compute. split; [discriminate | reflexivity].
  - vm_compute. discriminate.
  - vm_compute. reflexivity.
Defined.

(** X15 on the table of the mixed run, reserving 100 buckets. *)
Lemma X15_reserve_keeps_pairs_witness :
  reserve IntMap.hash IntMap.sizeof_entry 8 100 IntMap.mixed
  = Ok IntMap.mixed_reserved
  /\ 100 <= get_bucket_count IntMap.mixed_reserved
  /\ get_bucket_count IntMap.mixed <= get_bucket_count IntMap.mixed_reserved
  /\ (exists k, 0 <= k /\ get_bucket_count IntMap.mixed_reserved = 2 ^ k)
  /\ entries IntMap.mixed_reserved ≡ₚ entries IntMap.mixed
  /\ size IntMap.mixed_reserved = size IntMap.mixed
  /\ (forall k v, (k, v) ∈ entries IntMap.mixed ->
        finds IntMap.hash IntMap.mixed_reserved k (Some v))
  /\ (forall k, k ∉ (entries IntMap.mixed).*1 ->
        finds IntMap.hash IntMap.mixed_reserved k None).
Proof.
  split; [vm_compute; reflexivity|].
  apply (X15_reserve_keeps_pairs IntMap.hash IntMap.sizeof_entry 8 8
           IntMap.mixed_ops IntMap.mixed 100 IntMap.mixed_reserved).
  - vm_compute. reflexivity.
  - vm_compute. reflexivity.
  - vm_compute. reflexivity.
Defined.

(** X17 on bucket 0 of the table with two chains. *)
Lemma X17_spans_stay_short_witness :
  0 <= chain_length (main_at IntMap.two_chains 0)
  /\ (chain_length (main_at IntMap.two_chains 0) = 0
      \/ chain_length (main_at IntMap.two_chains 0)
         < bucket_count IntMap.two_chains / 2)
  /\ (bucket_count IntMap.two_chains < large_limit IntMap.sizeof_entry ->
      chain_length (main_at IntMap.two_chains 0) <= 3).
Proof.
  apply (X17_spans_stay_short IntMap.hash IntMap.sizeof_entry 8
           IntMap.two_chains_ops IntMap.two_chains 0).
  - vm_compute. reflexivity.
  - vm_compute. split; [discriminate | reflexivity].
  - vm_compute. discriminate.
Defined.

(** X18 on the table with two chains, at the loop's cursor on collision
    slot 1, which holds (17, 40). *)
Lemma X18_remove_in_loop_witness :
  let it := mk_iterator invalid_marker 1 (collision_value_ptr 1) in
  (value_ptr (begin IntMap.two_chains) = nullptr
   \/ traversal_cursor IntMap.two_chains (begin IntMap.two_chains))
  /\ (exists it2, increment IntMap.two_chains it = Ok it2
                  /\ (value_ptr it2 = nullptr
                      \/ traversal_cursor IntMap.two_chains it2))
  /\ exists kv t' it',
       deref IntMap.two_chains it = Some kv
       /\ remove IntMap.two_chains it = Ok (t', it')
       /\ entries IntMap.two_chains ≡ₚ kv :: entries t'
       /\ size t' = size IntMap.two_chains - 1
       /\ get_bucket_count t' = get_bucket_count IntMap.two_chains
       /\ finds IntMap.hash t' kv.1 None
       /\ (forall k v, (k, v) ∈ entries IntMap.two_chains -> k <> kv.1 ->
             finds IntMap.hash t' k (Some v))
       /\ (value_ptr it' = nullptr \/ traversal_cursor t' it').
Proof.
  intros it.
  apply (X18_remove_in_loop IntMap.hash IntMap.sizeof_entry 8
           IntMap.two_chains_ops IntMap.two_chains it).
  - vm_compute. reflexivity.
  - right. exists 1. split; [vm_compute; split; [discriminate | reflexivity]|].
    split; [|reflexivity]. vm_compute. discriminate.
Defined.

